(** * redrock: redshift refinement (fitz) and the Spectrum/Target data model

    A shallow embedding of [redrock/fitz.py] and of the [Spectrum] and
    [Target] classes of [redrock/targets.py].

    Numbers.  Python floats and numpy float arrays are modelled by exact
    rationals ([Q]) and lists of rationals: rounding is outside the model.
    The divisions of the code whose divisor can be zero are those by one
    plus a redshift, in [get_dv] and in the rest-frame wavelengths of
    [fitz]; their results are [float64] values, with numpy's infinities
    and nan.
    Integers used as indices are [Z] when the source relies on Python's
    negative indices and [nat] otherwise.

    Exceptions.  A function that can raise returns a value of [res]: either
    [Ok v] or [Raise e], with [e] the Python exception class.

    Collaborators.  Functions imported from modules outside this
    development (numpy's [polyfit] and [sqrt], scipy.sparse operations,
    [rebin_template], [calc_zchi2_one], [transmitted_flux_fraction],
    [spectral_data], [mpsharedmem], the [ZWarningMask] bits) are the
    fields of type classes, so that every theorem holds whatever they
    compute; small concrete instances are given for evaluation. *)

From Stdlib Require Import QArith Qabs List Bool Lia Lqa ZArith Arith.
From Stdlib Require Import Sorting.Permutation Sorting.Sorted.
Import ListNotations.
Open Scope Q_scope.

(** ** Python exceptions and the error monad *)

Inductive exn : Type :=
| IndexError
| ValueError
| AssertionError
| LinAlgError
| KeyError
| AttributeError
| TypeError.

Inductive res (A : Type) : Type :=
| Ok (a : A)
| Raise (e : exn).
Arguments Ok {A} a.
Arguments Raise {A} e.

Definition bind {A B : Type} (m : res A) (k : A -> res B) : res B :=
  match m with
  | Ok a => k a
  | Raise e => Raise e
  end.

Notation "x <- m ;; k" := (bind m (fun x => k))
  (at level 61, m at next level, right associativity).
Notation "' p <- m ;; k" := (bind m (fun x => let 'p := x in k))
  (at level 61, p pattern, m at next level, right associativity).

Definition assert (b : bool) : res unit :=
  if b then Ok tt else Raise AssertionError.

Fixpoint mapM {A B : Type} (f : A -> res B) (l : list A) : res (list B) :=
  match l with
  | [] => Ok []
  | a :: l' => b <- f a ;; bs <- mapM f l' ;; Ok (b :: bs)
  end.

(** ** numpy on one-dimensional arrays *)

Definition Qltb (x y : Q) : bool := negb (Qle_bool y x).

Fixpoint map2 {A B C : Type} (f : A -> B -> C) (a : list A) (b : list B) : list C :=
  match a, b with
  | x :: a', y :: b' => f x y :: map2 f a' b'
  | _, _ => []
  end.

(** An elementwise operation on two arrays, which numpy refuses with a
    [ValueError] when the shapes differ (broadcasting of one-element arrays
    is not modelled). *)
Definition elementwise {A B C : Type} (f : A -> B -> C) (a : list A) (b : list B)
  : res (list C) :=
  if (length a =? length b)%nat then Ok (map2 f a b) else Raise ValueError.

(** [a[i]] for a Python integer [i]: negative indices count from the end. *)
Definition py_index {A : Type} (a : list A) (i : Z) : res A :=
  let n := Z.of_nat (length a) in
  let j := (if i <? 0 then n + i else i)%Z in
  if ((0 <=? j) && (j <? n))%Z%bool then
    match nth_error a (Z.to_nat j) with
    | Some v => Ok v
    | None => Raise IndexError
    end
  else Raise IndexError.

(** [a[lo:hi]] for [0 <= lo]. *)
Definition py_slice {A : Type} (a : list A) (lo hi : nat) : list A :=
  firstn (hi - lo) (skipn lo a).

(** [a[ii]] for an integer index array [ii] of non-negative indices. *)
Definition take {A : Type} (a : list A) (ii : list nat) : res (list A) :=
  mapM (fun i => py_index a (Z.of_nat i)) ii.

(** [np.where(mask)[0]]: the positions of the true entries, ascending. *)
Fixpoint where_from (k : nat) (mask : list bool) : list nat :=
  match mask with
  | [] => []
  | b :: m => if b then k :: where_from (S k) m else where_from (S k) m
  end.

Definition np_where (mask : list bool) : list nat := where_from 0 mask.

(** [np.argsort]: positions ordered by ascending value.  numpy's default sort
    leaves the order of equal values unspecified; the model is a stable
    insertion sort (what numpy runs on short arrays), and the theorems below
    use only that the result is a permutation of the positions with values
    in non-decreasing order. *)
Fixpoint insert_by_value (p : Q * nat) (l : list (Q * nat)) : list (Q * nat) :=
  match l with
  | [] => [p]
  | q :: l' => if Qle_bool (fst p) (fst q) then p :: q :: l'
               else q :: insert_by_value p l'
  end.

Fixpoint sort_by_value (l : list (Q * nat)) : list (Q * nat) :=
  match l with
  | [] => []
  | p :: l' => insert_by_value p (sort_by_value l')
  end.

Definition argsort (v : list Q) : list nat :=
  map snd (sort_by_value (combine v (seq 0 (length v)))).

(** [np.argmin]: the first position of the smallest value (0 on an empty
    list, where numpy raises; the callers below pass 15 samples). *)
Fixpoint argmin_from (k : nat) (best : nat) (vbest : Q) (v : list Q) : nat :=
  match v with
  | [] => best
  | y :: v' => if Qltb y vbest then argmin_from (S k) k y v'
               else argmin_from (S k) best vbest v'
  end.

Definition argmin (v : list Q) : nat :=
  match v with
  | [] => 0%nat
  | y :: v' => argmin_from 1 0 y v'
  end.

(** [np.concatenate], which refuses an empty list of arrays. *)
Definition np_concatenate (arrays : list (list Q)) : res (list Q) :=
  match arrays with
  | [] => Raise ValueError
  | _ => Ok (concat arrays)
  end.

(** [np.linspace(start, stop, num)] for [num > 1]: [num - 1] equal steps
    from [start], the last sample set to [stop] itself. *)
Definition linspace (start stop : Q) (num : nat) : list Q :=
  let step := (stop - start) / inject_Z (Z.of_nat (num - 1)) in
  map (fun k => start + inject_Z (Z.of_nat k) * step) (seq 0 (num - 1)) ++ [stop].

(** ** fitz.py: [get_dv] *)

(** [scipy.constants.speed_of_light / 1000.], in km/s. *)
Definition speed_of_light_km : Q := 299792458 / 1000.

(** What a float64 division can give: a number, an infinity or nan.
    (Rounding is not modelled: the numbers are exact.) *)
Inductive float64 : Type :=
| Finite (q : Q)
| PosInf
| NegInf
| NaN.

(** numpy's [x / y] on float64 arrays.  A zero divisor raises nothing: the
    quotient is an infinity with the sign of [x], and nan for [0 / 0]. *)
Definition np_divide (x y : Q) : float64 :=
  if Qeq_bool y 0 then
    if Qltb 0 x then PosInf else if Qltb x 0 then NegInf else NaN
  else Finite (x / y).

(** [np.abs(dv) < bound] on one element: False of nan and of an
    infinity. *)
Definition np_abs_lt (dv : float64) (bound : Q) : bool :=
  match dv with
  | Finite q => Qltb (Qabs q) bound
  | PosInf | NegInf | NaN => false
  end.

(** [v < bound] on one element: False of nan and of [+inf], True of
    [-inf]. *)
Definition np_lt (v : float64) (bound : Q) : bool :=
  match v with
  | Finite q => Qltb q bound
  | NegInf => true
  | PosInf | NaN => false
  end.

(** [fitz] calls [get_dv] with an array as [zref], so the division is
    numpy's. *)
Definition get_dv (z zref : Q) : float64 :=
  np_divide (speed_of_light_km * (z - zref)) (1 + zref).

(** ** fitz.py: [find_minima] *)

(** [np.r_[True, x[1:] <= x[:-1]]] *)
Definition not_above_left (x : list Q) : list bool :=
  true :: map2 Qle_bool (tl x) (removelast x).

(** [np.r_[x[:-1] <= x[1:], True]] *)
Definition not_above_right (x : list Q) : list bool :=
  map2 Qle_bool (removelast x) (tl x) ++ [true].

Definition find_minima (x : list Q) : res (list nat) :=
  let ii := np_where (map2 andb (not_above_left x) (not_above_right x)) in
  xii <- take x ii ;;
  let jj := argsort xii in
  take ii jj.

(** ** fitz.py: [minfit] *)

(** numpy's part of [minfit]: [polyfit2 x y] is [np.polyfit(x, y, 2)], the
    coefficients [(a, b, c)] of the fitted [a x^2 + b x + c]. *)
Class Numpy : Type := {
  polyfit2 : list Q -> list Q -> res (Q * Q * Q);
  np_sqrt : Q -> Q
}.

(** The two bits of [redrock.zwarning.ZWarningMask] that fitz.py sets. *)
Class ZWarningMask : Type := {
  BAD_MINFIT : Z;
  Z_FITLIMIT : Z
}.

(** [np.min] and [np.max] of a non-empty array. *)
Definition np_min (x : list Q) : Q :=
  match x with
  | [] => 0
  | a :: l => fold_left (fun m v => if Qltb v m then v else m) l a
  end.

Definition np_max (x : list Q) : Q :=
  match x with
  | [] => 0
  | a :: l => fold_left (fun m v => if Qltb m v then v else m) l a
  end.

Section Minfit.
Context {NP : Numpy} {ZW : ZWarningMask}.

Definition minfit (x y : list Q) : res (Q * Q * Q * Z) :=
  if (length x <? 3)%nat then Ok (-(1), -(1), -(1), BAD_MINFIT)
  else
    match polyfit2 x y with
    | Raise LinAlgError => Ok (-(1), -(1), -(1), BAD_MINFIT)
    | Raise e => Raise e
    | Ok (a, b, c) =>
        if Qeq_bool a 0 then Ok (-(1), -(1), -(1), BAD_MINFIT)
        else
          let x0 := - b / (2 * a) in
          let y0 := - (b ^ 2) / (4 * a) + c in
          let zwarn := 0%Z in
          let zwarn :=
            if Qle_bool x0 (np_min x) || Qle_bool (np_max x) x0
            then Z.lor zwarn BAD_MINFIT else zwarn in
          let zwarn :=
            if Qle_bool y0 0 then Z.lor zwarn BAD_MINFIT else zwarn in
          if Qltb 0 a then Ok (x0, 1 / np_sqrt a, y0, zwarn)
          else Ok (x0, 1 / np_sqrt (- a), y0, Z.lor zwarn BAD_MINFIT)
    end.
End Minfit.

(** ** targets.py: [Spectrum] *)

(** A [scipy.sparse.dia_matrix] and a [scipy.sparse.csr_matrix], by the
  arrays that define them. *)
Record dia_matrix : Type := {
dia_data : list (list Q);
dia_offsets : list Z;
dia_shape : nat * nat
}.

Record csr_matrix : Type := {
csr_data : list Q;
csr_indices : list Z;
csr_indptr : list Z;
csr_shape : nat * nat
}.

(** [redrock.mpsharedmem]: arrays held in multiprocessing shared memory. *)
Class MpSharedMem : Type := {
shared : Type -> Type;
fromarray : forall {A : Type}, list A -> shared A;
toarray : forall {A : Type}, shared A -> list A
}.

(** Python's [hash] of the 5-tuple that names a wavelength grid, and the
  order in which a [set] of hashes is iterated. *)
Class Python : Type := {
py_hash : nat -> Q -> Q -> Q -> Q -> Z;
set_iter : list Z -> list Z
}.

(** The sparse-matrix algebra of [compute_coadd]: [diag_dia v n R] is
  [dia_matrix((v, [0]), (n, n)) * R] for a band matrix [R], and
  [diag_sp v n M] the same product for an intermediate result [M]. *)
Class ScipySparse : Type := {
spmatrix : Type;
diag_dia : list Q -> nat -> dia_matrix -> spmatrix;
sp_add : spmatrix -> spmatrix -> spmatrix;
diag_sp : list Q -> nat -> spmatrix -> spmatrix;
todia : spmatrix -> dia_matrix;
tocsr : dia_matrix -> csr_matrix
}.

(** An attribute that [del] has removed is [None]; reading or deleting it
  raises [AttributeError]. *)
Definition getattr {A : Type} (o : option A) : res A :=
match o with
| Some v => Ok v
| None => Raise AttributeError
end.

Section Targets.
Context {SM : MpSharedMem} {PY : Python} {SP : ScipySparse}.

(** The dictionary [_mpshmem], whose keys are fixed. *)
Record ShMem : Type := {
  shm_wave : shared Q;
  shm_flux : shared Q;
  shm_ivar : shared Q;
  shm_R_data : shared (list Q);
  shm_R_offsets : list Z;
  shm_R_shape : nat * nat;
  shm_Rcsr_indices : shared Z;
  shm_Rcsr_indptr : shared Z;
  shm_Rcsr_data : shared Q;
  shm_Rcsr_shape : nat * nat
}.

Record Spectrum : Type := {
  nwave : nat;
  wave : option (list Q);
  flux : option (list Q);
  ivar : option (list Q);
  R : option dia_matrix;
  Rcsr : option csr_matrix;
  _mpshared : bool;
  _mpshmem : option ShMem;
  wavehash : Z
}.

(** [Spectrum.__init__] *)
Definition Spectrum_init (wave flux ivar : list Q) (R : dia_matrix)
           (Rcsr : csr_matrix) : res Spectrum :=
  w0 <- py_index wave 0 ;;
  w1 <- py_index wave 1 ;;
  w2 <- py_index wave (-2) ;;
  w3 <- py_index wave (-1) ;;
  Ok {| nwave := length wave;
        wave := Some wave;
        flux := Some flux;
        ivar := Some ivar;
        R := Some R;
        Rcsr := Some Rcsr;
        _mpshared := false;
        _mpshmem := None;
        wavehash := py_hash (length wave) w0 w1 w2 w3 |}.

Definition set_mpshmem (s : Spectrum) (m : option ShMem) : Spectrum :=
  {| nwave := nwave s; wave := wave s; flux := flux s; ivar := ivar s;
     R := R s; Rcsr := Rcsr s; _mpshared := _mpshared s; _mpshmem := m;
     wavehash := wavehash s |}.

(** [Spectrum.sharedmem_pack] *)
Definition sharedmem_pack (s : Spectrum) : res Spectrum :=
  if negb (_mpshared s) then
    s1 <- match _mpshmem s with
          | None =>
              w <- getattr (wave s) ;;
              f <- getattr (flux s) ;;
              i <- getattr (ivar s) ;;
              r <- getattr (R s) ;;
              rc <- getattr (Rcsr s) ;;
              Ok (set_mpshmem s (Some
                {| shm_wave := fromarray w;
                   shm_flux := fromarray f;
                   shm_ivar := fromarray i;
                   shm_R_data := fromarray (dia_data r);
                   shm_R_offsets := dia_offsets r;
                   shm_R_shape := dia_shape r;
                   shm_Rcsr_indices := fromarray (csr_indices rc);
                   shm_Rcsr_indptr := fromarray (csr_indptr rc);
                   shm_Rcsr_data := fromarray (csr_data rc);
                   shm_Rcsr_shape := csr_shape rc |}))
          | Some _ => Ok s
          end ;;
    _ <- getattr (wave s1) ;;
    _ <- getattr (flux s1) ;;
    _ <- getattr (ivar s1) ;;
    _ <- getattr (R s1) ;;
    _ <- getattr (Rcsr s1) ;;
    Ok {| nwave := nwave s1; wave := None; flux := None; ivar := None;
          R := None; Rcsr := None; _mpshared := true;
          _mpshmem := _mpshmem s1; wavehash := wavehash s1 |}
  else Ok s.

(** [Spectrum.sharedmem_unpack]; subscripting [_mpshmem] when it is
    [None] is a [TypeError]. *)
Definition sharedmem_unpack (s : Spectrum) : res Spectrum :=
  if _mpshared s then
    match _mpshmem s with
    | None => Raise TypeError
    | Some m =>
        Ok {| nwave := nwave s;
              wave := Some (toarray (shm_wave m));
              flux := Some (toarray (shm_flux m));
              ivar := Some (toarray (shm_ivar m));
              R := Some {| dia_data := toarray (shm_R_data m);
                           dia_offsets := shm_R_offsets m;
                           dia_shape := shm_R_shape m |};
              Rcsr := Some {| csr_data := toarray (shm_Rcsr_data m);
                              csr_indices := toarray (shm_Rcsr_indices m);
                              csr_indptr := toarray (shm_Rcsr_indptr m);
                              csr_shape := shm_Rcsr_shape m |};
              _mpshared := false;
              _mpshmem := _mpshmem s;
              wavehash := wavehash s |}
    end
  else Ok s.
End Targets.

(** ** targets.py: [Target] and [compute_coadd] *)

Fixpoint foldM {A S : Type} (f : S -> A -> res S) (l : list A) (s : S) : res S :=
  match l with
  | [] => Ok s
  | a :: l' => s' <- f s a ;; foldM f l' s'
  end.

(** [a[mask] = c] and [a[mask] = v[mask]] for a boolean [mask], which
    numpy refuses with an [IndexError] unless the lengths agree. *)
Definition mask_set (a : list Q) (mask : list bool) (c : Q) : res (list Q) :=
  if (length a =? length mask)%nat
  then Ok (map2 (fun x (b : bool) => if b then c else x) a mask)
  else Raise IndexError.

Definition mask_put (a : list Q) (mask : list bool) (v : list Q) : res (list Q) :=
  if ((length a =? length mask) && (length v =? length mask))%nat
  then Ok (map2 (fun (xv : Q * Q) (b : bool) => if b then snd xv else fst xv)
                (combine a v) mask)
  else Raise IndexError.

Definition Qnat (n : nat) : Q := inject_Z (Z.of_nat n).

Section Coadd.
Context {SM : MpSharedMem} {PY : Python} {SP : ScipySparse}.

Record Target : Type := {
  id : Z;
  spectra : list Spectrum;
  meta : list (Z * Z)
}.

(** The variables of the inner loop of [compute_coadd] once the first
    spectrum of the grid has been seen. *)
Record CoaddAcc : Type := {
  acc_wave : list Q;
  acc_unweightedflux : list Q;
  acc_weightedflux : list Q;
  acc_weights : list Q;
  acc_n : nat;
  acc_weightedR : spmatrix
}.

(** One turn of [for s in self.spectra]; the state is the accumulators
    ([None] while [weightedflux is None]) and [nspec]. *)
Definition coadd_step (key : Z) (st : option CoaddAcc * nat) (s : Spectrum)
  : res (option CoaddAcc * nat) :=
  let '(acc, nspec) := st in
  if negb (wavehash s =? key)%Z then Ok st
  else
    let nspec := S nspec in
    match acc with
    | None =>
        w <- getattr (wave s) ;;
        f <- getattr (flux s) ;;
        iv <- getattr (ivar s) ;;
        wf <- elementwise Qmult f iv ;;
        let n := length iv in
        r <- getattr (R s) ;;
        Ok (Some {| acc_wave := w;
                    acc_unweightedflux := f;
                    acc_weightedflux := wf;
                    acc_weights := iv;
                    acc_n := n;
                    acc_weightedR := diag_dia iv n r |}, nspec)
    | Some a =>
        iv <- getattr (ivar s) ;;
        _ <- assert (length iv =? acc_n a)%nat ;;
        f <- getattr (flux s) ;;
        uf <- elementwise Qplus (acc_unweightedflux a) f ;;
        fiv <- elementwise Qmult f iv ;;
        wf <- elementwise Qplus (acc_weightedflux a) fiv ;;
        ws <- elementwise Qplus (acc_weights a) iv ;;
        r <- getattr (R s) ;;
        Ok (Some {| acc_wave := acc_wave a;
                    acc_unweightedflux := uf;
                    acc_weightedflux := wf;
                    acc_weights := ws;
                    acc_n := acc_n a;
                    acc_weightedR :=
                      sp_add (acc_weightedR a) (diag_dia iv (acc_n a) r) |},
            nspec)
    end.

(** The body of [for key in set(...)]: the coadded [Spectrum] of one
    wavelength grid. *)
Definition coadd_key (sp : list Spectrum) (key : Z) : res Spectrum :=
  st <- foldM (coadd_step key) sp (None, 0%nat) ;;
  match fst st with
  | None => Raise TypeError
  | Some a =>
      let nspec := snd st in
      let weights := acc_weights a in
      let isbad := map (fun w => Qeq_bool w 0) weights in
      let denom := map2 (fun w (b : bool) => w + (if b then 1 else 0)) weights isbad in
      flux0 <- elementwise Qdiv (acc_weightedflux a) denom ;;
      flux1 <- mask_put flux0 isbad
                 (map (fun u => u / Qnat nspec) (acc_unweightedflux a)) ;;
      let Winv := map (fun d => 1 / d) denom in
      let R := todia (diag_sp Winv (acc_n a) (acc_weightedR a)) in
      let Rcsr := tocsr R in
      Spectrum_init (acc_wave a) flux1 weights R Rcsr
  end.

(** [Target.compute_coadd] *)
Definition compute_coadd (t : Target) : res Target :=
  coadd <- mapM (coadd_key (spectra t)) (set_iter (map wavehash (spectra t))) ;;
  Ok {| id := id t; spectra := coadd; meta := meta t |}.

End Coadd.

(** ** fitz.py: [fitz] *)

(** [constants.max_velo_diff], in km/s. *)
Definition max_velo_diff : Q := 1000.

(** A Python [dict] with integer keys, in insertion order. *)
Definition dict (V : Type) : Type := list (Z * V).

Fixpoint dict_get {V : Type} (d : dict V) (k : Z) : res V :=
  match d with
  | [] => Raise KeyError
  | (k', v) :: d' => if (k' =? k)%Z then Ok v else dict_get d' k
  end.

Definition dict_mem {V : Type} (d : dict V) (k : Z) : bool :=
  existsb (fun kv => (fst kv =? k)%Z) d.

Fixpoint dict_set {V : Type} (d : dict V) (k : Z) (v : V) : dict V :=
  match d with
  | [] => [(k, v)]
  | (k', v') :: d' => if (k' =? k)%Z then (k, v) :: d' else (k', v') :: dict_set d' k v
  end.

(** One row of the table that [fitz] returns. *)
Module Row.
Record t : Type := {
  z : Q;
  zerr : Q;
  zwarn : Z;
  chi2 : Q;
  zz : list Q;
  zzchi2 : list Q;
  coeff : list Q
}.
End Row.

(** A short-circuit [or] of two comparisons that may raise. *)
Definition or_else (a b : res bool) : res bool :=
  x <- a ;; if x then Ok true else b.

(** [m[:,0] *= v] on a two-dimensional array given by its rows. *)
Definition scale_col0 (m : list (list Q)) (v : list Q) : res (list (list Q)) :=
  if (length m =? length v)%nat then
    mapM (fun rv : list Q * Q =>
            match fst rv with
            | [] => Raise IndexError
            | h :: r => Ok (h * snd rv :: r)
            end) (combine m v)
  else Raise ValueError.

Section Fitz.
Context {SM : MpSharedMem} {NP : Numpy} {ZW : ZWarningMask}.

(** The collaborators of [fitz]: the template type with its [nbasis], and
    [rebin_template], [transmitted_flux_fraction], [calc_zchi2_one] and
    [spectral_data] of the modules [rebin], [utils] and [zscan]. *)
Class ZScan : Type := {
  Template : Type;
  nbasis : Template -> nat;
  rebin_template : Template -> Q -> dict (list Q) -> res (dict (list (list Q)));
  transmitted_flux_fraction : Q -> list Q -> res (list Q);
  calc_zchi2_one : list Spectrum -> list Q -> list Q -> list Q ->
                   dict (list (list Q)) -> res (Q * list Q);
  spectral_data : list Spectrum -> res (list Q * list Q * list Q)
}.

Context {ZS : ZScan}.

(** [for s in spectra: if s.wavehash not in dwave: dwave[s.wavehash] = s.wave] *)
Definition build_dwave (spectra : list Spectrum) : res (dict (list Q)) :=
  foldM (fun (dwave : dict (list Q)) (s : Spectrum) =>
           if negb (dict_mem dwave (wavehash s))
           then w <- getattr (wave s) ;; Ok (dict_set dwave (wavehash s) w)
           else Ok dwave) spectra [].

(** [rebin_template] followed by the attenuation of the first column of
    every re-binned grid. *)
Definition binned_at (template : Template) (dwave : dict (list Q)) (z : Q)
  : res (dict (list (list Q))) :=
  binned <- rebin_template template z dwave ;;
  foldM (fun (binned : dict (list (list Q))) (k : Z) =>
           bk <- dict_get binned k ;;
           wk <- dict_get dwave k ;;
           T <- transmitted_flux_fraction z wk ;;
           bk' <- scale_col0 bk T ;;
           Ok (dict_set binned k bk')) (map fst dwave) binned.

(** The two rest-frame wavelengths of the sparse-forest safeguard. *)
Definition forest_lines : list Q := [121567 / 100; 15482049 / 10000].

(** The pixel weights used for one fit: [z] is the redshift of the
    transmission [T] and of the rest-frame wavelengths [tmp_waveRF]. *)
Definition masked_weights (spectra : list Spectrum) (weights flux : list Q) (z : Q)
  : res (list Q * list Q) :=
  let tmp_weights := weights in
  waves <- mapM (fun s => getattr (wave s)) spectra ;;
  tmp_wave <- np_concatenate waves ;;
  let tmp_waveRF := map (fun w => np_divide w (1 + z)) tmp_wave in
  T <- transmitted_flux_fraction z tmp_wave ;;
  w <- elementwise andb (map (fun t => negb (Qeq_bool t 1)) T)
                        (map (fun x => Qltb 1 x) tmp_weights) ;;
  tmp_weights <- mask_set tmp_weights w 1 ;;
  tmp_weights <-
    foldM (fun (tmp_weights : list Q) (l : Q) =>
             let w := map (fun x => np_lt x l) tmp_waveRF in
             if (length (filter (fun b : bool => b) w) <? 50)%nat then
               w <- elementwise andb w (map (fun x => Qltb 1 x) tmp_weights) ;;
               mask_set tmp_weights w 1
             else Ok tmp_weights) forest_lines tmp_weights ;;
  tmp_wflux <- elementwise Qmult tmp_weights flux ;;
  Ok (tmp_weights, tmp_wflux).

(** One template fit: the template is re-binned at [zbin], the weights are
    masked at [zw].  The fine scan calls it with [zbin = zw = z]; the final
    evaluation re-bins at [zmin] and reuses the [z] and [tmp_waveRF] that
    the scan loop left behind, i.e. [zw] is the last fine redshift. *)
Definition fit_at (spectra : list Spectrum) (template : Template)
           (dwave : dict (list Q)) (weights flux : list Q) (zbin zw : Q)
  : res (Q * list Q) :=
  binned <- binned_at template dwave zbin ;;
  '(tmp_weights, tmp_wflux) <- masked_weights spectra weights flux zw ;;
  calc_zchi2_one spectra tmp_weights flux tmp_wflux binned.

(** [np.any(np.abs(get_dv(z, zprev)) < constants.max_velo_diff)] with
    [zprev] the array of the redshifts already in [results].  Against a
    row at the redshift -1 the velocity is an infinity or nan and the
    comparison is False. *)
Definition too_close (z : Q) (results : list Row.t) : bool :=
  existsb (fun zref => np_abs_lt (get_dv z zref) max_velo_diff)
          (map Row.z results).

(** [np.where(zbest == np.min(zbest))[0][0]] on the scalar [zbest]: the
    comparison of [zbest] with itself gives a one-element mask. *)
Definition where_scalar_min (zbest : Q) : res nat :=
  match np_where [Qeq_bool zbest zbest] with
  | i :: _ => Ok i
  | [] => Raise IndexError
  end.

(** The [try ... except ValueError] around the final coefficient
    evaluation: [body] is the outcome of the evaluation. *)
Definition final_coeff (template : Template) (redshifts : list Q)
           (body : res (Q * list Q)) (zmin : Q) (zwarn : Z)
  : res (list Q * Z) :=
  match body with
  | Ok r => Ok (snd r, zwarn)
  | Raise ValueError =>
      out <- or_else (r0 <- py_index redshifts 0 ;; Ok (Qltb zmin r0))
                     (r1 <- py_index redshifts (-1) ;; Ok (Qltb r1 zmin)) ;;
      if out then
        Ok (repeat 0 (nbasis template),
            Z.lor (Z.lor zwarn Z_FITLIMIT) BAD_MINFIT)
      else Raise ValueError
  | Raise e => Raise e
  end.

(** The 15-point grid around the coarse minimum [imin]. *)
Definition fine_grid (zchi2 redshifts : list Q) (imin : nat) : res (list Q) :=
  let ilo := Z.max 0 (Z.of_nat imin - 1) in
  let ihi := Z.min (Z.of_nat imin + 1) (Z.of_nat (length zchi2) - 1) in
  rlo <- py_index redshifts ilo ;;
  rhi <- py_index redshifts ihi ;;
  Ok (linspace rlo rhi 15).

(** The parabola through the lowest fine sample and its two neighbours. *)
Definition local_fit (zz zzchi2 : list Q) : res (Q * Q * Q * Z) :=
  let i := Nat.min (Nat.max (argmin zzchi2) 1) (length zz - 2) in
  minfit (py_slice zz (i - 1) (i + 2)) (py_slice zzchi2 (i - 1) (i + 2)).

(** From the [try] block to the row: [body] is the outcome of the final
    coefficient evaluation at [zmin]. *)
Definition finish_row (template : Template) (redshifts zz zzchi2 : list Q)
           (zmin sigma chi2min : Q) (zwarn : Z) (body : res (Q * list Q))
  : res Row.t :=
  '(coeff, zwarn) <- final_coeff template redshifts body zmin zwarn ;;
  let zbest := zmin in
  let zerr := sigma in
  edge <- or_else (r <- py_index redshifts 1 ;; Ok (Qltb zbest r))
                  (r <- py_index redshifts (-2) ;; Ok (Qltb r zbest)) ;;
  let zwarn := if edge then Z.lor zwarn Z_FITLIMIT else zwarn in
  edge <- or_else (r <- py_index redshifts 1 ;; Ok (Qltb zmin r))
                  (r <- py_index redshifts (-2) ;; Ok (Qltb r zmin)) ;;
  let zwarn := if edge then Z.lor zwarn Z_FITLIMIT else zwarn in
  out <- or_else (r <- py_index zz 0 ;; Ok (Qltb zbest r))
                 (r <- py_index zz (-1) ;; Ok (Qltb r zbest)) ;;
  '(zwarn, zbest, chi2min) <-
     (if out then
        imin <- where_scalar_min zbest ;;
        zb <- py_index zz (Z.of_nat imin) ;;
        c2 <- py_index zzchi2 (Z.of_nat imin) ;;
        Ok (Z.lor zwarn BAD_MINFIT, zb, c2)
      else Ok (zwarn, zbest, chi2min)) ;;
  Ok {| Row.z := zbest; Row.zerr := zerr; Row.zwarn := zwarn;
        Row.chi2 := chi2min; Row.zz := zz; Row.zzchi2 := zzchi2;
        Row.coeff := coeff |}.

(** Lines 155-235 of the loop body: the refinement of the coarse minimum
    [imin], which does not depend on the rows accepted so far.  After the
    scan loop its variable [z] holds the last fine redshift. *)
Definition refine (zchi2 redshifts : list Q) (spectra : list Spectrum)
           (template : Template) (dwave : dict (list Q))
           (weights flux : list Q) (imin : nat) : res Row.t :=
  zz <- fine_grid zchi2 redshifts imin ;;
  scan <- mapM (fun z => fit_at spectra template dwave weights flux z z) zz ;;
  let zzchi2 := map fst scan in
  '(zmin, sigma, chi2min, zwarn) <- local_fit zz zzchi2 ;;
  let z := last zz 0 in
  finish_row template redshifts zz zzchi2 zmin sigma chi2min zwarn
             (fit_at spectra template dwave weights flux zmin z).

(** [for imin in find_minima(zchi2)]: [results] in order of acceptance. *)
Fixpoint fitz_loop (zchi2 redshifts : list Q) (spectra : list Spectrum)
         (template : Template) (dwave : dict (list Q)) (weights flux : list Q)
         (nminima : Z) (minima : list nat) (results : list Row.t)
  : res (list Row.t) :=
  match minima with
  | [] => Ok results
  | imin :: rest =>
      if (Z.of_nat (length results) =? nminima)%Z then Ok results
      else
        zi <- py_index redshifts (Z.of_nat imin) ;;
        if too_close zi results then
          fitz_loop zchi2 redshifts spectra template dwave weights flux
                    nminima rest results
        else
          row <- refine zchi2 redshifts spectra template dwave weights flux imin ;;
          if too_close (Row.z row) results then
            fitz_loop zchi2 redshifts spectra template dwave weights flux
                      nminima rest results
          else
            fitz_loop zchi2 redshifts spectra template dwave weights flux
                      nminima rest (results ++ [row])
  end.

(** The rows accepted by [fitz], before they are sorted. *)
Definition fitz_accepted (zchi2 redshifts : list Q) (spectra : list Spectrum)
           (template : Template) (nminima : Z) : res (list Row.t) :=
  _ <- assert (length zchi2 =? length redshifts)%nat ;;
  dwave <- build_dwave spectra ;;
  '(weights, flux, wflux) <- spectral_data spectra ;;
  minima <- find_minima zchi2 ;;
  fitz_loop zchi2 redshifts spectra template dwave weights flux nminima
            minima [].

Definition fitz (zchi2 redshifts : list Q) (spectra : list Spectrum)
           (template : Template) (nminima : Z) : res (list Row.t) :=
  results <- fitz_accepted zchi2 redshifts spectra template nminima ;;
  let ii := argsort (map Row.chi2 results) in
  results <- take results ii ;;
  _ <- assert (0 <? length results)%nat ;;
  Ok results.

End Fitz.

(** ** Concrete collaborators, for evaluation *)

Definition Qsum (l : list Q) : Q := fold_right Qplus 0 l.

Definition det3 (a11 a12 a13 a21 a22 a23 a31 a32 a33 : Q) : Q :=
  a11 * (a22 * a33 - a23 * a32)
  - a12 * (a21 * a33 - a23 * a31)
  + a13 * (a21 * a32 - a22 * a31).

(** The least-squares parabola in exact arithmetic: the solution of the
    normal equations by Cramer's rule.  A singular system is reported as
    [LinAlgError], arrays of different lengths as [TypeError]. *)
Definition polyfit2_exact (x y : list Q) : res (Q * Q * Q) :=
  if negb (length x =? length y)%nat then Raise TypeError
  else
    let s0 := Qnat (length x) in
    let s1 := Qsum x in
    let s2 := Qsum (map (fun u => u ^ 2) x) in
    let s3 := Qsum (map (fun u => u ^ 3) x) in
    let s4 := Qsum (map (fun u => u ^ 4) x) in
    let t0 := Qsum y in
    let t1 := Qsum (map2 (fun u v => u * v) x y) in
    let t2 := Qsum (map2 (fun u v => u ^ 2 * v) x y) in
    let d := det3 s4 s3 s2 s3 s2 s1 s2 s1 s0 in
    if Qeq_bool d 0 then Raise LinAlgError
    else Ok (Qred (det3 t2 s3 s2 t1 s2 s1 t0 s1 s0 / d),
             Qred (det3 s4 t2 s2 s3 t1 s1 s2 t0 s0 / d),
             Qred (det3 s4 s3 t2 s3 s2 t1 s2 s1 t0 / d)).

(** A square root that is exact on squares of rationals. *)
Definition Qsqrt (q : Q) : Q :=
  let r := Qred q in
  Z.sqrt (Qnum r) # Pos.sqrt (Qden r).

Definition exact_numpy : Numpy :=
  {| polyfit2 := polyfit2_exact; np_sqrt := Qsqrt |}.

(** Two distinct bits for the flags. *)
Definition zw_bits : ZWarningMask :=
  {| BAD_MINFIT := 1024; Z_FITLIMIT := 32 |}.

(** Shared memory that holds the array itself. *)
Definition list_shm : MpSharedMem :=
  {| shared := list;
     fromarray := fun A (a : list A) => a;
     toarray := fun A (a : list A) => a |}.

(** A hash that adds up the length and the numerators of the samples, and a
    set iterated in order of first occurrence. *)
Definition toy_python : Python :=
  {| py_hash := fun n a b c d =>
       (Z.of_nat n + Qnum a + Qnum b + Qnum c + Qnum d)%Z;
     set_iter := nodup Z.eq_dec |}.

(** Sparse matrices reduced to their main diagonal. *)
Definition diag_only : ScipySparse :=
  {| spmatrix := list Q;
     diag_dia := fun v n r => map2 Qmult v (hd [] (dia_data r));
     sp_add := map2 Qplus;
     diag_sp := fun v n m => map2 Qmult v m;
     todia := fun m => {| dia_data := [map Qred m]; dia_offsets := [0%Z];
                          dia_shape := (length m, length m) |};
     tocsr := fun d => {| csr_data := hd [] (dia_data d);
                          csr_indices := map Z.of_nat (seq 0 (fst (dia_shape d)));
                          csr_indptr := map Z.of_nat (seq 0 (S (fst (dia_shape d))));
                          csr_shape := dia_shape d |} |}.

(** Two exposures on the grid [1, 2, 3], as [Spectrum_init] builds them
    with [toy_python]; the last pixel has no weight in either. *)
Definition unit_R : dia_matrix :=
  {| dia_data := [[1; 1; 1]]; dia_offsets := [0%Z]; dia_shape := (3%nat, 3%nat) |}.

Definition unit_Rcsr : csr_matrix :=
  {| csr_data := [1; 1; 1]; csr_indices := [0%Z; 1%Z; 2%Z];
     csr_indptr := [0%Z; 1%Z; 2%Z; 3%Z]; csr_shape := (3%nat, 3%nat) |}.

Definition exposure (f i : list Q) : @Spectrum list_shm :=
  {| nwave := 3; wave := Some [1; 2; 3]; flux := Some f; ivar := Some i;
     R := Some unit_R; Rcsr := Some unit_Rcsr;
     _mpshared := false; _mpshmem := None; wavehash := 11 |}.

Definition two_exposures : @Target list_shm :=
  {| id := 7;
     spectra := [exposure [2; 4; 6] [1; 1; 0]; exposure [4; 8; 0] [1; 1; 0]];
     meta := [] |}.

(** The spectra of a target with one exposure. *)
Definition one_exposure : list (@Spectrum list_shm) :=
  [exposure [2; 4; 6] [1; 1; 0]].

(** A template fit whose chi-square depends on the trial redshift alone.
    The template has one basis vector; re-binned at [z] it is a column of
    [z] on every grid, so that the fit can read the redshift back and
    return [chi2_of z] with the coefficient 1.  Nothing is absorbed
    (transmission 1), and the pixel weights are the inverse variances. *)
Definition curve_rebin (z : Q) (dwave : dict (list Q)) : dict (list (list Q)) :=
  map (fun kw : Z * list Q => (fst kw, map (fun _ => [z]) (snd kw))) dwave.

Definition curve_fit (chi2_of : Q -> Q) (binned : dict (list (list Q)))
  : res (Q * list Q) :=
  match binned with
  | (_, (z :: _) :: _) :: _ => Ok (Qred (chi2_of z), [1])
  | _ => Raise ValueError
  end.

Definition curve_data (spectra : list (@Spectrum list_shm))
  : res (list Q * list Q * list Q) :=
  let weights := concat (map (fun s => match ivar s with Some i => i | None => [] end) spectra) in
  let flux := concat (map (fun s => match flux s with Some f => f | None => [] end) spectra) in
  Ok (weights, flux, map2 Qmult weights flux).

Definition curve_zscan (chi2_of : Q -> Q) : @ZScan list_shm :=
  {| Template := unit;
     nbasis := fun _ => 1%nat;
     rebin_template := fun _ z dwave => Ok (curve_rebin z dwave);
     transmitted_flux_fraction := fun _ w => Ok (map (fun _ => 1) w);
     calc_zchi2_one := fun _ _ _ _ binned => curve_fit chi2_of binned;
     spectral_data := curve_data |}.

(** The same with a template that is valid up to redshift [zmax] only:
    re-binning beyond it raises [ValueError]. *)
Definition bounded_zscan (zmax : Q) (chi2_of : Q -> Q) : @ZScan list_shm :=
  {| Template := unit;
     nbasis := fun _ => 1%nat;
     rebin_template := fun _ z dwave =>
       if Qltb zmax z then Raise ValueError else Ok (curve_rebin z dwave);
     transmitted_flux_fraction := fun _ w => Ok (map (fun _ => 1) w);
     calc_zchi2_one := fun _ _ _ _ binned => curve_fit chi2_of binned;
     spectral_data := curve_data |}.

(** Sample chi-square curves: a parabola with its vertex at 3/2, and a
    curve with one dip at 5/4 and a shallower one at 19/4. *)
Definition steep (z : Q) : Q := (z - (3 # 2)) ^ 2 + 1.

Definition two_dips (z : Q) : Q :=
  if Qltb z 3 then (z - (5 # 4)) ^ 2 + 1 else (z - (19 # 4)) ^ 2 + 2.

(** ** Predicates used in the statements *)

(** The order in which [argsort] leaves the pairs of a value and its
    position. *)
Definition value_le (p q : Q * nat) : Prop := fst p <= fst q.

(** The qualification rule of [find_minima] at index [i] of [x]. *)
Definition local_min_b (x : list Q) (i : nat) : bool :=
  ((i =? 0)%nat || Qle_bool (nth i x 0) (nth (i - 1) x 0)) &&
  ((i =? length x - 1)%nat || Qle_bool (nth i x 0) (nth (i + 1) x 0)).

Definition is_local_min (x : list Q) (i : nat) : Prop :=
  (i < length x)%nat /\
  (i = 0%nat \/ nth i x 0 <= nth (i - 1) x 0) /\
  (i = (length x - 1)%nat \/ nth i x 0 <= nth (i + 1) x 0).

(** All samples equal. *)
Definition flat (x : list Q) : Prop :=
  forall i j, (i < length x)%nat -> (j < length x)%nat -> nth i x 0 == nth j x 0.

(** Strictly decreasing down to index [m], strictly increasing from it. *)
Definition strictly_unimodal (x : list Q) (m : nat) : Prop :=
  (m < length x)%nat /\
  (forall i, (i < m)%nat -> nth (S i) x 0 < nth i x 0) /\
  (forall i, (m <= i)%nat -> (S i < length x)%nat -> nth i x 0 < nth (S i) x 0).

(** The sum of squared residuals of [a x^2 + b x + c] over the samples. *)
Definition residual2 (a b c : Q) (x y : Q) : Q := (a * x ^ 2 + b * x + c - y) ^ 2.

Definition SSR (xs ys : list Q) (a b c : Q) : Q :=
  Qsum (map2 (residual2 a b c) xs ys).

(** [(a, b, c)] is a least-squares parabola of the samples. *)
Definition least_squares (xs ys : list Q) (a b c : Q) : Prop :=
  forall a' b' c', SSR xs ys a b c <= SSR xs ys a' b' c'.

(** The samples lie on [y = A (x - X0)^2 + Y0]. *)
Definition on_parabola (A X0 Y0 : Q) (xs ys : list Q) : Prop :=
  Forall2 (fun x y => y == A * (x - X0) ^ 2 + Y0) xs ys.

Definition three_distinct (xs : list Q) : Prop :=
  exists x1 x2 x3, In x1 xs /\ In x2 xs /\ In x3 xs /\
                   ~ x1 == x2 /\ ~ x1 == x3 /\ ~ x2 == x3.

(** Some sample lies strictly on each side of [X0]. *)
Definition brackets (xs : list Q) (X0 : Q) : Prop :=
  (exists x, In x xs /\ x < X0) /\ (exists x, In x xs /\ X0 < x).

(** The tests of the loop body of [fitz], on values already read. *)
Definition edge_of_range (redshifts : list Q) (z : Q) : bool :=
  Qltb z (nth 1 redshifts 0) || Qltb (nth (length redshifts - 2) redshifts 0) z.

Definition out_of_bracket (zz : list Q) (z : Q) : bool :=
  Qltb z (nth 0 zz 0) || Qltb (last zz 0) z.


(** The flag [b] is set in the word [w]. *)
Definition flag_set (w b : Z) : Prop := Z.land w b = b.

(** No later row is within [max_velo_diff] km/s of an earlier one, the
    earlier redshift being the reference: the test of [fitz] is false of
    every such pair. *)
Definition velocity_separated (rows : list Row.t) : Prop :=
  ForallOrdPairs
    (fun earlier later =>
       np_abs_lt (get_dv (Row.z later) (Row.z earlier)) max_velo_diff = false)
    rows.

Section TargetPredicates.
Context {SM : MpSharedMem} {PY : Python} {SP : ScipySparse}.

(** The states of a [Spectrum] object that its constructor and its two
    methods produce. *)
Inductive reachable : Spectrum -> Prop :=
| reach_init (w f i : list Q) (r : dia_matrix) (rc : csr_matrix) (s : Spectrum) :
    Spectrum_init w f i r rc = Ok s -> reachable s
| reach_pack (s s' : Spectrum) :
    reachable s -> sharedmem_pack s = Ok s' -> reachable s'
| reach_unpack (s s' : Spectrum) :
    reachable s -> sharedmem_unpack s = Ok s' -> reachable s'.

(** The fields that [sharedmem_unpack] rebuilds from the shared copy. *)
Definition unpacked_wave (m : ShMem) : list Q := toarray (shm_wave m).
Definition unpacked_flux (m : ShMem) : list Q := toarray (shm_flux m).
Definition unpacked_ivar (m : ShMem) : list Q := toarray (shm_ivar m).
Definition unpacked_R (m : ShMem) : dia_matrix :=
  {| dia_data := toarray (shm_R_data m);
     dia_offsets := shm_R_offsets m;
     dia_shape := shm_R_shape m |}.
Definition unpacked_Rcsr (m : ShMem) : csr_matrix :=
  {| csr_data := toarray (shm_Rcsr_data m);
     csr_indices := toarray (shm_Rcsr_indices m);
     csr_indptr := toarray (shm_Rcsr_indptr m);
     csr_shape := shm_Rcsr_shape m |}.

(** An unpacked object has its five fields, equal to the shared copy when
    there is one; a packed object has a shared copy. *)
Definition consistent (s : Spectrum) : Prop :=
  if _mpshared s then _mpshmem s <> None
  else
    exists w f i r rc,
      wave s = Some w /\ flux s = Some f /\ ivar s = Some i /\
      R s = Some r /\ Rcsr s = Some rc /\
      match _mpshmem s with
      | None => True
      | Some m =>
          unpacked_wave m = w /\ unpacked_flux m = f /\ unpacked_ivar m = i /\
          unpacked_R m = r /\ unpacked_Rcsr m = rc
      end.

(** The arrays of a spectrum, empty when the attribute is absent. *)
Definition flux_of (s : Spectrum) : list Q :=
  match flux s with Some f => f | None => [] end.
Definition ivar_of (s : Spectrum) : list Q :=
  match ivar s with Some i => i | None => [] end.
Definition wave_of (s : Spectrum) : list Q :=
  match wave s with Some w => w | None => [] end.

(** The spectra of one wavelength grid. *)
Definition group (sp : list Spectrum) (key : Z) : list Spectrum :=
  filter (fun s => (wavehash s =? key)%Z) sp.

(** Sums over the exposures [g] at pixel [j]. *)
Definition pixel_sum (arr : Spectrum -> list Q) (g : list Spectrum) (j : nat) : Q :=
  Qsum (map (fun s => nth j (arr s) 0) g).

Definition weighted_pixel_sum (g : list Spectrum) (j : nat) : Q :=
  Qsum (map (fun s => nth j (flux_of s) 0 * nth j (ivar_of s) 0) g).

(** An unpacked spectrum of [n] pixels, [n >= 2]. *)
Definition has_pixels (n : nat) (s : Spectrum) : Prop :=
  wave s <> None /\ flux s <> None /\ ivar s <> None /\ R s <> None /\
  length (flux_of s) = n /\ length (ivar_of s) = n /\
  (2 <= length (wave_of s))%nat.

(** [c] is the coadd of the exposures [g]: its inverse variance is the sum
    of theirs; its flux is their weighted mean, and their plain mean where
    the total weight is zero. *)
Definition is_coadd_of (g : list Spectrum) (c : Spectrum) : Prop :=
  wave c = Some (wave_of (hd c g)) /\
  exists fl ivs,
    flux c = Some fl /\ ivar c = Some ivs /\
    length fl = length ivs /\
    (forall s, In s g -> length (ivar_of s) = length ivs) /\
    forall j, (j < length ivs)%nat ->
      nth j ivs 0 == pixel_sum ivar_of g j /\
      (pixel_sum ivar_of g j == 0 ->
       nth j fl 0 == pixel_sum flux_of g j / Qnat (length g)) /\
      (~ pixel_sum ivar_of g j == 0 ->
       nth j fl 0 == weighted_pixel_sum g j / pixel_sum ivar_of g j).

(** The accumulators hold the sums over the exposures [g] seen so far. *)
Definition sums_of (n : nat) (g : list Spectrum) (a : CoaddAcc) : Prop :=
  length (acc_unweightedflux a) = n /\
  length (acc_weightedflux a) = n /\
  length (acc_weights a) = n /\
  acc_n a = n /\
  forall j, (j < n)%nat ->
    nth j (acc_weights a) 0 == pixel_sum ivar_of g j /\
    nth j (acc_unweightedflux a) 0 == pixel_sum flux_of g j /\
    nth j (acc_weightedflux a) 0 == weighted_pixel_sum g j.

End TargetPredicates.

(** ** targets.py: the methods of [Target] that pack its spectra *)

Section TargetPacking.
Context {SM : MpSharedMem}.

(** [Target.sharedmem_pack] and [Target.sharedmem_unpack]: the method of
    every spectrum in turn.  The objects are changed in place; the value
    returned here is the target afterwards, and what a raising call leaves
    half done is not kept. *)
Definition Target_sharedmem_pack (t : Target) : res Target :=
  sp <- mapM sharedmem_pack (spectra t) ;;
  Ok {| id := id t; spectra := sp; meta := meta t |}.

Definition Target_sharedmem_unpack (t : Target) : res Target :=
  sp <- mapM sharedmem_unpack (spectra t) ;;
  Ok {| id := id t; spectra := sp; meta := meta t |}.

End TargetPacking.

(** ** targets.py: [DistTargets], [distribute_targets], [DistTargetsCopy] *)

(** What the code uses of an mpi4py communicator: [bcast c x root] is the
    object that the process [root] passed, [allgather c x] the objects of
    all the processes in rank order. *)
Class MPI : Type := {
  Comm : Type;
  comm_size : Comm -> Z;
  comm_rank : Comm -> Z;
  bcast : forall {A : Type}, Comm -> A -> Z -> A;
  allgather : forall {A : Type}, Comm -> A -> list A
}.

(** [redrock.utils.distribute_work(nproc, ids, weights=...)]. *)
Class Utils : Type := {
  distribute_work : Z -> list Z -> dict nat -> res (list (list Z))
}.

(** [if k not in d: d[k] = v] *)
Definition dict_setdefault {V : Type} (d : dict V) (k : Z) (v : V) : dict V :=
  if negb (dict_mem d k) then dict_set d k v else d.

(** [sorted] on a list of integers. *)
Fixpoint insert_sorted (k : Z) (l : list Z) : list Z :=
  match l with
  | [] => [k]
  | h :: l' => if (k <=? h)%Z then k :: h :: l' else h :: insert_sorted k l'
  end.

Definition sorted (l : list Z) : list Z := fold_right insert_sorted [] l.

Section Dist.
Context {SM : MpSharedMem} {MP : MPI} {UT : Utils}.

(** The attributes that the base class [DistTargets] sets. *)
Record DistTargets : Type := {
  _comm : option Comm;
  _targetids : list Z;
  _dwave : option (dict (list Q))
}.

(** The dictionary [my_dwave] of [wavegrids]: the wavelength grid of the
    first local spectrum with each hash. *)
Definition local_dwave (local : list Target) : res (dict (list Q)) :=
  foldM (fun (my_dwave : dict (list Q)) (t : Target) =>
           foldM (fun (my_dwave : dict (list Q)) (s : Spectrum) =>
                    if negb (dict_mem my_dwave (wavehash s))
                    then w <- getattr (wave s) ;;
                         Ok (dict_set my_dwave (wavehash s) w)
                    else Ok my_dwave) (spectra t) my_dwave)
        local [].

(** The merge of the gathered dictionaries, in rank order. *)
Definition merge_dwave (temp : list (dict (list Q))) : dict (list Q) :=
  fold_left (fun (dwave : dict (list Q)) (pdata : dict (list Q)) =>
               fold_left (fun (dwave : dict (list Q)) (kv : Z * list Q) =>
                            dict_setdefault dwave (fst kv) (snd kv))
                         pdata dwave)
            temp [].

(** [DistTargets.wavegrids].  [local] is the outcome of [self.local()],
    the method of the subclass; it is called only when nothing is cached.
    The result is the dictionary and the object with its cache filled. *)
Definition DistTargets_wavegrids (self : DistTargets) (local : res (list Target))
  : res (dict (list Q) * DistTargets) :=
  match _dwave self with
  | Some dwave => Ok (dwave, self)
  | None =>
      targets <- local ;;
      my_dwave <- local_dwave targets ;;
      let dwave :=
        match _comm self with
        | None => my_dwave
        | Some comm => merge_dwave (allgather comm my_dwave)
        end in
      Ok (dwave, {| _comm := _comm self; _targetids := _targetids self;
                    _dwave := Some dwave |})
  end.

(** [distribute_targets]: every target weighs its number of spectra. *)
Definition distribute_targets (targets : list Target) (nproc : Z)
  : res (list (list Z)) :=
  let ids := map id targets in
  let tweights :=
    fold_left (fun (tweights : dict nat) (tg : Target) =>
                 dict_set tweights (id tg) (length (spectra tg)))
              targets [] in
  distribute_work nproc ids tweights.

(** The attributes of a [DistTargetsCopy]. *)
Record DistTargetsCopy : Type := {
  base : DistTargets;
  _alltargetids : list Z;
  _proc_targets : list (list Z);
  _my_targets : list Z;
  _my_data : list Target
}.

(** The table [tbuf] of [DistTargetsCopy.__init__]: the broadcast targets
    whose id is assigned to this process. *)
Definition received_targets (comm : Comm) (root : Z) (my_targets : list Z)
           (targets : list Target) : dict Target :=
  fold_left (fun (tbuf : dict Target) (tg : Target) =>
               let recv := bcast comm tg root in
               if existsb (Z.eqb (id recv)) my_targets
               then dict_set tbuf (id recv) recv
               else tbuf)
            targets [].

(** [DistTargetsCopy.__init__] *)
Definition DistTargetsCopy_init (targets : list Target) (comm : option Comm)
           (root : Z) : res DistTargetsCopy :=
  let comm_size := match comm with Some c => comm_size c | None => 1%Z end in
  let comm_rank := match comm with Some c => comm_rank c | None => 0%Z end in
  let alltargetids :=
    if (comm_rank =? root)%Z then sorted (map id targets) else [] in
  let alltargetids :=
    match comm with
    | Some c => bcast c alltargetids root
    | None => alltargetids
    end in
  proc_targets <- distribute_targets targets comm_size ;;
  my_targets <- py_index proc_targets comm_rank ;;
  my_data <-
    match comm with
    | None => Ok targets
    | Some c =>
        let tbuf := received_targets c root my_targets targets in
        mapM (dict_get tbuf) my_targets
    end ;;
  Ok {| base := {| _comm := comm; _targetids := alltargetids; _dwave := None |};
        _alltargetids := alltargetids;
        _proc_targets := proc_targets;
        _my_targets := my_targets;
        _my_data := my_data |}.

(** [local_target_ids], [local] and [wavegrids] of a [DistTargetsCopy]. *)
Definition local_target_ids (self : DistTargetsCopy) : list Z := _my_targets self.

Definition local (self : DistTargetsCopy) : list Target := _my_data self.

Definition wavegrids (self : DistTargetsCopy)
  : res (dict (list Q) * DistTargetsCopy) :=
  '(dwave, b) <- DistTargets_wavegrids (base self) (Ok (local self)) ;;
  Ok (dwave, {| base := b; _alltargetids := _alltargetids self;
                _proc_targets := _proc_targets self;
                _my_targets := _my_targets self;
                _my_data := _my_data self |}).

End Dist.

(** Sample collaborators: a communicator of two processes seen from rank
    0, the root, whose peer holds the same data; and a distribution that
    gives every id to the first process. *)
Definition two_ranks : MPI :=
  {| Comm := unit;
     comm_size := fun _ => 2%Z;
     comm_rank := fun _ => 0%Z;
     bcast := fun A _ (x : A) _ => x;
     allgather := fun A _ (x : A) => [x; x] |}.

Definition all_to_first : Utils :=
  {| distribute_work := fun nproc ids _ =>
       Ok (ids :: repeat [] (Z.to_nat nproc - 1)) |}.

Definition the_comm : @Comm two_ranks := tt.

Definition fresh_registry (comm : option (@Comm two_ranks)) : @DistTargets two_ranks :=
  {| _comm := comm; _targetids := [7%Z]; _dwave := None |}.

(** The five fields that packing removes and unpacking rebuilds are the
    same in [s] and [s2]. *)
Definition same_arrays {SM : MpSharedMem} (s s2 : Spectrum) : Prop :=
  wave s2 = wave s /\ flux s2 = flux s /\ ivar s2 = ivar s /\
  R s2 = R s /\ Rcsr s2 = Rcsr s.

(** Two exposures on one grid, the second with an inverse variance of two
    values for its three pixels; the constructor accepts both. *)
Definition mismatched_exposures : @Target list_shm :=
  {| id := 8;
     spectra := [exposure [2; 4; 6] [1; 1; 0]; exposure [4; 8; 0] [1; 1]];
     meta := [] |}.

(** [two_exposures] after [Target.sharedmem_pack]. *)
Definition packed_two_exposures : @Target list_shm :=
  Eval vm_compute in
    match @Target_sharedmem_pack list_shm two_exposures with
    | Ok t => t
    | Raise _ => two_exposures
    end.

(** [two_exposures] after [Target.compute_coadd]. *)
Definition coadded_two_exposures : @Target list_shm :=
  Eval vm_compute in
    match @compute_coadd list_shm toy_python diag_only two_exposures with
    | Ok t => t
    | Raise _ => two_exposures
    end.

(** * Theorems *)

(** ** Lists and the error monad *)

Lemma nth_error_map2 {A B C : Type} (f : A -> B -> C) (a : list A) (b : list B) (i : nat) :
  nth_error (map2 f a b) i =
  match nth_error a i, nth_error b i with
  | Some u, Some v => Some (f u v)
  | _, _ => None
  end.
Proof.
  revert b i. induction a as [|u a IH]; intros [|v b] [|i]; simpl; auto.
  destruct (nth_error a i); reflexivity.
Qed.

Lemma length_map2 {A B C : Type} (f : A -> B -> C) (a : list A) (b : list B) :
  length (map2 f a b) = Nat.min (length a) (length b).
Proof.
  revert b. induction a as [|u a IH]; intros [|v b]; simpl; auto.
Qed.

Lemma nth_error_tl {A : Type} (x : list A) (i : nat) :
  nth_error (tl x) i = nth_error x (S i).
Proof. destruct x; simpl; auto. destruct i; reflexivity. Qed.

Lemma length_removelast {A : Type} (x : list A) :
  length (removelast x) = (length x - 1)%nat.
Proof.
  induction x as [|a [|b x] IH]; simpl in *; auto. rewrite IH. lia.
Qed.

Lemma nth_error_removelast {A : Type} (x : list A) (i : nat) :
  (i < length x - 1)%nat -> nth_error (removelast x) i = nth_error x i.
Proof.
  revert i. induction x as [|a [|b x] IH]; intros i Hi; simpl in *; try lia.
  destruct i; simpl; auto. apply IH. simpl. lia.
Qed.

Lemma py_index_nat {A : Type} (a : list A) (i : nat) (d : A) :
  (i < length a)%nat -> py_index a (Z.of_nat i) = Ok (nth i a d).
Proof.
  intros Hi. unfold py_index.
  destruct (Z.ltb_spec (Z.of_nat i) 0); [lia|].
  destruct (Z.leb_spec 0 (Z.of_nat i)); [|lia].
  destruct (Z.ltb_spec (Z.of_nat i) (Z.of_nat (length a))); [|lia].
  simpl. rewrite Nat2Z.id.
  rewrite (nth_error_nth' a d Hi). reflexivity.
Qed.

Lemma py_index_nat_out {A : Type} (a : list A) (i : nat) :
  (length a <= i)%nat -> py_index a (Z.of_nat i) = Raise IndexError.
Proof.
  intros Hi. unfold py_index.
  destruct (Z.ltb_spec (Z.of_nat i) 0); [lia|].
  destruct (Z.ltb_spec (Z.of_nat i) (Z.of_nat (length a))); [lia|].
  rewrite andb_false_r. reflexivity.
Qed.

Lemma take_in_range {A : Type} (a : list A) (ii : list nat) (d : A) :
  Forall (fun i => (i < length a)%nat) ii ->
  take a ii = Ok (map (fun i => nth i a d) ii).
Proof.
  unfold take. induction 1 as [|i ii Hi _ IH]; simpl; auto.
  rewrite (py_index_nat a i d Hi). simpl. rewrite IH. reflexivity.
Qed.

Lemma mapM_length {A B : Type} (f : A -> res B) (l : list A) (r : list B) :
  mapM f l = Ok r -> length r = length l.
Proof.
  revert r. induction l as [|a l IH]; simpl; intros r H.
  - inversion H. reflexivity.
  - destruct (f a); simpl in H; [|discriminate].
    destruct (mapM f l); simpl in H; [|discriminate].
    inversion H. simpl. f_equal. apply IH. reflexivity.
Qed.

Lemma mapM_total {A B : Type} (f : A -> res B) (l : list A) :
  Forall (fun a => exists b, f a = Ok b) l -> exists r, mapM f l = Ok r.
Proof.
  induction 1 as [|a l [b Hb] _ [r Hr]]; simpl.
  - now exists [].
  - rewrite Hb, Hr. simpl. now exists (b :: r).
Qed.

(** ** [np.where] *)

Lemma where_from_In (mask : list bool) (k i : nat) :
  In i (where_from k mask) <->
  (k <= i)%nat /\ nth_error mask (i - k) = Some true.
Proof.
  revert k. induction mask as [|b m IH]; intros k; simpl.
  - split; [tauto|]. intros [_ H]. destruct (i - k)%nat; discriminate.
  - assert (Hstep : In i (where_from (S k) m) <->
                    (k < i)%nat /\ nth_error (b :: m) (i - k) = Some true).
    { rewrite IH. split; intros [H1 H2]; (split; [lia|]).
      - replace (i - k)%nat with (S (i - S k)) by lia. exact H2.
      - replace (i - k)%nat with (S (i - S k)) in H2 by lia. exact H2. }
    destruct b; simpl; rewrite Hstep.
    + split.
      * intros [->|[H1 H2]]; [|split; [lia|exact H2]].
        split; [lia|]. now rewrite Nat.sub_diag.
      * intros [H1 H2]. destruct (Nat.eq_dec k i) as [->|Hne]; [now left|].
        right. split; [lia|exact H2].
    + split.
      * intros [H1 H2]. split; [lia|exact H2].
      * intros [H1 H2]. destruct (Nat.eq_dec k i) as [->|Hne].
        -- rewrite Nat.sub_diag in H2. discriminate.
        -- split; [lia|exact H2].
Qed.

Lemma where_from_sorted (mask : list bool) (k : nat) :
  StronglySorted lt (where_from k mask).
Proof.
  revert k. induction mask as [|b m IH]; intros k; simpl; [constructor|].
  destruct b; [|apply IH].
  constructor; [apply IH|].
  apply Forall_forall. intros i Hi. apply where_from_In in Hi. lia.
Qed.

Lemma np_where_In (mask : list bool) (i : nat) :
  In i (np_where mask) <-> nth_error mask i = Some true.
Proof.
  unfold np_where. rewrite where_from_In, Nat.sub_0_r.
  split; [tauto|]. intros H. split; [lia|exact H].
Qed.

Lemma np_where_NoDup (mask : list bool) : NoDup (np_where mask).
Proof.
  unfold np_where. generalize (where_from_sorted mask 0).
  induction 1 as [|i l _ IH Hall]; constructor; auto.
  intros Hin. rewrite Forall_forall in Hall. specialize (Hall _ Hin). lia.
Qed.

(** ** [np.argsort] *)

Lemma insert_by_value_perm (p : Q * nat) (l : list (Q * nat)) :
  Permutation (p :: l) (insert_by_value p l).
Proof.
  induction l as [|q l IH]; simpl; auto.
  destruct (Qle_bool (fst p) (fst q)); auto.
  rewrite perm_swap. now constructor.
Qed.

Lemma sort_by_value_perm (l : list (Q * nat)) :
  Permutation l (sort_by_value l).
Proof.
  induction l as [|p l IH]; simpl; auto.
  rewrite <- insert_by_value_perm. now constructor.
Qed.

Lemma insert_by_value_sorted (p : Q * nat) (l : list (Q * nat)) :
  StronglySorted value_le l -> StronglySorted value_le (insert_by_value p l).
Proof.
  induction 1 as [|q l Hs IH Hall]; simpl.
  - repeat constructor.
  - destruct (Qle_bool (fst p) (fst q)) eqn:E.
    + apply Qle_bool_iff in E.
      constructor; [now constructor|].
      constructor; [exact E|].
      eapply Forall_impl; [|exact Hall].
      intros r Hr. unfold value_le in *. lra.
    + assert (Hqp : fst q <= fst p).
      { destruct (Qlt_le_dec (fst p) (fst q)) as [H|H]; [|exact H].
        apply Qlt_le_weak, Qle_bool_iff in H. congruence. }
      constructor; [exact IH|].
      rewrite <- insert_by_value_perm. constructor; assumption.
Qed.

Lemma sort_by_value_sorted (l : list (Q * nat)) :
  StronglySorted value_le (sort_by_value l).
Proof.
  induction l as [|p l IH]; simpl; [constructor|].
  now apply insert_by_value_sorted.
Qed.

Lemma map_snd_combine_seq (v : list Q) (k : nat) :
  map snd (combine v (seq k (length v))) = seq k (length v).
Proof.
  revert k. induction v as [|a v IH]; intros k; simpl; auto.
  now rewrite IH.
Qed.

Lemma argsort_perm (v : list Q) :
  Permutation (argsort v) (seq 0 (length v)).
Proof.
  unfold argsort. rewrite <- (map_snd_combine_seq v 0) at 2.
  apply Permutation_map, Permutation_sym, sort_by_value_perm.
Qed.

Lemma combine_seq_In (v : list Q) (k : nat) (p : Q * nat) :
  In p (combine v (seq k (length v))) ->
  (k <= snd p < k + length v)%nat /\ fst p = nth (snd p - k) v 0.
Proof.
  revert k. induction v as [|a v IH]; intros k; simpl; [tauto|].
  intros [<-|H].
  - simpl. rewrite Nat.sub_diag. split; [lia|reflexivity].
  - apply IH in H. destruct H as [H1 H2]. split; [lia|].
    rewrite H2. replace (snd p - k)%nat with (S (snd p - S k)) by lia.
    reflexivity.
Qed.

(** The values read through [argsort v] are in non-decreasing order. *)
Lemma argsort_sorted (v : list Q) :
  StronglySorted (fun i j => nth i v 0 <= nth j v 0) (argsort v).
Proof.
  unfold argsort.
  assert (Hin : forall p, In p (sort_by_value (combine v (seq 0 (length v)))) ->
                          fst p = nth (snd p) v 0).
  { intros p Hp.
    apply (Permutation_in _ (Permutation_sym (sort_by_value_perm _))) in Hp.
    apply combine_seq_In in Hp. rewrite Nat.sub_0_r in Hp. tauto. }
  generalize (sort_by_value_sorted (combine v (seq 0 (length v)))).
  revert Hin. generalize (sort_by_value (combine v (seq 0 (length v)))).
  intros l Hin Hs. induction Hs as [|p l Hs IH Hall]; simpl; constructor.
  - apply IH. intros q Hq. apply Hin. now right.
  - rewrite Forall_forall in *. intros j Hj.
    apply in_map_iff in Hj. destruct Hj as [q [<- Hq]].
    specialize (Hall q Hq). unfold value_le in Hall.
    rewrite <- (Hin p (or_introl eq_refl)), <- (Hin q (or_intror Hq)).
    exact Hall.
Qed.

(** ** [find_minima] *)

Lemma map_nth_seq {A : Type} (l : list A) (d : A) :
  map (fun j => nth j l d) (seq 0 (length l)) = l.
Proof.
  induction l as [|a l IH]; simpl; auto.
  f_equal. rewrite <- seq_shift, map_map. exact IH.
Qed.

Lemma StronglySorted_map_in {A B : Type} (R : B -> B -> Prop) (S : A -> A -> Prop)
      (f : A -> B) (l : list A) :
  (forall a b, In a l -> In b l -> S a b -> R (f a) (f b)) ->
  StronglySorted S l -> StronglySorted R (map f l).
Proof.
  intros H Hs. induction Hs as [|a l Hs IH Hall]; simpl; constructor.
  - apply IH. intros u v Hu Hv. apply H; now right.
  - rewrite Forall_forall in *. intros y Hy.
    apply in_map_iff in Hy. destruct Hy as [b [<- Hb]].
    apply H; [now left|now right|now apply Hall].
Qed.

Lemma nth_error_nth_lt (x : list Q) (i : nat) :
  (i < length x)%nat -> nth_error x i = Some (nth i x 0).
Proof. intros H. now apply nth_error_nth'. Qed.

Lemma minima_mask_length (x : list Q) :
  x <> [] ->
  length (map2 andb (not_above_left x) (not_above_right x)) = length x.
Proof.
  intros Hx. unfold not_above_left, not_above_right.
  rewrite length_map2. cbn [length]. rewrite length_app, !length_map2.
  rewrite length_removelast. destruct x as [|a x]; [congruence|].
  cbn [tl length]. lia.
Qed.

Lemma minima_mask_nth (x : list Q) (i : nat) :
  (i < length x)%nat ->
  nth_error (map2 andb (not_above_left x) (not_above_right x)) i =
  Some (local_min_b x i).
Proof.
  intros Hi. rewrite nth_error_map2. unfold local_min_b.
  assert (HL : nth_error (not_above_left x) i =
               Some ((i =? 0)%nat || Qle_bool (nth i x 0) (nth (i - 1) x 0))).
  { unfold not_above_left. destruct i as [|j]; [reflexivity|].
    simpl nth_error. rewrite nth_error_map2, nth_error_tl.
    rewrite nth_error_removelast by lia.
    rewrite !nth_error_nth_lt by lia.
    simpl. now rewrite Nat.sub_0_r. }
  assert (HR : nth_error (not_above_right x) i =
               Some ((i =? length x - 1)%nat
                     || Qle_bool (nth i x 0) (nth (i + 1) x 0))).
  { unfold not_above_right.
    assert (Hlen : length (map2 Qle_bool (removelast x) (tl x))
                   = (length x - 1)%nat).
    { rewrite length_map2, length_removelast.
      destruct x; simpl; lia. }
    destruct (Nat.eqb_spec i (length x - 1)) as [E|E].
    - rewrite nth_error_app2 by lia. rewrite Hlen, E, Nat.sub_diag.
      reflexivity.
    - rewrite nth_error_app1 by lia.
      rewrite nth_error_map2, nth_error_tl.
      rewrite nth_error_removelast by lia.
      rewrite !nth_error_nth_lt by lia.
      simpl. now rewrite Nat.add_1_r. }
  rewrite HL, HR. reflexivity.
Qed.

Lemma local_min_b_iff (x : list Q) (i : nat) :
  (i < length x)%nat -> (local_min_b x i = true <-> is_local_min x i).
Proof.
  intros Hi. unfold local_min_b, is_local_min.
  rewrite andb_true_iff, !orb_true_iff, !Nat.eqb_eq, !Qle_bool_iff.
  tauto.
Qed.

(** The indices that [find_minima] selects before sorting them. *)
Lemma minima_where_In (x : list Q) (i : nat) :
  x <> [] ->
  (In i (np_where (map2 andb (not_above_left x) (not_above_right x)))
   <-> is_local_min x i).
Proof.
  intros Hx. rewrite np_where_In. split.
  - intros H.
    assert (Hi : (i < length x)%nat).
    { rewrite <- (minima_mask_length x Hx). apply nth_error_Some. congruence. }
    rewrite minima_mask_nth in H by exact Hi.
    apply local_min_b_iff; congruence.
  - intros H. pose proof H as [Hi _].
    rewrite minima_mask_nth by exact Hi.
    f_equal. now apply local_min_b_iff.
Qed.

(** [find_minima] in closed form: the qualifying indices, reordered by
    [argsort] of their values. *)
Lemma find_minima_eq (x : list Q) :
  x <> [] ->
  let ii := np_where (map2 andb (not_above_left x) (not_above_right x)) in
  find_minima x =
  Ok (map (fun j => nth j ii 0%nat) (argsort (map (fun i => nth i x 0) ii))).
Proof.
  intros Hx ii. unfold find_minima. fold ii.
  assert (Hii : Forall (fun i => (i < length x)%nat) ii).
  { apply Forall_forall. intros i Hi.
    apply (minima_where_In x i Hx) in Hi. apply Hi. }
  rewrite (take_in_range x ii 0 Hii). simpl.
  apply take_in_range. apply Forall_forall. intros j Hj.
  apply (Permutation_in _ (argsort_perm _)) in Hj.
  apply in_seq in Hj. rewrite length_map in Hj. lia.
Qed.

Lemma find_minima_perm (x : list Q) (l : list nat) :
  x <> [] -> find_minima x = Ok l ->
  Permutation l (np_where (map2 andb (not_above_left x) (not_above_right x))).
Proof.
  intros Hx H. rewrite (find_minima_eq x Hx) in H. inversion H as [Hl].
  set (ii := np_where _).
  rewrite <- (map_nth_seq ii 0%nat) at 2.
  apply Permutation_map.
  rewrite <- (length_map (fun i => nth i x 0) ii). apply argsort_perm.
Qed.

Lemma find_minima_In (x : list Q) (l : list nat) (i : nat) :
  x <> [] -> find_minima x = Ok l -> (In i l <-> is_local_min x i).
Proof.
  intros Hx H. rewrite <- (minima_where_In x i Hx).
  pose proof (find_minima_perm x l Hx H) as P.
  split; intros Hin.
  - exact (Permutation_in _ P Hin).
  - exact (Permutation_in _ (Permutation_sym P) Hin).
Qed.

Lemma find_minima_NoDup (x : list Q) (l : list nat) :
  x <> [] -> find_minima x = Ok l -> NoDup l.
Proof.
  intros Hx H.
  apply (Permutation_NoDup (Permutation_sym (find_minima_perm x l Hx H))).
  apply np_where_NoDup.
Qed.

Lemma find_minima_by_value (x : list Q) (l : list nat) :
  x <> [] -> find_minima x = Ok l ->
  StronglySorted (fun i j => nth i x 0 <= nth j x 0) l.
Proof.
  intros Hx H. rewrite (find_minima_eq x Hx) in H. inversion H as [Hl].
  set (ii := np_where _).
  apply StronglySorted_map_in
    with (S := fun a b => nth a (map (fun i => nth i x 0) ii) 0
                          <= nth b (map (fun i => nth i x 0) ii) 0).
  - intros a b Ha Hb Hab.
    assert (Hlt : forall c, In c (argsort (map (fun i => nth i x 0) ii)) ->
                            (c < length ii)%nat).
    { intros c Hc. apply (Permutation_in _ (argsort_perm _)) in Hc.
      apply in_seq in Hc. rewrite length_map in Hc. lia. }
    assert (Hnth : forall c, (c < length ii)%nat ->
               nth c (map (fun i => nth i x 0) ii) 0 = nth (nth c ii 0%nat) x 0).
    { intros c Hc.
      rewrite (nth_indep _ 0 (nth 0%nat x 0)) by (now rewrite length_map).
      apply (map_nth (fun i => nth i x 0)). }
    rewrite <- !Hnth by auto. exact Hab.
  - apply argsort_sorted.
Qed.

Lemma flat_local_min (x : list Q) (i : nat) :
  flat x -> (i < length x)%nat -> is_local_min x i.
Proof.
  intros Hf Hi. unfold is_local_min. split; [exact Hi|]. split.
  - destruct i as [|j]; [now left|right].
    rewrite (Hf (S j) (S j - 1)%nat) by lia. apply Qle_refl.
  - destruct (Nat.eq_dec i (length x - 1)) as [E|E]; [now left|right].
    rewrite (Hf i (i + 1)%nat) by lia. apply Qle_refl.
Qed.

Lemma unimodal_local_min (x : list Q) (m i : nat) :
  strictly_unimodal x m -> (is_local_min x i <-> i = m).
Proof.
  intros (Hm & Hdec & Hinc). split.
  - intros (Hi & Hl & Hr).
    destruct (Nat.lt_trichotomy i m) as [Hlt|[Heq|Hgt]]; [|exact Heq|].
    + exfalso. destruct Hr as [Hr|Hr]; [lia|].
      specialize (Hdec i Hlt). rewrite Nat.add_1_r in Hr. lra.
    + exfalso. destruct Hl as [Hl|Hl]; [lia|].
      specialize (Hinc (i - 1)%nat). replace (S (i - 1)) with i in Hinc by lia.
      specialize (Hinc ltac:(lia) Hi). lra.
  - intros ->. split; [exact Hm|]. split.
    + destruct m as [|j]; [now left|right].
      specialize (Hdec j ltac:(lia)).
      replace (S j - 1)%nat with j by lia. lra.
    + destruct (Nat.eq_dec m (length x - 1)) as [E|E]; [now left|right].
      specialize (Hinc m ltac:(lia) ltac:(lia)).
      rewrite Nat.add_1_r. lra.
Qed.

Lemma NoDup_singleton (l : list nat) (m : nat) :
  NoDup l -> (forall i, In i l <-> i = m) -> l = [m].
Proof.
  intros Hnd H. destruct l as [|a l].
  - exfalso. apply (proj2 (H m) eq_refl).
  - assert (a = m) by (apply H; now left). subst a.
    destruct l as [|b l]; [reflexivity|].
    assert (b = m) by (apply H; right; now left). subst b.
    inversion Hnd as [|? ? Hnot _]. exfalso. apply Hnot. now left.
Qed.

(** C3, as the code has it.  For a non-empty array, [find_minima] returns,
    each exactly once, the indices [i] with ([i = 0] or [x[i] <= x[i-1]])
    and ([i = last] or [x[i] <= x[i+1]]), ordered by ascending value of [x]
    (not by index); index 0 and the last index are returned only when they
    satisfy the rule, a flat array yields both of them, and a strictly
    unimodal array yields exactly the index of its minimum. *)
Theorem find_minima_spec (x : list Q) :
  x <> [] ->
  exists l,
    find_minima x = Ok l /\
    NoDup l /\
    (forall i, In i l <-> is_local_min x i) /\
    StronglySorted (fun i j => nth i x 0 <= nth j x 0) l /\
    (In 0%nat l <-> (length x = 1%nat \/ nth 0 x 0 <= nth 1 x 0)) /\
    (In (length x - 1)%nat l <->
     (length x = 1%nat \/ nth (length x - 1) x 0 <= nth (length x - 2) x 0)) /\
    (flat x -> In 0%nat l /\ In (length x - 1)%nat l) /\
    (forall m, strictly_unimodal x m -> l = [m]).
Proof.
  intros Hx.
  assert (Hlen : (0 < length x)%nat) by (destruct x; [congruence|simpl; lia]).
  destruct (find_minima x) as [l|e] eqn:E;
    [|rewrite (find_minima_eq x Hx) in E; discriminate].
  exists l. split; [reflexivity|].
  pose proof (find_minima_In x l) as HIn.
  split; [now apply find_minima_NoDup with x|].
  split; [intros i; now apply HIn|].
  split; [now apply find_minima_by_value|].
  split; [|split; [|split]].
  - rewrite (HIn 0%nat Hx E). unfold is_local_min. simpl.
    split.
    + intros (_ & _ & [H|H]); [left; lia|now right].
    + intros [H|H]; (split; [lia|]); (split; [now left|]);
        [left; lia|now right].
  - rewrite (HIn _ Hx E). unfold is_local_min.
    replace (length x - 1 - 1)%nat with (length x - 2)%nat by lia.
    split.
    + intros (_ & [H|H] & _); [left; lia|now right].
    + intros [H|H]; (split; [lia|]); (split; [|now left]);
        [left; lia|now right].
  - intros Hf. split; apply (HIn _ Hx E); apply flat_local_min; auto; lia.
  - intros m Hm. apply NoDup_singleton; [now apply find_minima_NoDup with x|].
    intros i. rewrite (HIn i Hx E). now apply unimodal_local_min.
Qed.

(** A strictly unimodal array, through the theorem. *)
Lemma find_minima_spec_witness :
  exists l, find_minima [3; 1; 2] = Ok l /\ l = [1%nat].
Proof.
  destruct (find_minima_spec [3; 1; 2]) as (l & E & _ & _ & _ & _ & _ & _ & U);
    [discriminate|].
  exists l. split; [exact E|]. apply U.
  split; [simpl; lia|]. split.
  - intros [|[|i]] Hi; simpl; try lia. reflexivity.
  - intros [|[|[|i]]] H1 H2; simpl in *; try lia. reflexivity.
Defined.

(** C3 as stated fails: on [[4; 2; 5; 1; 3]] the result is [[3; 1]], which
    holds neither index 0 nor the last index 4, and is not ascending. *)
Lemma find_minima_edges_order_counterexample :
  find_minima [4; 2; 5; 1; 3] = Ok [3%nat; 1%nat] /\
  ~ In 0%nat [3%nat; 1%nat] /\
  ~ In 4%nat [3%nat; 1%nat] /\
  ~ StronglySorted lt [3%nat; 1%nat].
Proof.
  split; [reflexivity|].
  split; [simpl; intuition discriminate|].
  split; [simpl; intuition discriminate|].
  intros H. inversion H as [|? ? _ Hall]. inversion Hall. lia.
Qed.

(** The example of the docstring. *)
Lemma find_minima_docstring :
  find_minima [1; 1; 1; 2; 2; 2] = Ok [0; 1; 2; 4; 5]%nat.
Proof. reflexivity. Qed.

Lemma find_minima_empty : find_minima [] = Raise IndexError.
Proof. reflexivity. Qed.

(** ** [minfit] *)

Lemma Qltb_true (x y : Q) : Qltb x y = true <-> x < y.
Proof.
  unfold Qltb. rewrite negb_true_iff. split.
  - intros H. apply Qnot_le_lt. intros Hle. apply Qle_bool_iff in Hle. congruence.
  - intros H. destruct (Qle_bool y x) eqn:E; [|reflexivity].
    apply Qle_bool_iff in E. lra.
Qed.

Lemma Qltb_false (x y : Q) : Qltb x y = false <-> y <= x.
Proof.
  unfold Qltb. rewrite negb_false_iff. apply Qle_bool_iff.
Qed.

Lemma Qle_bool_false (x y : Q) : Qle_bool x y = false <-> y < x.
Proof.
  rewrite <- Qltb_true. unfold Qltb. now rewrite negb_true_iff.
Qed.

Lemma Qeq_bool_false (x y : Q) : Qeq_bool x y = false <-> ~ x == y.
Proof.
  split.
  - intros H E. apply Qeq_bool_iff in E. congruence.
  - intros H. destruct (Qeq_bool x y) eqn:E; [|reflexivity].
    apply Qeq_bool_iff in E. contradiction.
Qed.

(** C6.  [minfit] returns the sentinel [(-1, -1, -1)] with the flag
    [BAD_MINFIT], and does not raise, when fewer than 3 points are given,
    when [polyfit] fails with [LinAlgError], and when the fitted quadratic
    coefficient is exactly zero. *)
Theorem minfit_degenerate {NP : Numpy} {ZW : ZWarningMask} (x y : list Q) :
  (length x < 3)%nat \/
  polyfit2 x y = Raise LinAlgError \/
  (exists a b c, polyfit2 x y = Ok (a, b, c) /\ a == 0) ->
  minfit x y = Ok (-(1), -(1), -(1), BAD_MINFIT).
Proof.
  intros H. unfold minfit.
  destruct (Nat.ltb_spec (length x) 3) as [Hlt|Hge]; [reflexivity|].
  destruct H as [H|[H|(a & b & c & H & Ha)]].
  - lia.
  - now rewrite H.
  - rewrite H. apply Qeq_bool_iff in Ha. now rewrite Ha.
Qed.

(** Three collinear points, fitted in exact arithmetic. *)
Lemma minfit_degenerate_witness :
  @minfit exact_numpy zw_bits [1; 2; 3] [1; 2; 3] = Ok (-(1), -(1), -(1), 1024%Z).
Proof.
  apply (@minfit_degenerate exact_numpy zw_bits [1; 2; 3] [1; 2; 3]).
  right. right. exists 0, 1, 0. split; reflexivity.
Defined.

Lemma minfit_two_points {NP : Numpy} {ZW : ZWarningMask} (x1 x2 y1 y2 : Q) :
  minfit [x1; x2] [y1; y2] = Ok (-(1), -(1), -(1), BAD_MINFIT).
Proof. reflexivity. Qed.

Lemma Qsum_nonneg (l : list Q) : Forall (fun v => 0 <= v) l -> 0 <= Qsum l.
Proof.
  induction 1 as [|v l Hv _ IH]; simpl; lra.
Qed.

Lemma residual2_nonneg (a b c x y : Q) : 0 <= residual2 a b c x y.
Proof.
  unfold residual2. generalize (a * x ^ 2 + b * x + c - y). intros e.
  change (e ^ 2) with (e * e). nra.
Qed.

Lemma SSR_nonneg (xs ys : list Q) (a b c : Q) : 0 <= SSR xs ys a b c.
Proof.
  unfold SSR. revert ys.
  induction xs as [|x xs IH]; intros [|y ys]; try (simpl; lra).
  pose proof (residual2_nonneg a b c x y). specialize (IH ys).
  cbn [map2 Qsum fold_right]. unfold Qsum in IH. lra.
Qed.

(** A fit without residual is a least-squares fit. *)
Lemma zero_residual_least_squares (xs ys : list Q) (a b c : Q) :
  SSR xs ys a b c == 0 -> least_squares xs ys a b c.
Proof.
  intros H a' b' c'. rewrite H. apply SSR_nonneg.
Qed.

Lemma SSR_cons (x y : Q) (xs ys : list Q) (a b c : Q) :
  SSR (x :: xs) (y :: ys) a b c = residual2 a b c x y + SSR xs ys a b c.
Proof. reflexivity. Qed.

Lemma SSR_zero_pointwise (xs ys : list Q) (a b c : Q) :
  length xs = length ys -> SSR xs ys a b c <= 0 ->
  Forall2 (fun x y => a * x ^ 2 + b * x + c == y) xs ys.
Proof.
  revert ys. induction xs as [|x xs IH]; intros [|y ys] Hlen H;
    try discriminate; constructor; rewrite SSR_cons in H;
    pose proof (SSR_nonneg xs ys a b c) as Hn;
    pose proof (residual2_nonneg a b c x y) as Hr.
  - unfold residual2 in H, Hr.
    remember (a * x ^ 2 + b * x + c - y) as e eqn:Ee.
    change (e ^ 2) with (e * e) in H, Hr.
    assert (He : e * e == 0) by lra.
    apply Qmult_integral in He. subst e. destruct He; lra.
  - apply IH; [simpl in Hlen; congruence|lra].
Qed.

Lemma SSR_on_parabola (A X0 Y0 : Q) (xs ys : list Q) :
  on_parabola A X0 Y0 xs ys ->
  SSR xs ys A (- (2) * A * X0) (A * X0 ^ 2 + Y0) == 0.
Proof.
  unfold SSR. induction 1 as [|x y xs ys Hxy _ IH]; simpl; [reflexivity|].
  rewrite IH. unfold residual2. rewrite Hxy. ring.
Qed.

Lemma Forall2_In_l {A B : Type} (P : A -> B -> Prop) (l : list A) (l' : list B) (a : A) :
  Forall2 P l l' -> In a l -> exists b, In b l' /\ P a b.
Proof.
  induction 1 as [|x y l l' Hxy _ IH]; simpl; [tauto|].
  intros [<-|H]; [exists y; auto|].
  destruct (IH H) as [b [Hb Pb]]. exists b. auto.
Qed.

Lemma Forall2_pair {A B : Type} (P R : A -> B -> Prop) (l : list A) (l' : list B) (a : A) :
  Forall2 P l l' -> Forall2 R l l' -> In a l -> exists b, P a b /\ R a b.
Proof.
  induction 1 as [|x y l l' Hxy _ IH]; simpl; [tauto|].
  intros HR. inversion HR; subst. intros [<-|H]; [exists y; auto|].
  now apply IH.
Qed.

(** A polynomial of degree at most 2 with three distinct roots is zero. *)
Lemma quadratic_three_roots (p q r x1 x2 x3 : Q) :
  ~ x1 == x2 -> ~ x1 == x3 -> ~ x2 == x3 ->
  p * x1 ^ 2 + q * x1 + r == 0 ->
  p * x2 ^ 2 + q * x2 + r == 0 ->
  p * x3 ^ 2 + q * x3 + r == 0 ->
  p == 0 /\ q == 0 /\ r == 0.
Proof.
  intros H12 H13 H23 E1 E2 E3.
  assert (F12 : (x1 - x2) * (p * (x1 + x2) + q) == 0) by nra.
  assert (F13 : (x1 - x3) * (p * (x1 + x3) + q) == 0) by nra.
  apply Qmult_integral in F12. destruct F12 as [F12|F12]; [exfalso; apply H12; lra|].
  apply Qmult_integral in F13. destruct F13 as [F13|F13]; [exfalso; apply H13; lra|].
  assert (Fp : p * (x2 - x3) == 0) by nra.
  apply Qmult_integral in Fp. destruct Fp as [Fp|Fp]; [|exfalso; apply H23; lra].
  assert (Fq : q == 0) by nra.
  split; [exact Fp|]. split; [exact Fq|]. nra.
Qed.

Lemma np_min_fold_le (l : list Q) (m : Q) :
  fold_left (fun m v => if Qltb v m then v else m) l m <= m /\
  forall x, In x l -> fold_left (fun m v => if Qltb v m then v else m) l m <= x.
Proof.
  revert m. induction l as [|v l IH]; intros m; simpl.
  - split; [lra|tauto].
  - destruct (Qltb v m) eqn:E.
    + apply Qltb_true in E. destruct (IH v) as [H1 H2]. split; [lra|].
      intros x [<-|Hx]; [exact H1|now apply H2].
    + apply Qltb_false in E. destruct (IH m) as [H1 H2]. split; [exact H1|].
      intros x [<-|Hx]; [lra|now apply H2].
Qed.

Lemma np_min_le (xs : list Q) (x : Q) : In x xs -> np_min xs <= x.
Proof.
  destruct xs as [|a l]; simpl; [tauto|].
  destruct (np_min_fold_le l a) as [H1 H2].
  intros [<-|Hx]; [exact H1|now apply H2].
Qed.

Lemma np_max_fold_ge (l : list Q) (m : Q) :
  m <= fold_left (fun m v => if Qltb m v then v else m) l m /\
  forall x, In x l -> x <= fold_left (fun m v => if Qltb m v then v else m) l m.
Proof.
  revert m. induction l as [|v l IH]; intros m; simpl.
  - split; [lra|tauto].
  - destruct (Qltb m v) eqn:E.
    + apply Qltb_true in E. destruct (IH v) as [H1 H2]. split; [lra|].
      intros x [<-|Hx]; [exact H1|now apply H2].
    + apply Qltb_false in E. destruct (IH m) as [H1 H2]. split; [exact H1|].
      intros x [<-|Hx]; [lra|now apply H2].
Qed.

Lemma np_max_ge (xs : list Q) (x : Q) : In x xs -> x <= np_max xs.
Proof.
  destruct xs as [|a l]; simpl; [tauto|].
  destruct (np_max_fold_ge l a) as [H1 H2].
  intros [<-|Hx]; [exact H1|now apply H2].
Qed.

Lemma three_distinct_length (xs : list Q) : three_distinct xs -> (3 <= length xs)%nat.
Proof.
  intros (x1 & x2 & x3 & H1 & H2 & H3 & N12 & N13 & N23).
  destruct xs as [|a [|b [|c xs]]]; [destruct H1| | |simpl; lia]; exfalso.
  - destruct H1 as [<-|[]], H2 as [<-|[]]. now apply N12.
  - destruct H1 as [<-|[<-|[]]], H2 as [<-|[<-|[]]], H3 as [<-|[<-|[]]];
      try (now apply N12); try (now apply N13); now apply N23.
Qed.

(** The least-squares parabola of exact samples of a parabola, taken at
    three distinct abscissas or more, is that parabola. *)
Lemma least_squares_on_parabola (A X0 Y0 : Q) (xs ys : list Q) (a b c : Q) :
  on_parabola A X0 Y0 xs ys -> three_distinct xs -> least_squares xs ys a b c ->
  a == A /\ b == - (2) * A * X0 /\ c == A * X0 ^ 2 + Y0.
Proof.
  intros Hp Hd Hls.
  assert (Hlen : length xs = length ys) by (eapply Forall2_length; eauto).
  assert (Hz : SSR xs ys a b c <= 0).
  { rewrite <- (SSR_on_parabola A X0 Y0 xs ys Hp). apply Hls. }
  pose proof (SSR_zero_pointwise xs ys a b c Hlen Hz) as Hfit.
  assert (Hroot : forall x, In x xs ->
            (a - A) * x ^ 2 + (b + 2 * A * X0) * x + (c - A * X0 ^ 2 - Y0) == 0).
  { intros x Hx. destruct (Forall2_pair _ _ xs ys x Hp Hfit Hx) as (y & E1 & E2).
    rewrite E1 in E2. nra. }
  destruct Hd as (x1 & x2 & x3 & H1 & H2 & H3 & N12 & N13 & N23).
  destruct (quadratic_three_roots _ _ _ x1 x2 x3 N12 N13 N23
              (Hroot x1 H1) (Hroot x2 H2) (Hroot x3 H3)) as (Ea & Eb & Ec).
  repeat split; lra.
Qed.

(** C7, in exact arithmetic.  For samples taken exactly from
    [y = A (x - X0)^2 + Y0] with [A > 0] and [Y0 > 0], at three distinct
    abscissas or more with one strictly on each side of [X0], and a
    [polyfit] that returns a least-squares parabola, [minfit] returns [X0],
    [Y0] and [1 / sqrt A] with a zero flag word. *)
Theorem minfit_parabola {NP : Numpy} {ZW : ZWarningMask}
        (A X0 Y0 : Q) (xs ys : list Q) (a b c : Q) :
  (forall u v, u == v -> np_sqrt u == np_sqrt v) ->
  0 < A -> 0 < Y0 ->
  on_parabola A X0 Y0 xs ys ->
  three_distinct xs ->
  brackets xs X0 ->
  polyfit2 xs ys = Ok (a, b, c) ->
  least_squares xs ys a b c ->
  exists x0 xerr y0,
    minfit xs ys = Ok (x0, xerr, y0, 0%Z) /\
    x0 == X0 /\ y0 == Y0 /\ xerr == 1 / np_sqrt A.
Proof.
  intros Hsqrt HA HY Hp Hd ((lo & Hlo & Hlo') & (hi & Hhi & Hhi')) Hfit Hls.
  destruct (least_squares_on_parabola A X0 Y0 xs ys a b c Hp Hd Hls)
    as (Ea & Eb & Ec).
  pose proof (three_distinct_length xs Hd) as Hlen.
  assert (Ex0 : - b / (2 * a) == X0).
  { rewrite Ea, Eb. field. lra. }
  assert (Ey0 : - (b ^ 2) / (4 * a) + c == Y0).
  { rewrite Ea, Eb, Ec. field. lra. }
  unfold minfit.
  destruct (Nat.ltb_spec (length xs) 3) as [Hlt|_]; [lia|].
  rewrite Hfit.
  assert (Hne : Qeq_bool a 0 = false) by (apply Qeq_bool_false; lra).
  rewrite Hne.
  assert (Hmin : Qle_bool (- b / (2 * a)) (np_min xs) = false).
  { apply Qle_bool_false. pose proof (np_min_le xs lo Hlo). lra. }
  assert (Hmax : Qle_bool (np_max xs) (- b / (2 * a)) = false).
  { apply Qle_bool_false. pose proof (np_max_ge xs hi Hhi). lra. }
  assert (Hy : Qle_bool (- (b ^ 2) / (4 * a) + c) 0 = false).
  { apply Qle_bool_false. lra. }
  assert (Hpos : Qltb 0 a = true) by (apply Qltb_true; lra).
  rewrite Hmin, Hmax, Hy, Hpos. simpl.
  eexists _, _, _. split; [reflexivity|].
  split; [exact Ex0|]. split; [exact Ey0|].
  rewrite (Hsqrt a A Ea). reflexivity.
Qed.

Lemma Qsqrt_compat (u v : Q) : u == v -> Qsqrt u == Qsqrt v.
Proof.
  intros H. unfold Qsqrt. rewrite (Qred_complete u v H). reflexivity.
Qed.

(** The parabola [(x - 2)^2 + 1] sampled at 1, 2, 3 and 4. *)
Lemma minfit_parabola_witness :
  exists x0 xerr y0,
    @minfit exact_numpy zw_bits [1; 2; 3; 4] [2; 1; 2; 5] = Ok (x0, xerr, y0, 0%Z) /\
    x0 == 2 /\ y0 == 1 /\ xerr == 1 / Qsqrt 1.
Proof.
  apply (@minfit_parabola exact_numpy zw_bits 1 2 1 [1; 2; 3; 4] [2; 1; 2; 5]
           1 (-4 # 1) 5).
  - exact Qsqrt_compat.
  - reflexivity.
  - reflexivity.
  - repeat constructor.
  - exists 1, 2, 3. simpl. repeat split; auto; discriminate.
  - split; [exists 1|exists 3]; simpl; split; auto; reflexivity.
  - reflexivity.
  - apply zero_residual_least_squares. reflexivity.
Defined.

(** ** [fitz]: reading the grids *)

Lemma py_index_neg {A : Type} (a : list A) (k : nat) (d : A) :
  (0 < k <= length a)%nat ->
  py_index a (- Z.of_nat k) = Ok (nth (length a - k) a d).
Proof.
  intros Hk. unfold py_index.
  destruct (Z.ltb_spec (- Z.of_nat k) 0); [|lia].
  destruct (Z.leb_spec 0 (Z.of_nat (length a) + - Z.of_nat k)); [|lia].
  destruct (Z.ltb_spec (Z.of_nat (length a) + - Z.of_nat k)
                       (Z.of_nat (length a))); [|lia].
  simpl.
  replace (Z.to_nat (Z.of_nat (length a) + - Z.of_nat k))
    with (length a - k)%nat by lia.
  rewrite (nth_error_nth' a d) by lia. reflexivity.
Qed.

Lemma py_index_neg_out {A : Type} (a : list A) (k : nat) :
  (length a < k)%nat -> py_index a (- Z.of_nat k) = Raise IndexError.
Proof.
  intros Hk. unfold py_index.
  destruct (Z.ltb_spec (- Z.of_nat k) 0); [|lia].
  destruct (Z.leb_spec 0 (Z.of_nat (length a) + - Z.of_nat k)); [lia|].
  reflexivity.
Qed.

Lemma last_nth {A : Type} (a : list A) (d : A) :
  last a d = nth (length a - 1) a d.
Proof.
  induction a as [|x [|y a] IH]; simpl in *; auto.
  rewrite IH. now rewrite Nat.sub_0_r.
Qed.

Lemma py_index_first (a : list Q) :
  a <> [] -> py_index a 0 = Ok (nth 0 a 0).
Proof.
  intros H. apply (py_index_nat a 0 0). destruct a; [congruence|simpl; lia].
Qed.

Lemma py_index_last (a : list Q) :
  a <> [] -> py_index a (-1) = Ok (last a 0).
Proof.
  intros H. rewrite last_nth. apply (py_index_neg a 1 0).
  destruct a; [congruence|simpl; lia].
Qed.

Lemma py_index_second (a : list Q) :
  (2 <= length a)%nat -> py_index a 1 = Ok (nth 1 a 0).
Proof. intros H. apply (py_index_nat a 1 0). lia. Qed.

Lemma py_index_before_last (a : list Q) :
  (2 <= length a)%nat -> py_index a (-2) = Ok (nth (length a - 2) a 0).
Proof. intros H. apply (py_index_neg a 2 0). lia. Qed.

Lemma or_else_index (a : list Q) (i j : Z) (f g : Q -> bool) (u v : Q) :
  py_index a i = Ok u -> py_index a j = Ok v ->
  or_else (r <- py_index a i ;; Ok (f r)) (r <- py_index a j ;; Ok (g r))
  = Ok (f u || g v).
Proof.
  intros Hu Hv. unfold or_else. rewrite Hu, Hv. simpl.
  destruct (f u); reflexivity.
Qed.

Lemma flag_set_lor_r (w b : Z) : flag_set (Z.lor w b) b.
Proof.
  unfold flag_set. apply Z.bits_inj'. intros n _.
  rewrite Z.land_spec, Z.lor_spec.
  destruct (Z.testbit w n), (Z.testbit b n); reflexivity.
Qed.


(** ** [fitz]: from the final evaluation to the row *)

Section FinishRow.
Context {SM : MpSharedMem} {NP : Numpy} {ZW : ZWarningMask} {ZS : ZScan}.
Variables (template : Template) (redshifts zz zzchi2 : list Q).
Variables (zmin sigma chi2min : Q) (zwarn : Z).




Lemma where_scalar_min_first (zbest : Q) : where_scalar_min zbest = Ok 0%nat.
Proof.
  unfold where_scalar_min. now rewrite Qeq_bool_refl.
Qed.

(** The row in closed form, once the final evaluation has given [coeff]
    and the flag word [zw]. *)
Lemma finish_row_eq (body : res (Q * list Q)) (coeff : list Q) (zw : Z) :
  (2 <= length redshifts)%nat -> zz <> [] -> zzchi2 <> [] ->
  final_coeff template redshifts body zmin zwarn = Ok (coeff, zw) ->
  finish_row template redshifts zz zzchi2 zmin sigma chi2min zwarn body =
  let edge := edge_of_range redshifts zmin in
  let out := out_of_bracket zz zmin in
  let w1 := if edge then Z.lor zw Z_FITLIMIT else zw in
  let w2 := if edge then Z.lor w1 Z_FITLIMIT else w1 in
  Ok {| Row.z := if out then nth 0 zz 0 else zmin;
        Row.zerr := sigma;
        Row.zwarn := if out then Z.lor w2 BAD_MINFIT else w2;
        Row.chi2 := if out then nth 0 zzchi2 0 else chi2min;
        Row.zz := zz;
        Row.zzchi2 := zzchi2;
        Row.coeff := coeff |}.
Proof.
  intros Hr Hz Hc Hf. unfold finish_row. rewrite Hf. cbn [bind].
  rewrite (or_else_index redshifts 1 (-2) (fun r => Qltb zmin r)
             (fun r => Qltb r zmin) _ _
             (py_index_second _ Hr) (py_index_before_last _ Hr)).
  cbn [bind].
  rewrite (or_else_index zz 0 (-1) (fun r => Qltb zmin r)
             (fun r => Qltb r zmin) _ _
             (py_index_first _ Hz) (py_index_last _ Hz)).
  cbn [bind]. fold (edge_of_range redshifts zmin) (out_of_bracket zz zmin).
  destruct (out_of_bracket zz zmin); [|reflexivity].
  rewrite where_scalar_min_first. cbn [bind].
  change (Z.of_nat 0) with 0%Z.
  rewrite (py_index_first _ Hz), (py_index_first _ Hc). reflexivity.
Qed.



(** What line 231-235 does: a refined redshift outside the fine grid is
    replaced by the first fine sample, with [BAD_MINFIT] set. *)
Lemma finish_row_out_of_bracket (body : res (Q * list Q)) (coeff : list Q) (zw : Z) :
  (2 <= length redshifts)%nat -> zz <> [] -> zzchi2 <> [] ->
  final_coeff template redshifts body zmin zwarn = Ok (coeff, zw) ->
  zmin < nth 0 zz 0 \/ last zz 0 < zmin ->
  exists row,
    finish_row template redshifts zz zzchi2 zmin sigma chi2min zwarn body = Ok row /\
    Row.z row = nth 0 zz 0 /\ Row.chi2 row = nth 0 zzchi2 0 /\
    flag_set (Row.zwarn row) BAD_MINFIT.
Proof.
  intros Hr Hz Hc Hf Hout.
  rewrite (finish_row_eq _ _ _ Hr Hz Hc Hf). cbv zeta.
  assert (E : out_of_bracket zz zmin = true).
  { unfold out_of_bracket. now rewrite orb_true_iff, !Qltb_true. }
  rewrite E. eexists. split; [reflexivity|]. cbn.
  split; [reflexivity|]. split; [reflexivity|]. apply flag_set_lor_r.
Qed.

(** The edge test of lines 225-228 reads the refined redshift only: when
    it is not within one cell of either end and stays inside the fine
    grid, the flag word of the row is the one the final evaluation left,
    wherever the coarse minimum was. *)
Lemma finish_row_edge_refined_only (body : res (Q * list Q)) (coeff : list Q) (zw : Z) :
  (2 <= length redshifts)%nat -> zz <> [] -> zzchi2 <> [] ->
  final_coeff template redshifts body zmin zwarn = Ok (coeff, zw) ->
  edge_of_range redshifts zmin = false ->
  out_of_bracket zz zmin = false ->
  exists row,
    finish_row template redshifts zz zzchi2 zmin sigma chi2min zwarn body = Ok row /\
    Row.zwarn row = zw.
Proof.
  intros Hr Hz Hc Hf He Ho.
  rewrite (finish_row_eq _ _ _ Hr Hz Hc Hf). cbv zeta. rewrite He, Ho.
  eexists. split; reflexivity.
Qed.

End FinishRow.


(** The two branches of the handler, through [fitz]: a template valid up
    to redshift 4 and a refined redshift 9/2 beyond the grid give a row
    with a zero coefficient and both flags; a template valid up to 2 and a
    refined redshift 5/2 inside the grid give the [ValueError] back. *)
Lemma fitz_beyond_template_range :
  exists row,
    @fitz list_shm exact_numpy zw_bits
          (bounded_zscan 4 (fun z => (z - (9 # 2)) ^ 2 + 1))
          [5; 4; 3; 2; 1] [0; 1; 2; 3; 4] one_exposure tt 3 = Ok [row] /\
    Row.coeff row = [0] /\ Row.zwarn row = Z.lor 32 1024.
Proof.
  eexists. split; [vm_compute; reflexivity|]. split; reflexivity.
Qed.

Lemma fitz_reraises_inside_grid :
  @fitz list_shm exact_numpy zw_bits
        (bounded_zscan 2 (fun z => (z - (5 # 2)) ^ 2 + 1))
        [3; 1; 2; 4; 5] [0; 1; 2; 3; 4] one_exposure tt 3 = Raise ValueError.
Proof. reflexivity. Qed.

(** ** [fitz]: the two defects of the loop body, on an input *)

(** C1 fails on the code.  The coarse curve has its minimum at the lower
    edge; the fine curve falls along the whole fine grid, so the parabola
    through its last three samples has its vertex at 3/2, beyond the grid.
    The row then holds the first fine sample, the one with the highest
    chi-square, while the lowest chi-square is at index 14. *)
Theorem fitz_out_of_bracket_takes_first_sample :
  exists row,
    @fitz list_shm exact_numpy zw_bits (curve_zscan steep)
          [1; 2; 3; 4; 5] [0; 1; 2; 3; 4] one_exposure tt 3 = Ok [row] /\
    flag_set (Row.zwarn row) 1024 /\
    Row.z row = nth 0 (Row.zz row) 0 /\
    Row.chi2 row = nth 0 (Row.zzchi2 row) 0 /\
    argmin (Row.zzchi2 row) = 14%nat /\
    ~ Row.z row == nth 14 (Row.zz row) 0 /\
    nth 14 (Row.zzchi2 row) 0 < Row.chi2 row.
Proof.
  eexists. split; [vm_compute; reflexivity|].
  cbn [Row.z Row.zz Row.zzchi2 Row.chi2 Row.zwarn].
  repeat split; try reflexivity. discriminate.
Qed.

(** C4 fails on the code.  On the same input the only coarse minimum is at
    index 0, whose redshift is below [redshifts[1]], and the row comes back
    without [Z_FITLIMIT]: the two tests of lines 225-228 both read the
    refined redshift 3/2. *)
Theorem fitz_edge_minimum_not_flagged :
  find_minima [1; 2; 3; 4; 5] = Ok [0%nat] /\
  nth 0 [0; 1; 2; 3; 4] 0 < nth 1 [0; 1; 2; 3; 4] 0 /\
  exists row,
    @fitz list_shm exact_numpy zw_bits (curve_zscan steep)
          [1; 2; 3; 4; 5] [0; 1; 2; 3; 4] one_exposure tt 3 = Ok [row] /\
    Row.z row == 0 /\
    Z.land (Row.zwarn row) 32 = 0%Z.
Proof.
  split; [reflexivity|]. split; [reflexivity|].
  eexists. split; [vm_compute; reflexivity|].
  split; reflexivity.
Qed.

(** ** [fitz]: velocity de-duplication *)

Lemma too_close_false (z : Q) (results : list Row.t) :
  too_close z results = false ->
  Forall (fun r => np_abs_lt (get_dv z (Row.z r)) max_velo_diff = false) results.
Proof.
  unfold too_close. induction results as [|r results IH]; simpl; [constructor|].
  intros H. apply orb_false_iff in H. destruct H as [H1 H2].
  constructor; [exact H1|now apply IH].
Qed.

(** Away from [zref = -1] the velocity is the quotient itself. *)
Lemma get_dv_finite (z zref : Q) :
  ~ 1 + zref == 0 ->
  get_dv z zref = Finite (speed_of_light_km * (z - zref) / (1 + zref)).
Proof.
  intros H. unfold get_dv, np_divide.
  apply Qeq_bool_false in H. now rewrite H.
Qed.

(** At [zref = -1] the velocity is an infinity or nan, and the test of
    [fitz] is false. *)
Lemma get_dv_not_finite (z zref : Q) (bound : Q) :
  1 + zref == 0 -> np_abs_lt (get_dv z zref) bound = false.
Proof.
  intros H. unfold get_dv, np_divide.
  apply Qeq_bool_iff in H. rewrite H.
  destruct (Qltb 0 _); [reflexivity|]. destruct (Qltb _ 0); reflexivity.
Qed.

Lemma too_close_one (z : Q) (r : Row.t) :
  too_close z [r] = np_abs_lt (get_dv z (Row.z r)) max_velo_diff.
Proof. unfold too_close. simpl. apply orb_false_r. Qed.

Lemma too_close_nil (z : Q) : too_close z [] = false.
Proof. reflexivity. Qed.

Lemma ForallOrdPairs_snoc {A : Type} (R : A -> A -> Prop) (l : list A) (c : A) :
  ForallOrdPairs R l -> Forall (fun a => R a c) l -> ForallOrdPairs R (l ++ [c]).
Proof.
  induction 1 as [|a l Ha Hl IH]; intros Hc; simpl.
  - repeat constructor.
  - inversion Hc; subst. constructor; [|now apply IH].
    apply Forall_app. split; [exact Ha|]. now repeat constructor.
Qed.

Section Loop.
Context {SM : MpSharedMem} {NP : Numpy} {ZW : ZWarningMask} {ZS : ZScan}.
Variables (zchi2 redshifts : list Q) (spectra : list Spectrum).
Variables (template : Template) (dwave : dict (list Q)) (weights flux : list Q).
Variable nminima : Z.

(** A property kept by every acceptance holds of what the loop returns. *)
Lemma fitz_loop_invariant (P : list Row.t -> Prop) :
  (forall results row,
      P results -> too_close (Row.z row) results = false ->
      P (results ++ [row])) ->
  forall minima results out,
    P results ->
    fitz_loop zchi2 redshifts spectra template dwave weights flux nminima
              minima results = Ok out ->
    P out.
Proof.
  intros Hstep. induction minima as [|imin rest IH]; intros results out HP H.
  - inversion H; now subst.
  - simpl in H.
    destruct (Z.of_nat (length results) =? nminima)%Z;
      [inversion H; now subst|].
    destruct (py_index redshifts (Z.of_nat imin)) as [zi|e]; [|discriminate].
    cbn [bind] in H.
    destruct (too_close zi results); [now apply (IH results)|].
    destruct (refine zchi2 redshifts spectra template dwave weights flux imin)
      as [row|e]; [|discriminate].
    cbn [bind] in H.
    destruct (too_close (Row.z row) results) eqn:E;
      [now apply (IH results)|].
    apply (IH (results ++ [row])); [now apply Hstep|exact H].
Qed.

Lemma fitz_loop_separated (minima : list nat) (results out : list Row.t) :
  velocity_separated results ->
  fitz_loop zchi2 redshifts spectra template dwave weights flux nminima
            minima results = Ok out ->
  velocity_separated out.
Proof.
  apply (fitz_loop_invariant velocity_separated).
  intros rs row Hs Hc. apply ForallOrdPairs_snoc; [exact Hs|].
  now apply too_close_false.
Qed.

End Loop.

Lemma take_permutation {A : Type} (a l : list A) (ii : list nat) :
  Permutation ii (seq 0 (length a)) -> take a ii = Ok l -> Permutation l a.
Proof.
  intros P H. destruct a as [|d a'].
  - apply Permutation_sym, Permutation_nil in P. subst ii. inversion H. constructor.
  - set (a := d :: a') in *.
    assert (Hr : Forall (fun i => (i < length a)%nat) ii).
    { apply Forall_forall. intros i Hi.
      apply (Permutation_in _ P) in Hi. apply in_seq in Hi. lia. }
    rewrite (take_in_range a ii d Hr) in H. inversion H.
    apply Permutation_trans with (map (fun i => nth i a d) (seq 0 (length a))).
    + now apply Permutation_map.
    + now rewrite map_nth_seq.
Qed.

(** A pair that passed the test of the code is 1000 km/s apart or more
    wherever the velocity is a number. *)
Lemma velocity_separated_pairs (rows : list Row.t) :
  velocity_separated rows ->
  ForallOrdPairs
    (fun earlier later =>
       too_close (Row.z later) [earlier] = false /\
       (~ 1 + Row.z earlier == 0 ->
        1000 <= Qabs (speed_of_light_km * (Row.z later - Row.z earlier)
                      / (1 + Row.z earlier)))) rows.
Proof.
  unfold velocity_separated.
  induction 1 as [|earlier rest Hfar _ IH]; [constructor|].
  constructor; [|exact IH].
  eapply Forall_impl; [|exact Hfar].
  intros later Hlt. cbv beta in Hlt. rewrite too_close_one.
  split; [exact Hlt|]. intros Hnz.
  rewrite (get_dv_finite _ _ Hnz) in Hlt. now apply Qltb_false in Hlt.
Qed.

(** C2.  The table that [fitz] returns is a reordering of the rows in the
    order of their acceptance, and in that order no row collides with a
    row accepted before it: for a later redshift [z] and an earlier
    [zref], the test [|get_dv(z, zref)| < 1000] of the code is false, and
    [|c (z - zref) / (1 + zref)| >= 1000] wherever this quotient is a
    number, that is for [1 + zref <> 0]. *)
Theorem fitz_velocity_separated {SM : MpSharedMem} {NP : Numpy}
        {ZW : ZWarningMask} {ZS : ZScan}
        (zchi2 redshifts : list Q) (spectra : list Spectrum)
        (template : Template) (nminima : Z) (table : list Row.t) :
  fitz zchi2 redshifts spectra template nminima = Ok table ->
  exists accepted,
    fitz_accepted zchi2 redshifts spectra template nminima = Ok accepted /\
    Permutation table accepted /\
    ForallOrdPairs
      (fun earlier later =>
         too_close (Row.z later) [earlier] = false /\
         (~ 1 + Row.z earlier == 0 ->
          1000 <= Qabs (speed_of_light_km * (Row.z later - Row.z earlier)
                        / (1 + Row.z earlier)))) accepted.
Proof.
  unfold fitz. intros H.
  destruct (fitz_accepted zchi2 redshifts spectra template nminima)
    as [accepted|e] eqn:E; [|discriminate].
  cbn [bind] in H. exists accepted. split; [reflexivity|].
  destruct (take accepted (argsort (map Row.chi2 accepted))) as [sorted|e] eqn:T;
    [|discriminate].
  cbn [bind] in H. destruct (assert _); [|discriminate].
  cbn [bind] in H. inversion H; subst table. split.
  - apply (take_permutation accepted sorted _) in T; [exact T|].
    rewrite <- (length_map Row.chi2 accepted). apply argsort_perm.
  - unfold fitz_accepted in E.
    destruct (assert _); [|discriminate]. cbn [bind] in E.
    destruct (build_dwave spectra) as [dwave|e]; [|discriminate].
    cbn [bind] in E.
    destruct (spectral_data spectra) as [[[weights flux] wflux]|e];
      [|discriminate].
    cbn [bind] in E.
    destruct (find_minima zchi2) as [minima|e]; [|discriminate].
    cbn [bind] in E.
    apply fitz_loop_separated in E; [|constructor].
    now apply velocity_separated_pairs.
Qed.

(** Two dips, both accepted, neither at [z = -1]. *)
Lemma fitz_velocity_separated_witness :
  exists table accepted,
    @fitz list_shm exact_numpy zw_bits (curve_zscan two_dips)
          (map two_dips [0; 1; 2; 3; 4; 5; 6]) [0; 1; 2; 3; 4; 5; 6] one_exposure tt 3
      = Ok table /\
    length table = 2%nat /\
    Forall (fun r => ~ 1 + Row.z r == 0) table /\
    Permutation table accepted /\
    ForallOrdPairs
      (fun earlier later =>
         too_close (Row.z later) [earlier] = false /\
         (~ 1 + Row.z earlier == 0 ->
          1000 <= Qabs (speed_of_light_km * (Row.z later - Row.z earlier)
                        / (1 + Row.z earlier)))) accepted.
Proof.
  destruct (@fitz list_shm exact_numpy zw_bits (curve_zscan two_dips)
              (map two_dips [0; 1; 2; 3; 4; 5; 6]) [0; 1; 2; 3; 4; 5; 6] one_exposure tt 3)
    as [table|e] eqn:E; [|vm_compute in E; discriminate].
  destruct (fitz_velocity_separated _ _ _ _ _ _ E) as (accepted & _ & P & S).
  exists table, accepted. split; [reflexivity|].
  split; [|split; [|split; assumption]].
  - vm_compute in E. inversion E. reflexivity.
  - vm_compute in E. inversion E. repeat constructor; discriminate.
Defined.

(** At [zref = -1] nothing is discarded: on a grid that starts at -1 both
    coarse minima are refined to the redshift -1, the velocity between
    them is nan, and both rows are returned. *)
Lemma fitz_keeps_rows_at_minus_one :
  exists r1 r2,
    @fitz list_shm exact_numpy zw_bits (curve_zscan steep)
          [1; 1; 5] [-1; 0; 1] one_exposure tt 3 = Ok [r1; r2] /\
    Row.z r1 == -1 /\ Row.z r2 == -1 /\ r1 <> r2 /\
    get_dv (Row.z r2) (Row.z r1) = NaN.
Proof.
  eexists _, _. split; [vm_compute; reflexivity|].
  split; [reflexivity|]. split; [reflexivity|].
  split; [discriminate|reflexivity].
Qed.

(** ** [fitz]: at least one row *)

Lemma py_index_Z (a : list Q) (i : Z) :
  (0 <= i < Z.of_nat (length a))%Z -> py_index a i = Ok (nth (Z.to_nat i) a 0).
Proof.
  intros H. rewrite <- (Z2Nat.id i) at 1 by lia.
  apply py_index_nat. lia.
Qed.

Lemma length_linspace (start stop : Q) (num : nat) :
  length (linspace start stop num) = S (num - 1).
Proof.
  unfold linspace. rewrite length_app, length_map, length_seq. simpl. lia.
Qed.

Lemma global_minimum (x : list Q) :
  x <> [] ->
  exists i, (i < length x)%nat /\
            forall j, (j < length x)%nat -> nth i x 0 <= nth j x 0.
Proof.
  induction x as [|a x IH]; [congruence|]. intros _.
  destruct x as [|b x].
  - exists 0%nat. split; [simpl; lia|].
    intros [|j] Hj; simpl in *; [lra|lia].
  - destruct (IH ltac:(discriminate)) as (i & Hi & Hmin).
    destruct (Qlt_le_dec a (nth i (b :: x) 0)) as [Hlt|Hle].
    + exists 0%nat. split; [simpl; lia|].
      intros [|j] Hj; [simpl; lra|].
      specialize (Hmin j ltac:(simpl in *; lia)).
      change (nth (S j) (a :: b :: x) 0) with (nth j (b :: x) 0).
      change (nth 0 (a :: b :: x) 0) with a. lra.
    + exists (S i). split; [simpl in *; lia|].
      intros [|j] Hj.
      * change (nth (S i) (a :: b :: x) 0) with (nth i (b :: x) 0).
        change (nth 0 (a :: b :: x) 0) with a. exact Hle.
      * apply (Hmin j). simpl in *; lia.
Qed.

(** A non-empty array has a qualifying index: that of a global minimum. *)
Lemma local_min_exists (x : list Q) : x <> [] -> exists i, is_local_min x i.
Proof.
  intros Hx. destruct (global_minimum x Hx) as (i & Hi & Hmin).
  exists i. split; [exact Hi|]. split.
  - destruct i as [|j]; [now left|right]. apply Hmin. lia.
  - destruct (Nat.eq_dec i (length x - 1)) as [E|E]; [now left|right].
    apply Hmin. lia.
Qed.

Lemma find_minima_nonempty (x : list Q) :
  x <> [] ->
  exists m rest, find_minima x = Ok (m :: rest) /\
                 Forall (fun i => (i < length x)%nat) (m :: rest).
Proof.
  intros Hx. destruct (find_minima x) as [l|e] eqn:E;
    [|rewrite (find_minima_eq x Hx) in E; discriminate].
  pose proof (fun i => find_minima_In x l i Hx E) as HIn.
  destruct (local_min_exists x Hx) as (i & Hi).
  destruct l as [|m rest]; [exfalso; now apply (HIn i)|].
  exists m, rest. split; [reflexivity|].
  apply Forall_forall. intros j Hj. apply HIn in Hj. apply Hj.
Qed.

Lemma py_slice_same_length {A B : Type} (a : list A) (b : list B) (lo hi : nat) :
  length a = length b -> length (py_slice a lo hi) = length (py_slice b lo hi).
Proof.
  intros H. unfold py_slice. rewrite !length_firstn, !length_skipn. lia.
Qed.

Section Succeeds.
Context {SM : MpSharedMem} {NP : Numpy} {ZW : ZWarningMask} {ZS : ZScan}.
Variables (zchi2 redshifts : list Q) (spectra : list Spectrum).
Variables (template : Template) (dwave : dict (list Q)) (weights flux : list Q).
Variable nminima : Z.

Hypothesis lengths_match : length zchi2 = length redshifts.
Hypothesis two_points : (2 <= length redshifts)%nat.

(** The collaborators succeed: every template fit returns, and [polyfit]
    returns or fails with [LinAlgError]. *)
Hypothesis fit_succeeds :
  forall zbin zw, exists r,
    fit_at spectra template dwave weights flux zbin zw = Ok r.
Hypothesis polyfit_succeeds :
  forall x y, length x = length y ->
              (exists r, polyfit2 x y = Ok r) \/ polyfit2 x y = Raise LinAlgError.

Lemma minfit_returns (x y : list Q) :
  length x = length y -> exists r, minfit x y = Ok r.
Proof.
  intros Hxy.
  unfold minfit. destruct (length x <? 3)%nat; [eexists; reflexivity|].
  destruct (polyfit_succeeds x y Hxy) as [[[[a b] c] H]|H]; rewrite H;
    [|eexists; reflexivity].
  destruct (Qeq_bool a 0); [eexists; reflexivity|].
  cbv zeta. destruct (Qltb 0 a); eexists; reflexivity.
Qed.

Lemma fine_grid_returns (imin : nat) :
  (imin < length redshifts)%nat ->
  exists zz, fine_grid zchi2 redshifts imin = Ok zz /\ length zz = 15%nat.
Proof.
  intros Hi. unfold fine_grid.
  rewrite py_index_Z by lia. cbn [bind].
  rewrite py_index_Z by lia. cbn [bind].
  eexists. split; [reflexivity|]. apply length_linspace.
Qed.

Lemma refine_returns (imin : nat) :
  (imin < length redshifts)%nat ->
  exists row,
    refine zchi2 redshifts spectra template dwave weights flux imin = Ok row.
Proof.
  intros Hi. unfold refine.
  destruct (fine_grid_returns imin Hi) as (zz & Ezz & Lzz). rewrite Ezz.
  cbn [bind].
  destruct (mapM_total
              (fun z => fit_at spectra template dwave weights flux z z) zz)
    as (scan & Escan).
  { apply Forall_forall. intros z _. apply fit_succeeds. }
  rewrite Escan. cbn [bind].
  pose proof (mapM_length _ _ _ Escan) as Lscan.
  destruct (minfit_returns
              (py_slice zz (Nat.min (Nat.max (argmin (map fst scan)) 1)
                                    (length zz - 2) - 1)
                           (Nat.min (Nat.max (argmin (map fst scan)) 1)
                                    (length zz - 2) + 2))
              (py_slice (map fst scan)
                        (Nat.min (Nat.max (argmin (map fst scan)) 1)
                                 (length zz - 2) - 1)
                        (Nat.min (Nat.max (argmin (map fst scan)) 1)
                                 (length zz - 2) + 2)))
    as ([[[zmin sigma] chi2min] zwarn] & Efit).
  { apply py_slice_same_length. rewrite length_map. congruence. }
  unfold local_fit. rewrite Efit. cbn [bind].
  destruct (fit_succeeds zmin (last zz 0)) as (r & Er). rewrite Er.
  rewrite (finish_row_eq template redshifts zz (map fst scan)
             zmin sigma chi2min zwarn (Ok r) (snd r) zwarn).
  - eexists. reflexivity.
  - exact two_points.
  - destruct zz; [discriminate|congruence].
  - destruct scan; [simpl in Lscan; lia|discriminate].
  - reflexivity.
Qed.

(** The loop returns, and what it returns extends the rows it started
    from. *)
Lemma fitz_loop_returns (minima : list nat) (results : list Row.t) :
  Forall (fun i => (i < length redshifts)%nat) minima ->
  exists more,
    fitz_loop zchi2 redshifts spectra template dwave weights flux nminima
              minima results = Ok (results ++ more).
Proof.
  intros H. revert results.
  induction H as [|imin rest Hi _ IH]; intros results.
  - exists []. now rewrite app_nil_r.
  - simpl.
    destruct (Z.of_nat (length results) =? nminima)%Z;
      [exists []; now rewrite app_nil_r|].
    rewrite (py_index_nat redshifts imin 0 Hi). cbn [bind].
    destruct (too_close (nth imin redshifts 0) results); [apply IH|].
    destruct (refine_returns imin Hi) as (row & Erow). rewrite Erow.
    cbn [bind].
    destruct (too_close (Row.z row) results); [apply IH|].
    destruct (IH (results ++ [row])) as (more & E).
    exists (row :: more). rewrite E. now rewrite <- app_assoc.
Qed.

(** The first coarse minimum is refined and accepted. *)
Lemma fitz_loop_first (m : nat) (rest : list nat) :
  nminima <> 0%Z ->
  Forall (fun i => (i < length redshifts)%nat) (m :: rest) ->
  exists row more,
    refine zchi2 redshifts spectra template dwave weights flux m = Ok row /\
    fitz_loop zchi2 redshifts spectra template dwave weights flux nminima
              (m :: rest) [] = Ok (row :: more).
Proof.
  intros Hn H. inversion H as [|? ? Hm Hrest]; subst.
  destruct (refine_returns m Hm) as (row & Erow).
  destruct (fitz_loop_returns rest [row] Hrest) as (more & E).
  exists row, more. split; [exact Erow|].
  cbn [fitz_loop length]. change (Z.of_nat 0) with 0%Z.
  destruct (Z.eqb_spec 0 nminima) as [E0|_]; [congruence|].
  rewrite (py_index_nat redshifts m 0 Hm). cbn [bind].
  rewrite too_close_nil, Erow. cbn [bind]. rewrite too_close_nil.
  exact E.
Qed.

End Succeeds.

(** C10, as the code has it.  A non-empty chi-square array has at least
    one coarse minimum.  For length-matched grids of two points or more and
    [nminima <> 0], when the collaborators succeed the first coarse minimum
    is refined and accepted, so that [fitz] returns a table with at least
    one row: the final assertion holds. *)
Theorem fitz_returns_a_row {SM : MpSharedMem} {NP : Numpy}
        {ZW : ZWarningMask} {ZS : ZScan}
        (zchi2 redshifts : list Q) (spectra : list Spectrum)
        (template : Template) (nminima : Z)
        (dwave : dict (list Q)) (weights flux wflux : list Q) :
  zchi2 <> [] ->
  length zchi2 = length redshifts ->
  (2 <= length redshifts)%nat ->
  nminima <> 0%Z ->
  build_dwave spectra = Ok dwave ->
  spectral_data spectra = Ok (weights, flux, wflux) ->
  (forall zbin zw, exists r,
      fit_at spectra template dwave weights flux zbin zw = Ok r) ->
  (forall x y, length x = length y ->
               (exists r, polyfit2 x y = Ok r) \/ polyfit2 x y = Raise LinAlgError) ->
  exists m rest row more table,
    find_minima zchi2 = Ok (m :: rest) /\
    refine zchi2 redshifts spectra template dwave weights flux m = Ok row /\
    fitz_accepted zchi2 redshifts spectra template nminima = Ok (row :: more) /\
    fitz zchi2 redshifts spectra template nminima = Ok table /\
    Permutation table (row :: more) /\
    (0 < length table)%nat.
Proof.
  intros Hne Hlen H2 Hn Hdw Hsd Hfit Hpoly.
  destruct (find_minima_nonempty zchi2 Hne) as (m & rest & Emin & Hrange).
  rewrite Hlen in Hrange.
  destruct (fitz_loop_first zchi2 redshifts spectra template dwave weights flux
              nminima Hlen H2 Hfit Hpoly m rest Hn Hrange)
    as (row & more & Erow & Eloop).
  assert (Eacc : fitz_accepted zchi2 redshifts spectra template nminima
                 = Ok (row :: more)).
  { unfold fitz_accepted. rewrite Hlen, Nat.eqb_refl. cbn [assert bind].
    rewrite Hdw. cbn [bind]. rewrite Hsd. cbn [bind]. rewrite Emin.
    cbn [bind]. exact Eloop. }
  set (ii := argsort (map Row.chi2 (row :: more))).
  assert (Hperm : Permutation ii (seq 0 (length (row :: more)))).
  { unfold ii. rewrite <- (length_map Row.chi2). apply argsort_perm. }
  assert (Hii : Forall (fun i => (i < length (row :: more))%nat) ii).
  { apply Forall_forall. intros i Hi. apply (Permutation_in _ Hperm) in Hi.
    apply in_seq in Hi. lia. }
  pose proof (take_in_range (row :: more) ii row Hii) as Etake.
  pose proof (take_permutation _ _ _ Hperm Etake) as Ptable.
  exists m, rest, row, more, (map (fun i => nth i (row :: more) row) ii).
  split; [exact Emin|]. split; [exact Erow|]. split; [exact Eacc|].
  assert (Hpos : (0 < length (map (fun i => nth i (row :: more) row) ii))%nat).
  { rewrite (Permutation_length Ptable). simpl. lia. }
  split; [|split; [exact Ptable|exact Hpos]].
  unfold fitz. rewrite Eacc. cbn [bind]. fold ii. rewrite Etake. cbn [bind].
  apply Nat.ltb_lt in Hpos. rewrite Hpos. reflexivity.
Qed.

Lemma filter_length_le {A : Type} (f : A -> bool) (l : list A) :
  (length (filter f l) <= length l)%nat.
Proof.
  induction l as [|a l IH]; simpl; [lia|]. destruct (f a); simpl; lia.
Qed.

(** The sample collaborators succeed on the sample exposure. *)
Lemma curve_fit_at (f : Q -> Q) (zbin zw : Q) :
  exists r,
    @fit_at list_shm (curve_zscan f) one_exposure tt [(11%Z, [1; 2; 3])]
            [1; 1; 0] [2; 4; 6] zbin zw = Ok r.
Proof.
  unfold fit_at, binned_at, masked_weights.
  cbn [curve_zscan rebin_template transmitted_flux_fraction calc_zchi2_one
       curve_rebin map fst snd foldM dict_get dict_set bind Z.eqb Pos.eqb
       scale_col0 length Nat.eqb combine mapM one_exposure exposure wave
       getattr np_concatenate concat app elementwise map2 mask_set
       forest_lines].
  change (Qeq_bool 1 1) with true. change (Qltb 1 1) with false.
  change (Qltb 1 0) with false. cbn [negb andb].
  repeat match goal with
         | |- context [np_lt ?a ?b] => destruct (np_lt a b)
         end;
    cbn; eexists; reflexivity.
Qed.

Lemma polyfit2_exact_benign (x y : list Q) :
  length x = length y ->
  (exists r, polyfit2_exact x y = Ok r) \/ polyfit2_exact x y = Raise LinAlgError.
Proof.
  intros E. unfold polyfit2_exact. rewrite E, Nat.eqb_refl. cbn [negb].
  destruct (Qeq_bool _ 0); [now right|left; eexists; reflexivity].
Qed.

(** The two-dip curve on seven grid points. *)
Lemma fitz_returns_a_row_witness :
  exists m rest row more table,
    find_minima (map two_dips [0; 1; 2; 3; 4; 5; 6]) = Ok (m :: rest) /\
    @refine list_shm exact_numpy zw_bits (curve_zscan two_dips)
       (map two_dips [0; 1; 2; 3; 4; 5; 6]) [0; 1; 2; 3; 4; 5; 6] one_exposure tt
       [(11%Z, [1; 2; 3])] [1; 1; 0] [2; 4; 6] m
      = Ok row /\
    @fitz_accepted list_shm exact_numpy zw_bits (curve_zscan two_dips)
       (map two_dips [0; 1; 2; 3; 4; 5; 6]) [0; 1; 2; 3; 4; 5; 6] one_exposure tt 3
      = Ok (row :: more) /\
    @fitz list_shm exact_numpy zw_bits (curve_zscan two_dips)
       (map two_dips [0; 1; 2; 3; 4; 5; 6]) [0; 1; 2; 3; 4; 5; 6] one_exposure tt 3
      = Ok table /\
    Permutation table (row :: more) /\
    (0 < length table)%nat.
Proof.
  apply (@fitz_returns_a_row list_shm exact_numpy zw_bits (curve_zscan two_dips)
           (map two_dips [0; 1; 2; 3; 4; 5; 6]) [0; 1; 2; 3; 4; 5; 6] one_exposure tt 3
           [(11%Z, [1; 2; 3])] [1; 1; 0] [2; 4; 6] [1 * 2; 1 * 4; 0 * 6]).
  - discriminate.
  - reflexivity.
  - simpl; lia.
  - discriminate.
  - reflexivity.
  - reflexivity.
  - intros zbin zw. apply curve_fit_at.
  - exact polyfit2_exact_benign.
Defined.

(** C10 as stated fails.  With [nminima = 0] the loop stops before the
    first minimum and the final assertion fails; on a one-point grid the
    first minimum is not accepted, the edge test raising [IndexError]; and
    an edge of the array need not qualify as a minimum.  The collaborators
    succeed in all three. *)
Lemma fitz_no_row_counterexample :
  @fitz list_shm exact_numpy zw_bits (curve_zscan steep)
        [1; 2; 3; 4; 5] [0; 1; 2; 3; 4] one_exposure tt 0 = Raise AssertionError /\
  @fitz list_shm exact_numpy zw_bits (curve_zscan steep)
        [1] [0] one_exposure tt 3 = Raise IndexError /\
  find_minima [3; 1; 2] = Ok [1%nat].
Proof. repeat split; reflexivity. Qed.

(** ** [Spectrum]: shared-memory packing *)

Section Packing.
Context {SM : MpSharedMem} {PY : Python} {SP : ScipySparse}.

(** Reading a shared array gives back the array it was made from. *)
Hypothesis toarray_fromarray :
  forall (A : Type) (a : list A), toarray (fromarray a) = a.

Lemma Spectrum_init_consistent (w f i : list Q) (r : dia_matrix)
      (rc : csr_matrix) (s : Spectrum) :
  Spectrum_init w f i r rc = Ok s -> consistent s /\ _mpshared s = false.
Proof.
  unfold Spectrum_init. intros H.
  destruct (py_index w 0); [|discriminate]. cbn [bind] in H.
  destruct (py_index w 1); [|discriminate]. cbn [bind] in H.
  destruct (py_index w (-2)); [|discriminate]. cbn [bind] in H.
  destruct (py_index w (-1)); [|discriminate]. cbn [bind] in H.
  inversion H; subst s. unfold consistent. cbn.
  split; [|reflexivity]. exists w, f, i, r, rc. repeat split.
Qed.

(** What [sharedmem_pack] does to a consistent unpacked object. *)
Lemma sharedmem_pack_unpacked (s : Spectrum) :
  consistent s -> _mpshared s = false ->
  exists m,
    sharedmem_pack s =
      Ok {| nwave := nwave s; wave := None; flux := None; ivar := None;
            R := None; Rcsr := None; _mpshared := true;
            _mpshmem := Some m; wavehash := wavehash s |} /\
    wave s = Some (unpacked_wave m) /\ flux s = Some (unpacked_flux m) /\
    ivar s = Some (unpacked_ivar m) /\ R s = Some (unpacked_R m) /\
    Rcsr s = Some (unpacked_Rcsr m).
Proof.
  unfold consistent. intros C U. rewrite U in C.
  destruct C as (w & f & i & r & rc & Hw & Hf & Hi & Hr & Hrc & Hm).
  unfold sharedmem_pack. rewrite U. cbn [negb].
  destruct (_mpshmem s) as [m|] eqn:E.
  - exists m. cbn [bind]. rewrite Hw, Hf, Hi, Hr, Hrc. cbn [getattr bind].
    rewrite ?E. destruct Hm as (<- & <- & <- & <- & <-). repeat split.
  - rewrite Hw, Hf, Hi, Hr, Hrc. cbn [getattr bind set_mpshmem wave flux ivar R Rcsr].
    rewrite Hw, Hf, Hi, Hr, Hrc. cbn [getattr bind _mpshmem nwave wavehash].
    eexists. split; [reflexivity|].
    unfold unpacked_wave, unpacked_flux, unpacked_ivar, unpacked_R, unpacked_Rcsr.
    cbn. rewrite !toarray_fromarray. destruct r, rc. repeat split.
Qed.

Lemma sharedmem_pack_consistent (s s' : Spectrum) :
  consistent s -> sharedmem_pack s = Ok s' -> consistent s'.
Proof.
  intros C H. destruct (_mpshared s) eqn:U.
  - unfold sharedmem_pack in H. rewrite U in H. inversion H; now subst.
  - destruct (sharedmem_pack_unpacked s C U) as (m & E & _).
    rewrite E in H. inversion H; subst s'. unfold consistent. cbn. discriminate.
Qed.

Lemma sharedmem_unpack_consistent (s s' : Spectrum) :
  consistent s -> sharedmem_unpack s = Ok s' -> consistent s'.
Proof.
  intros C H. unfold sharedmem_unpack in H. destruct (_mpshared s) eqn:U.
  - destruct (_mpshmem s) as [m|] eqn:E; [|discriminate].
    inversion H; subst s'. unfold consistent. cbn. rewrite ?E.
    eexists _, _, _, _, _. repeat split.
  - inversion H; now subst.
Qed.

Lemma reachable_consistent (s : Spectrum) : reachable s -> consistent s.
Proof.
  induction 1 as [w f i r rc s H|s s' _ IH H|s s' _ IH H].
  - now apply Spectrum_init_consistent in H.
  - now apply sharedmem_pack_consistent with s.
  - now apply sharedmem_unpack_consistent with s.
Qed.

Lemma sharedmem_pack_packed (s s' : Spectrum) :
  sharedmem_pack s = Ok s' -> _mpshared s' = true.
Proof.
  unfold sharedmem_pack. destruct (_mpshared s) eqn:U; cbn [negb].
  - intros H. inversion H; now subst.
  - intros H.
    destruct (match _mpshmem s with None => _ | Some _ => _ end) as [s1|];
      [|discriminate].
    cbn [bind] in H.
    destruct (getattr (wave s1)); [|discriminate]. cbn [bind] in H.
    destruct (getattr (flux s1)); [|discriminate]. cbn [bind] in H.
    destruct (getattr (ivar s1)); [|discriminate]. cbn [bind] in H.
    destruct (getattr (R s1)); [|discriminate]. cbn [bind] in H.
    destruct (getattr (Rcsr s1)); [|discriminate]. cbn [bind] in H.
    inversion H. reflexivity.
Qed.

Lemma sharedmem_unpack_unpacked (s s' : Spectrum) :
  sharedmem_unpack s = Ok s' -> _mpshared s' = false.
Proof.
  unfold sharedmem_unpack. destruct (_mpshared s) eqn:U.
  - destruct (_mpshmem s); [|discriminate]. intros H. inversion H. reflexivity.
  - intros H. inversion H; now subst.
Qed.

(** C9.  On a [Spectrum] built by the constructor and changed by its two
    methods only, with shared arrays that read back as written: both
    methods return; [sharedmem_pack] followed by [sharedmem_unpack] on an
    unpacked object gives back [wave], [flux], [ivar], [R] and [Rcsr]; and
    a second [sharedmem_pack], or a second [sharedmem_unpack], leaves the
    object as the first one left it. *)
Theorem sharedmem_pack_unpack (s : Spectrum) :
  reachable s ->
  (_mpshared s = false ->
   exists s1 s2,
     sharedmem_pack s = Ok s1 /\ sharedmem_unpack s1 = Ok s2 /\
     _mpshared s1 = true /\ _mpshared s2 = false /\
     wave s2 = wave s /\ flux s2 = flux s /\ ivar s2 = ivar s /\
     R s2 = R s /\ Rcsr s2 = Rcsr s) /\
  (exists s1, sharedmem_pack s = Ok s1 /\ sharedmem_pack s1 = Ok s1) /\
  (exists s2, sharedmem_unpack s = Ok s2 /\ sharedmem_unpack s2 = Ok s2).
Proof.
  intros Hr. pose proof (reachable_consistent s Hr) as C. split; [|split].
  - intros U. destruct (sharedmem_pack_unpacked s C U)
      as (m & E & Hw & Hf & Hi & HR & Hrc).
    eexists _, _. split; [exact E|].
    unfold sharedmem_unpack. cbn [_mpshared _mpshmem].
    split; [reflexivity|]. cbn.
    rewrite Hw, Hf, Hi, HR, Hrc. repeat split.
  - destruct (_mpshared s) eqn:U.
    + exists s. unfold sharedmem_pack. rewrite U. split; reflexivity.
    + destruct (sharedmem_pack_unpacked s C U) as (m & E & _).
      eexists. split; [exact E|]. reflexivity.
  - unfold sharedmem_unpack at 1. destruct (_mpshared s) eqn:U.
    + unfold consistent in C. rewrite U in C.
      destruct (_mpshmem s) as [m|] eqn:E; [|congruence].
      eexists. split; [reflexivity|]. reflexivity.
    + exists s. split; [reflexivity|].
      unfold sharedmem_unpack. now rewrite U.
Qed.

(** The shared copy is made by the first [sharedmem_pack] only: a later
    one keeps the copy that is there. *)
Lemma sharedmem_pack_keeps_copy (s s' : Spectrum) (m : ShMem) :
  _mpshmem s = Some m -> sharedmem_pack s = Ok s' -> _mpshmem s' = Some m.
Proof.
  intros Hm. unfold sharedmem_pack. rewrite Hm.
  destruct (_mpshared s); cbn [negb bind].
  - intros H. inversion H; now subst.
  - destruct (getattr (wave s)); [|discriminate]. cbn [bind].
    destruct (getattr (flux s)); [|discriminate]. cbn [bind].
    destruct (getattr (ivar s)); [|discriminate]. cbn [bind].
    destruct (getattr (R s)); [|discriminate]. cbn [bind].
    destruct (getattr (Rcsr s)); [|discriminate]. cbn [bind].
    intros H. inversion H. cbn. exact Hm.
Qed.

End Packing.

(** ** [Target.compute_coadd] *)

Lemma nth_map2 {A B C : Type} (f : A -> B -> C) (a : list A) (b : list B)
      (j : nat) (da : A) (db : B) (dc : C) :
  (j < length a)%nat -> length a = length b ->
  nth j (map2 f a b) dc = f (nth j a da) (nth j b db).
Proof.
  revert b j. induction a as [|x a IH]; intros [|y b] j Hj Hl;
    simpl in *; try lia.
  destruct j as [|j]; [reflexivity|]. apply IH; lia.
Qed.

Lemma mapM_Forall2 {A B : Type} (f : A -> res B) (P : A -> B -> Prop) (l : list A) :
  (forall a, In a l -> exists b, f a = Ok b /\ P a b) ->
  exists r, mapM f l = Ok r /\ Forall2 P l r.
Proof.
  induction l as [|a l IH]; intros H.
  - exists []. split; [reflexivity|constructor].
  - destruct (H a (or_introl eq_refl)) as (b & Eb & Pb).
    destruct IH as (r & Er & Pr); [intros x Hx; apply H; now right|].
    exists (b :: r). simpl. rewrite Eb, Er. split; [reflexivity|].
    now constructor.
Qed.

Lemma Qnat_S (n : nat) : Qnat (S n) == Qnat n + 1.
Proof.
  unfold Qnat. rewrite Nat2Z.inj_succ. unfold Z.succ.
  rewrite inject_Z_plus. reflexivity.
Qed.

Lemma Qnat_pos (n : nat) : (0 < n)%nat -> 0 < Qnat n.
Proof.
  intros H. unfold Qnat. change 0 with (inject_Z 0).
  rewrite <- Zlt_Qlt. lia.
Qed.

Section CoaddProofs.
Context {SM : MpSharedMem} {PY : Python} {SP : ScipySparse}.
Variable key : Z.
Variable n : nat.

Lemma pixel_sum_snoc (arr : Spectrum -> list Q) (g : list Spectrum)
      (s : Spectrum) (j : nat) :
  pixel_sum arr (g ++ [s]) j == pixel_sum arr g j + nth j (arr s) 0.
Proof.
  unfold pixel_sum. induction g as [|x g IH]; simpl; [ring|].
  rewrite IH. ring.
Qed.

Lemma weighted_pixel_sum_snoc (g : list Spectrum) (s : Spectrum) (j : nat) :
  weighted_pixel_sum (g ++ [s]) j ==
  weighted_pixel_sum g j + nth j (flux_of s) 0 * nth j (ivar_of s) 0.
Proof.
  unfold weighted_pixel_sum. induction g as [|x g IH]; simpl; [ring|].
  rewrite IH. ring.
Qed.

Lemma foldM_group (sp : list Spectrum) (st : option CoaddAcc * nat) :
  foldM (coadd_step key) sp st = foldM (coadd_step key) (group sp key) st.
Proof.
  revert st. induction sp as [|s sp IH]; intros st; [reflexivity|].
  simpl. destruct (wavehash s =? key)%Z eqn:E.
  - simpl. destruct (coadd_step key st s); [apply IH|reflexivity].
  - unfold coadd_step. destruct st as [acc c]. rewrite E. cbn [negb bind].
    apply IH.
Qed.

Lemma has_pixels_fields (s : Spectrum) :
  has_pixels n s ->
  wave s = Some (wave_of s) /\ flux s = Some (flux_of s) /\
  ivar s = Some (ivar_of s) /\ exists r, R s = Some r.
Proof.
  unfold has_pixels, wave_of, flux_of, ivar_of.
  intros (Hw & Hf & Hi & Hr & _).
  destruct (wave s), (flux s), (ivar s), (R s); try congruence.
  repeat split. eexists. reflexivity.
Qed.

Lemma coadd_step_first (s : Spectrum) (c : nat) :
  has_pixels n s -> wavehash s = key ->
  exists a,
    coadd_step key (None, c) s = Ok (Some a, S c) /\
    acc_wave a = wave_of s /\ sums_of n [s] a.
Proof.
  intros H Hk. destruct (has_pixels_fields s H) as (Hw & Hf & Hi & r & Hr).
  destruct H as (_ & _ & _ & _ & Lf & Li & _).
  unfold coadd_step. rewrite Hk, Z.eqb_refl. cbn [negb].
  rewrite Hw, Hf, Hi, Hr. cbn [getattr bind].
  unfold elementwise. rewrite Lf, Li, Nat.eqb_refl. cbn [bind].
  eexists. split; [reflexivity|]. split; [reflexivity|].
  unfold sums_of. cbn [acc_unweightedflux acc_weightedflux acc_weights acc_n].
  rewrite length_map2, Lf, Li, Nat.min_id.
  do 4 (split; [reflexivity|]). intros j Hj. split; [|split].
  - unfold pixel_sum. simpl. ring.
  - unfold pixel_sum. simpl. ring.
  - unfold weighted_pixel_sum. simpl.
    rewrite (nth_map2 Qmult _ _ j 0 0 0) by lia. ring.
Qed.

Lemma coadd_step_next (g : list Spectrum) (a : CoaddAcc) (s : Spectrum) (c : nat) :
  sums_of n g a -> has_pixels n s -> wavehash s = key ->
  exists a',
    coadd_step key (Some a, c) s = Ok (Some a', S c) /\
    acc_wave a' = acc_wave a /\ sums_of n (g ++ [s]) a'.
Proof.
  intros (Lu & Lwf & Lw & Ln & Hs) H Hk.
  destruct (has_pixels_fields s H) as (Hw & Hf & Hi & r & Hr).
  destruct H as (_ & _ & _ & _ & Lf & Li & _).
  unfold coadd_step. rewrite Hk, Z.eqb_refl. cbn [negb].
  rewrite Hi. cbn [getattr bind]. rewrite Ln, Li, Nat.eqb_refl.
  cbn [assert bind]. rewrite Hf, Hr. cbn [getattr bind].
  unfold elementwise. rewrite Lu, Lf, Li, Lw, Nat.eqb_refl. cbn [bind].
  rewrite Lwf, length_map2, Lf, Li, Nat.min_id, Nat.eqb_refl. cbn [bind].
  eexists. split; [reflexivity|]. split; [reflexivity|].
  unfold sums_of. cbn [acc_unweightedflux acc_weightedflux acc_weights acc_n].
  rewrite !length_map2, Lu, Lwf, Lw, Lf, Li, !Nat.min_id.
  do 4 (split; [reflexivity|]). intros j Hj.
  destruct (Hs j Hj) as (E1 & E2 & E3). split; [|split].
  - rewrite pixel_sum_snoc, (nth_map2 Qplus _ _ j 0 0 0) by lia.
    now rewrite E1.
  - rewrite pixel_sum_snoc, (nth_map2 Qplus _ _ j 0 0 0) by lia.
    now rewrite E2.
  - rewrite weighted_pixel_sum_snoc, (nth_map2 Qplus _ _ j 0 0 0)
      by (rewrite ?length_map2; lia).
    rewrite (nth_map2 Qmult _ _ j 0 0 0) by lia. now rewrite E3.
Qed.

Lemma foldM_coadd_rest (rest g : list Spectrum) (a : CoaddAcc) (c : nat) :
  sums_of n g a ->
  Forall (fun s => has_pixels n s /\ wavehash s = key) rest ->
  exists a',
    foldM (coadd_step key) rest (Some a, c) = Ok (Some a', (c + length rest)%nat) /\
    acc_wave a' = acc_wave a /\ sums_of n (g ++ rest) a'.
Proof.
  intros Hs H. revert g a c Hs.
  induction H as [|s rest [Hp Hk] _ IH]; intros g a c Hs.
  - exists a. simpl. rewrite Nat.add_0_r, app_nil_r. auto.
  - destruct (coadd_step_next g a s c Hs Hp Hk) as (a1 & E1 & W1 & S1).
    destruct (IH (g ++ [s]) a1 (S c) S1) as (a2 & E2 & W2 & S2).
    exists a2. cbn [foldM length]. rewrite E1. cbn [bind]. rewrite E2.
    split; [f_equal; f_equal; lia|]. split; [congruence|].
    now rewrite <- app_assoc in S2.
Qed.

Lemma Spectrum_init_returns (w f i : list Q) (r : dia_matrix) (rc : csr_matrix) :
  (2 <= length w)%nat ->
  exists s, Spectrum_init w f i r rc = Ok s /\
            wave s = Some w /\ flux s = Some f /\ ivar s = Some i /\
            R s = Some r /\ Rcsr s = Some rc /\
            _mpshared s = false /\ _mpshmem s = None.
Proof.
  intros H. unfold Spectrum_init.
  assert (Hne : w <> []) by (destruct w; [simpl in H; lia|discriminate]).
  rewrite (py_index_first w Hne), (py_index_second w H).
  rewrite (py_index_before_last w H), (py_index_last w Hne).
  cbn [bind]. eexists. split; [reflexivity|]. repeat split.
Qed.

(** The coadd of one grid whose exposures all have [n] pixels. *)
Lemma coadd_key_spec (sp : list Spectrum) :
  group sp key <> [] ->
  (forall s, In s (group sp key) -> has_pixels n s) ->
  exists c, coadd_key sp key = Ok c /\ is_coadd_of (group sp key) c.
Proof.
  intros Hne Hall. unfold coadd_key. rewrite foldM_group.
  assert (Hkey : forall s, In s (group sp key) -> wavehash s = key).
  { intros s Hs. apply filter_In in Hs. now apply Z.eqb_eq. }
  destruct (group sp key) as [|s0 rest] eqn:G; [congruence|].
  destruct (coadd_step_first s0 0 (Hall s0 (or_introl eq_refl))
              (Hkey s0 (or_introl eq_refl))) as (a0 & E0 & W0 & S0).
  destruct (foldM_coadd_rest rest [s0] a0 1 S0) as (a & E & W & S).
  { apply Forall_forall. intros s Hs. split; [apply Hall|apply Hkey]; now right. }
  cbn [foldM]. rewrite E0. cbn [bind]. rewrite E. cbn [bind fst snd].
  destruct S as (Lu & Lwf & Lw & Ln & Hs). cbn [app] in Hs.
  unfold elementwise.
  rewrite Lwf, length_map2, length_map, Lw, Nat.min_id, Nat.eqb_refl.
  cbn [bind]. unfold mask_put.
  rewrite !length_map2, !length_map, Lwf, Lw, Lu, !Nat.min_id, Nat.eqb_refl.
  cbn [andb bind].
  destruct (Hall s0 (or_introl eq_refl)) as (_ & _ & _ & _ & _ & _ & Hw2).
  match goal with
  | |- exists c, Spectrum_init ?w ?f ?i ?r ?rc = Ok c /\ _ =>
      destruct (Spectrum_init_returns w f i r rc) as (c & Ec & Cw & Cf & Ci & _)
  end.
  { rewrite W, W0. exact Hw2. }
  exists c. split; [exact Ec|]. unfold is_coadd_of. cbn [hd].
  split; [rewrite Cw, W, W0; reflexivity|].
  eexists _, _. split; [exact Cf|]. split; [exact Ci|].
  split.
  { rewrite length_map2, length_combine, !length_map2, !length_map.
    rewrite Lwf, Lw, Lu. lia. }
  split.
  { intros s Hin. rewrite Lw. apply (Hall s Hin). }
  intros j Hj. rewrite Lw in Hj. destruct (Hs j Hj) as (E1 & E2 & E3).
  split; [exact E1|].
  rewrite (nth_map2 _ _ _ j (0, 0) false 0);
    [|rewrite length_combine, !length_map2, !length_map; lia
     |rewrite length_combine, !length_map2, !length_map; lia].
  rewrite combine_nth by (rewrite !length_map2, !length_map; lia).
  rewrite (nth_indep _ false (Qeq_bool 0 0)) by (rewrite length_map; lia).
  rewrite (map_nth (fun w => Qeq_bool w 0)).
  rewrite (nth_map2 Qdiv _ _ j 0 0 0)
    by (rewrite ?length_map2, ?length_map; lia).
  rewrite (nth_map2 _ _ _ j 0 false 0) by (rewrite ?length_map; lia).
  rewrite (nth_indep (map _ (acc_weights a)) false (Qeq_bool 0 0))
    by (rewrite length_map; lia).
  rewrite (map_nth (fun w => Qeq_bool w 0)).
  rewrite (nth_indep (map _ (acc_unweightedflux a)) 0 (0 / Qnat (1 + length rest)))
    by (rewrite length_map; lia).
  rewrite (map_nth (fun u => u / Qnat (1 + length rest))).
  cbn [fst snd length]. split.
  - intros Hz. rewrite <- E1 in Hz. apply Qeq_bool_iff in Hz. rewrite Hz.
    rewrite E2. reflexivity.
  - intros Hnz. rewrite <- E1 in Hnz. apply Qeq_bool_false in Hnz.
    rewrite Hnz. rewrite E3, E1. field. rewrite <- E1.
    now apply Qeq_bool_false.
Qed.

End CoaddProofs.

Section CoaddTheorem.
Context {SM : MpSharedMem} {PY : Python} {SP : ScipySparse}.

Lemma equal_weight_sums (g : list Spectrum) (j : nat) (w : Q) :
  (forall s, In s g -> nth j (ivar_of s) 0 == w) ->
  pixel_sum ivar_of g j == Qnat (length g) * w /\
  weighted_pixel_sum g j == w * pixel_sum flux_of g j.
Proof.
  unfold pixel_sum, weighted_pixel_sum.
  induction g as [|s g IH]; intros H; simpl.
  - unfold Qnat. simpl. split; ring.
  - destruct IH as [I1 I2]; [intros x Hx; apply H; now right|].
    rewrite I1, I2, (H s (or_introl eq_refl)), Qnat_S. split; ring.
Qed.

(** C8.  When every iterated key is the hash of some spectrum and the
    spectra of a grid are unpacked and have the same number of pixels,
    [compute_coadd] returns, keeps [id] and [meta], and replaces the
    spectra by one coadd per iterated key: at every pixel the inverse
    variance is the sum of the inverse variances of the exposures of that
    grid, the flux is their inverse-variance-weighted mean, and their
    unweighted mean where the total weight is zero.  Where the exposures
    share one non-zero inverse variance [w], the flux is their arithmetic
    mean and the inverse variance is their number times [w]. *)
Theorem compute_coadd_spec (t : Target) (npix : Z -> nat) :
  (forall l k, In k (set_iter l) -> In k l) ->
  (forall s, In s (spectra t) -> has_pixels (npix (wavehash s)) s) ->
  exists coadd,
    compute_coadd t = Ok {| id := id t; spectra := coadd; meta := meta t |} /\
    Forall2
      (fun k c =>
         let g := group (spectra t) k in
         is_coadd_of g c /\
         forall j w,
           (j < length (ivar_of c))%nat ->
           (forall s, In s g -> nth j (ivar_of s) 0 == w) ->
           ~ w == 0 ->
           nth j (flux_of c) 0 == pixel_sum flux_of g j / Qnat (length g) /\
           nth j (ivar_of c) 0 == Qnat (length g) * w)
      (set_iter (map wavehash (spectra t))) coadd.
Proof.
  intros Hset Hpix. unfold compute_coadd.
  destruct (mapM_Forall2 (coadd_key (spectra t))
              (fun k c =>
                 let g := group (spectra t) k in
                 is_coadd_of g c /\
                 forall j w,
                   (j < length (ivar_of c))%nat ->
                   (forall s, In s g -> nth j (ivar_of s) 0 == w) ->
                   ~ w == 0 ->
                   nth j (flux_of c) 0 == pixel_sum flux_of g j / Qnat (length g) /\
                   nth j (ivar_of c) 0 == Qnat (length g) * w)
              (set_iter (map wavehash (spectra t)))) as (coadd & E & F).
  - intros k Hk. apply Hset in Hk. apply in_map_iff in Hk.
    destruct Hk as (s0 & Hk0 & Hs0).
    assert (Hne : group (spectra t) k <> []).
    { intros G. assert (Hin : In s0 (group (spectra t) k)).
      { apply filter_In. split; [exact Hs0|]. now apply Z.eqb_eq. }
      rewrite G in Hin. destruct Hin. }
    destruct (coadd_key_spec k (npix k) (spectra t) Hne) as (c & Ec & Hc).
    { intros s Hs. apply filter_In in Hs. destruct Hs as [Hs Hk'].
      apply Z.eqb_eq in Hk'. rewrite <- Hk'. now apply Hpix. }
    exists c. split; [exact Ec|]. cbv zeta. split; [exact Hc|].
    intros j w Hj Hw Hnz.
    destruct Hc as (_ & fl & ivs & Hf & Hi & _ & _ & Hsum).
    assert (Fc : flux_of c = fl) by (unfold flux_of; now rewrite Hf).
    assert (Ic : ivar_of c = ivs) by (unfold ivar_of; now rewrite Hi).
    rewrite Fc, Ic. rewrite Ic in Hj.
    destruct (Hsum j Hj) as (E1 & _ & E3).
    destruct (equal_weight_sums (group (spectra t) k) j w Hw) as (S1 & S2).
    assert (Hn : 0 < Qnat (length (group (spectra t) k))).
    { apply Qnat_pos. destruct (group (spectra t) k); [congruence|simpl; lia]. }
    assert (Hnz' : ~ pixel_sum ivar_of (group (spectra t) k) j == 0).
    { rewrite S1. intros Hz. apply Qmult_integral in Hz.
      destruct Hz as [Hz|Hz]; [lra|contradiction]. }
    split.
    + rewrite (E3 Hnz'), S1, S2. field. split; [lra|exact Hnz].
    + rewrite E1. exact S1.
  - exists coadd. rewrite E. cbn [bind]. split; [reflexivity|exact F].
Qed.

End CoaddTheorem.

(** ** The data model on sample exposures *)

Lemma exposure_init (f i : list Q) :
  @Spectrum_init list_shm toy_python [1; 2; 3] f i unit_R unit_Rcsr
  = Ok (exposure f i).
Proof. reflexivity. Qed.

(** A fresh spectrum, packed and unpacked. *)
Lemma sharedmem_pack_unpack_witness :
  let s := exposure [2; 4; 6] [1; 1; 0] in
  (_mpshared s = false ->
   exists s1 s2,
     sharedmem_pack s = Ok s1 /\ sharedmem_unpack s1 = Ok s2 /\
     _mpshared s1 = true /\ _mpshared s2 = false /\
     wave s2 = wave s /\ flux s2 = flux s /\ ivar s2 = ivar s /\
     R s2 = R s /\ Rcsr s2 = Rcsr s) /\
  (exists s1, sharedmem_pack s = Ok s1 /\ sharedmem_pack s1 = Ok s1) /\
  (exists s2, sharedmem_unpack s = Ok s2 /\ sharedmem_unpack s2 = Ok s2).
Proof.
  apply (@sharedmem_pack_unpack list_shm toy_python).
  - reflexivity.
  - apply (reach_init [1; 2; 3] [2; 4; 6] [1; 1; 0] unit_R unit_Rcsr).
    apply exposure_init.
Defined.

(** The coadd of the two exposures. *)
Lemma compute_coadd_spec_witness :
  exists coadd,
    @compute_coadd list_shm toy_python diag_only two_exposures
      = Ok {| id := 7; spectra := coadd; meta := [] |} /\
    Forall2
      (fun k c =>
         let g := group (spectra two_exposures) k in
         is_coadd_of g c /\
         forall j w,
           (j < length (ivar_of c))%nat ->
           (forall s, In s g -> nth j (ivar_of s) 0 == w) ->
           ~ w == 0 ->
           nth j (flux_of c) 0 == pixel_sum flux_of g j / Qnat (length g) /\
           nth j (ivar_of c) 0 == Qnat (length g) * w)
      [11%Z] coadd.
Proof.
  apply (@compute_coadd_spec list_shm toy_python diag_only two_exposures
           (fun _ => 3%nat)).
  - intros l k H. apply (nodup_In Z.eq_dec l k). exact H.
  - intros s [<-|[<-|[]]]; unfold has_pixels; cbn;
      repeat split; try discriminate; lia.
Defined.

(** The same coadd, evaluated: the weighted mean on the first two pixels,
    the plain mean on the third, and the summed inverse variance. *)
Lemma compute_coadd_two_exposures :
  exists c,
    @compute_coadd list_shm toy_python diag_only two_exposures
      = Ok {| id := 7; spectra := [c]; meta := [] |} /\
    Forall2 Qeq (flux_of c) [3; 6; 3] /\
    Forall2 Qeq (ivar_of c) [2; 2; 0].
Proof.
  eexists. split; [vm_compute; reflexivity|].
  split; repeat constructor.
Qed.

(** ** [find_minima] and [fitz]: what the table always satisfies *)

(** X1.  The first index that [find_minima] returns holds a global minimum
    of the array: the coarse minima are consumed best first. *)
Theorem find_minima_head_is_global_minimum (x : list Q) :
  x <> [] ->
  exists m rest,
    find_minima x = Ok (m :: rest) /\
    (m < length x)%nat /\
    forall j, (j < length x)%nat -> nth m x 0 <= nth j x 0.
Proof.
  intros Hx.
  destruct (find_minima_nonempty x Hx) as (m & rest & E & Hrange).
  exists m, rest. split; [exact E|].
  inversion Hrange as [|? ? Hm _]; subst. split; [exact Hm|].
  destruct (global_minimum x Hx) as (i & Hi & Hmin).
  assert (Hloc : is_local_min x i).
  { split; [exact Hi|]. split.
    - destruct i as [|k]; [now left|right]. apply Hmin. lia.
    - destruct (Nat.eq_dec i (length x - 1)) as [Ei|Ei]; [now left|right].
      apply Hmin. lia. }
  apply (find_minima_In x (m :: rest) i Hx E) in Hloc.
  pose proof (find_minima_by_value x (m :: rest) Hx E) as Hs.
  inversion Hs as [|? ? _ Hall]; subst.
  intros j Hj. apply Qle_trans with (nth i x 0); [|now apply Hmin].
  destruct Hloc as [->|Hin]; [apply Qle_refl|].
  rewrite Forall_forall in Hall. now apply Hall.
Qed.

Lemma find_minima_head_is_global_minimum_witness :
  exists m rest,
    find_minima [4; 2; 5; 1; 3] = Ok (m :: rest) /\
    (m < 5)%nat /\
    forall j, (j < 5)%nat -> nth m [4; 2; 5; 1; 3] 0 <= nth j [4; 2; 5; 1; 3] 0.
Proof.
  apply (find_minima_head_is_global_minimum [4; 2; 5; 1; 3]). discriminate.
Defined.

Lemma fitz_inv {SM : MpSharedMem} {NP : Numpy} {ZW : ZWarningMask} {ZS : ZScan}
      (zchi2 redshifts : list Q) (spectra : list Spectrum)
      (template : Template) (nminima : Z) (table : list Row.t) :
  fitz zchi2 redshifts spectra template nminima = Ok table ->
  exists accepted,
    fitz_accepted zchi2 redshifts spectra template nminima = Ok accepted /\
    take accepted (argsort (map Row.chi2 accepted)) = Ok table /\
    (0 < length table)%nat.
Proof.
  unfold fitz. intros H.
  destruct (fitz_accepted zchi2 redshifts spectra template nminima)
    as [accepted|e]; [|discriminate].
  cbn [bind] in H. exists accepted. split; [reflexivity|].
  destruct (take accepted (argsort (map Row.chi2 accepted))) as [sorted|e];
    [|discriminate].
  cbn [bind] in H. destruct (0 <? length sorted)%nat eqn:L; [|discriminate].
  cbn [assert bind] in H. inversion H; subst. split; [reflexivity|].
  now apply Nat.ltb_lt.
Qed.

Lemma fitz_accepted_inv {SM : MpSharedMem} {NP : Numpy} {ZW : ZWarningMask}
      {ZS : ZScan} (zchi2 redshifts : list Q) (spectra : list Spectrum)
      (template : Template) (nminima : Z) (accepted : list Row.t) :
  fitz_accepted zchi2 redshifts spectra template nminima = Ok accepted ->
  length zchi2 = length redshifts /\
  exists dwave weights flux wflux minima,
    build_dwave spectra = Ok dwave /\
    spectral_data spectra = Ok (weights, flux, wflux) /\
    find_minima zchi2 = Ok minima /\
    fitz_loop zchi2 redshifts spectra template dwave weights flux nminima
              minima [] = Ok accepted.
Proof.
  unfold fitz_accepted. intros H.
  destruct (Nat.eqb_spec (length zchi2) (length redshifts)) as [L|L];
    [|discriminate].
  cbn [assert bind] in H. split; [exact L|].
  destruct (build_dwave spectra) as [dwave|e]; [|discriminate].
  cbn [bind] in H.
  destruct (spectral_data spectra) as [[[weights flux] wflux]|e];
    [|discriminate].
  cbn [bind] in H.
  destruct (find_minima zchi2) as [minima|e]; [|discriminate].
  cbn [bind] in H. exists dwave, weights, flux, wflux, minima. auto.
Qed.

(** X2.  The table is in ascending order of chi-square. *)
Theorem fitz_sorted_by_chi2 {SM : MpSharedMem} {NP : Numpy}
        {ZW : ZWarningMask} {ZS : ZScan}
        (zchi2 redshifts : list Q) (spectra : list Spectrum)
        (template : Template) (nminima : Z) (table : list Row.t) :
  fitz zchi2 redshifts spectra template nminima = Ok table ->
  StronglySorted (fun a b => Row.chi2 a <= Row.chi2 b) table.
Proof.
  intros H. destruct (fitz_inv _ _ _ _ _ _ H) as (accepted & _ & T & _).
  destruct accepted as [|d acc'].
  - cbn in T. inversion T. constructor.
  - set (accepted := d :: acc') in *.
    set (ii := argsort (map Row.chi2 accepted)) in *.
    assert (Hlt : forall i, In i ii -> (i < length accepted)%nat).
    { intros i Hi. apply (Permutation_in _ (argsort_perm _)) in Hi.
      apply in_seq in Hi. rewrite length_map in Hi. lia. }
    rewrite (take_in_range accepted ii d) in T
      by (apply Forall_forall; exact Hlt).
    inversion T; subst table.
    apply StronglySorted_map_in
      with (S := fun i j => nth i (map Row.chi2 accepted) 0
                            <= nth j (map Row.chi2 accepted) 0).
    + intros i j Hi Hj Hij.
      assert (Hn : forall k, (k < length accepted)%nat ->
                nth k (map Row.chi2 accepted) 0 = Row.chi2 (nth k accepted d)).
      { intros k Hk.
        rewrite (nth_indep _ 0 (Row.chi2 d)) by (now rewrite length_map).
        apply map_nth. }
      rewrite !Hn in Hij by auto. exact Hij.
    + apply argsort_sorted.
Qed.

Lemma fitz_sorted_by_chi2_witness :
  exists table,
    @fitz list_shm exact_numpy zw_bits (curve_zscan two_dips)
          (map two_dips [0; 1; 2; 3; 4; 5; 6]) [0; 1; 2; 3; 4; 5; 6]
          one_exposure tt 3 = Ok table /\
    length table = 2%nat /\
    StronglySorted (fun a b => Row.chi2 a <= Row.chi2 b) table.
Proof.
  destruct (@fitz list_shm exact_numpy zw_bits (curve_zscan two_dips)
              (map two_dips [0; 1; 2; 3; 4; 5; 6]) [0; 1; 2; 3; 4; 5; 6]
              one_exposure tt 3) as [table|e] eqn:E;
    [|vm_compute in E; discriminate].
  exists table. split; [reflexivity|]. split.
  - vm_compute in E. inversion E. reflexivity.
  - exact (fitz_sorted_by_chi2 _ _ _ _ _ _ E).
Defined.

Section LoopBounds.
Context {SM : MpSharedMem} {NP : Numpy} {ZW : ZWarningMask} {ZS : ZScan}.
Variables (zchi2 redshifts : list Q) (spectra : list Spectrum).
Variables (template : Template) (dwave : dict (list Q)) (weights flux : list Q).
Variable nminima : Z.

Lemma fitz_loop_at_most (minima : list nat) (results out : list Row.t) :
  (Z.of_nat (length results) <= nminima)%Z ->
  fitz_loop zchi2 redshifts spectra template dwave weights flux nminima
            minima results = Ok out ->
  (Z.of_nat (length out) <= nminima)%Z.
Proof.
  revert results. induction minima as [|imin rest IH]; intros results Hl H.
  - inversion H; now subst.
  - simpl in H.
    destruct (Z.eqb_spec (Z.of_nat (length results)) nminima) as [E|E];
      [inversion H; now subst|].
    destruct (py_index redshifts (Z.of_nat imin)) as [zi|e]; [|discriminate].
    cbn [bind] in H.
    destruct (too_close zi results); [now apply (IH results)|].
    destruct (refine zchi2 redshifts spectra template dwave weights flux imin)
      as [row|e]; [|discriminate].
    cbn [bind] in H.
    destruct (too_close (Row.z row) results); [now apply (IH results)|].
    apply (IH (results ++ [row])); [|exact H].
    rewrite length_app. simpl. lia.
Qed.

(** Every row that the loop adds is the refinement of one of the coarse
    minima. *)
Lemma fitz_loop_rows (minima : list nat) (results out : list Row.t) :
  fitz_loop zchi2 redshifts spectra template dwave weights flux nminima
            minima results = Ok out ->
  forall row, In row out ->
    In row results \/
    exists imin, In imin minima /\
      refine zchi2 redshifts spectra template dwave weights flux imin = Ok row.
Proof.
  revert results. induction minima as [|imin rest IH]; intros results H row Hr.
  - inversion H; subst. now left.
  - simpl in H.
    destruct (Z.of_nat (length results) =? nminima)%Z;
      [inversion H; subst; now left|].
    destruct (py_index redshifts (Z.of_nat imin)) as [zi|e]; [|discriminate].
    cbn [bind] in H.
    assert (Hskip :
      fitz_loop zchi2 redshifts spectra template dwave weights flux nminima
                rest results = Ok out ->
      In row results \/
      exists i, In i (imin :: rest) /\
        refine zchi2 redshifts spectra template dwave weights flux i = Ok row).
    { intros H'. destruct (IH results H' row Hr) as [Hin|(i & Hi & Ei)];
        [now left|right]. exists i. split; [now right|exact Ei]. }
    destruct (too_close zi results); [now apply Hskip|].
    destruct (refine zchi2 redshifts spectra template dwave weights flux imin)
      as [r|e] eqn:Er; [|discriminate].
    cbn [bind] in H.
    destruct (too_close (Row.z r) results); [now apply Hskip|].
    destruct (IH (results ++ [r]) H row Hr) as [Hin|(i & Hi & Ei)].
    + apply in_app_or in Hin. destruct Hin as [Hin|[<-|[]]]; [now left|].
      right. exists imin. split; [now left|exact Er].
    + right. exists i. split; [now right|exact Ei].
Qed.

End LoopBounds.

(** X3.  For [nminima >= 0] the table has at least one and at most
    [nminima] rows. *)
Theorem fitz_at_most_nminima {SM : MpSharedMem} {NP : Numpy}
        {ZW : ZWarningMask} {ZS : ZScan}
        (zchi2 redshifts : list Q) (spectra : list Spectrum)
        (template : Template) (nminima : Z) (table : list Row.t) :
  (0 <= nminima)%Z ->
  fitz zchi2 redshifts spectra template nminima = Ok table ->
  (1 <= Z.of_nat (length table) <= nminima)%Z.
Proof.
  intros Hn H. destruct (fitz_inv _ _ _ _ _ _ H) as (accepted & A & T & L).
  split; [lia|].
  assert (P : Permutation table accepted).
  { apply (take_permutation accepted table
             (argsort (map Row.chi2 accepted))); [|exact T].
    rewrite <- (length_map Row.chi2 accepted). apply argsort_perm. }
  rewrite (Permutation_length P).
  destruct (fitz_accepted_inv _ _ _ _ _ _ A)
    as (_ & dwave & weights & flux & wflux & minima & _ & _ & _ & Hloop).
  eapply fitz_loop_at_most; [|exact Hloop]. simpl. lia.
Qed.

(** Two dips and room for one row only. *)
Lemma fitz_at_most_nminima_witness :
  exists table,
    @fitz list_shm exact_numpy zw_bits (curve_zscan two_dips)
          (map two_dips [0; 1; 2; 3; 4; 5; 6]) [0; 1; 2; 3; 4; 5; 6]
          one_exposure tt 1 = Ok table /\
    (1 <= Z.of_nat (length table) <= 1)%Z.
Proof.
  destruct (@fitz list_shm exact_numpy zw_bits (curve_zscan two_dips)
              (map two_dips [0; 1; 2; 3; 4; 5; 6]) [0; 1; 2; 3; 4; 5; 6]
              one_exposure tt 1) as [table|e] eqn:E;
    [|vm_compute in E; discriminate].
  exists table. split; [reflexivity|].
  apply (@fitz_at_most_nminima list_shm exact_numpy zw_bits
           (curve_zscan two_dips)
           (map two_dips [0; 1; 2; 3; 4; 5; 6]) [0; 1; 2; 3; 4; 5; 6]
           one_exposure tt 1%Z table); [lia|exact E].
Defined.

(** ** [fitz]: what every row holds *)

Lemma py_index_first_inv (a : list Q) (u : Q) :
  py_index a 0 = Ok u -> a <> [] /\ u = nth 0 a 0.
Proof.
  intros H. destruct a as [|x a]; [discriminate|].
  split; [discriminate|]. rewrite py_index_first in H by discriminate.
  now inversion H.
Qed.

Lemma py_index_last_inv (a : list Q) (u : Q) :
  py_index a (-1) = Ok u -> u = last a 0.
Proof.
  intros H. destruct a as [|x a]; [discriminate|].
  rewrite py_index_last in H by discriminate. now inversion H.
Qed.

Lemma or_else_index_inv (a : list Q) (i j : Z) (f g : Q -> bool) (b : bool) :
  or_else (r <- py_index a i ;; Ok (f r)) (r <- py_index a j ;; Ok (g r)) = Ok b ->
  exists u, py_index a i = Ok u /\
            ((f u = true /\ b = true) \/
             (f u = false /\ exists v, py_index a j = Ok v /\ b = g v)).
Proof.
  unfold or_else. intros H.
  destruct (py_index a i) as [u|e]; [|discriminate]. cbn [bind] in H.
  exists u. split; [reflexivity|].
  destruct (f u) eqn:F.
  - left. split; [reflexivity|]. now inversion H.
  - right. split; [reflexivity|].
    destruct (py_index a j) as [v|e]; [|discriminate]. cbn [bind] in H.
    exists v. split; [reflexivity|]. now inversion H.
Qed.

Section RowShape.
Context {SM : MpSharedMem} {NP : Numpy} {ZW : ZWarningMask} {ZS : ZScan}.

(** A row that the code builds keeps the fine grid and its curve, and its
    redshift is the refined one when that lies inside the fine grid, the
    first fine sample (flagged) otherwise. *)
Lemma finish_row_inv (template : Template) (redshifts zz zzchi2 : list Q)
      (zmin sigma chi2min : Q) (zwarn : Z) (body : res (Q * list Q))
      (row : Row.t) :
  finish_row template redshifts zz zzchi2 zmin sigma chi2min zwarn body = Ok row ->
  Row.zz row = zz /\ Row.zzchi2 row = zzchi2 /\ Row.zerr row = sigma /\
  ((out_of_bracket zz zmin = false /\
    Row.z row = zmin /\ Row.chi2 row = chi2min) \/
   (out_of_bracket zz zmin = true /\
    Row.z row = nth 0 zz 0 /\ Row.chi2 row = nth 0 zzchi2 0 /\
    flag_set (Row.zwarn row) BAD_MINFIT)).
Proof.
  unfold finish_row. intros H.
  destruct (final_coeff template redshifts body zmin zwarn) as [[coeff zw]|e];
    [|discriminate].
  cbn [bind] in H.
  destruct (or_else _ _) as [e1|e]; [|discriminate]. cbn [bind] in H.
  destruct (or_else (r <- py_index zz 0 ;; Ok (Qltb zmin r)) _) as [out|e] eqn:O;
    [|discriminate].
  cbn [bind] in H.
  apply or_else_index_inv in O. destruct O as (u & Hu & O).
  apply py_index_first_inv in Hu. destruct Hu as [Hz ->].
  assert (Eout : out = out_of_bracket zz zmin).
  { unfold out_of_bracket.
    destruct O as [[F ->]|[F (v & Hv & ->)]]; rewrite F; [reflexivity|].
    apply py_index_last_inv in Hv. now subst v. }
  destruct out.
  - rewrite where_scalar_min_first in H. cbn [bind] in H.
    change (Z.of_nat 0) with 0%Z in H.
    rewrite (py_index_first zz Hz) in H. cbn [bind] in H.
    destruct (py_index zzchi2 0) as [c2|e] eqn:C; [|discriminate].
    cbn [bind] in H. apply py_index_first_inv in C. destruct C as [_ ->].
    inversion H; subst row. cbn. repeat split; auto.
    right. repeat split; auto. apply flag_set_lor_r.
  - cbn [bind] in H. inversion H; subst row. cbn. repeat split; auto.
Qed.

Lemma refine_inv (zchi2 redshifts : list Q) (spectra : list Spectrum)
      (template : Template) (dwave : dict (list Q)) (weights flux : list Q)
      (imin : nat) (row : Row.t) :
  refine zchi2 redshifts spectra template dwave weights flux imin = Ok row ->
  fine_grid zchi2 redshifts imin = Ok (Row.zz row) /\
  length (Row.zzchi2 row) = length (Row.zz row) /\
  ((nth 0 (Row.zz row) 0 <= Row.z row /\ Row.z row <= last (Row.zz row) 0) \/
   (Row.z row = nth 0 (Row.zz row) 0 /\
    Row.chi2 row = nth 0 (Row.zzchi2 row) 0 /\
    flag_set (Row.zwarn row) BAD_MINFIT)).
Proof.
  unfold refine. intros H.
  destruct (fine_grid zchi2 redshifts imin) as [zz|e]; [|discriminate].
  cbn [bind] in H.
  destruct (mapM _ zz) as [scan|e] eqn:Escan; [|discriminate].
  cbn [bind] in H.
  destruct (local_fit zz (map fst scan)) as [[[[zmin sigma] chi2min] zwarn]|e];
    [|discriminate].
  cbn [bind] in H. apply finish_row_inv in H.
  destruct H as (Ezz & Ec & _ & Hz). rewrite Ezz, Ec.
  split; [reflexivity|]. split.
  - rewrite length_map. exact (mapM_length _ _ _ Escan).
  - destruct Hz as [(O & -> & _)|(_ & -> & -> & F)].
    + left. unfold out_of_bracket in O. apply orb_false_iff in O.
      destruct O as [O1 O2]. apply Qltb_false in O1, O2. now split.
    + right. auto.
Qed.

Lemma fine_grid_inv (zchi2 redshifts : list Q) (imin : nat) (zz : list Q) :
  fine_grid zchi2 redshifts imin = Ok zz ->
  (imin < length zchi2)%nat ->
  zz = linspace (nth (imin - 1) redshifts 0)
                (nth (Nat.min (imin + 1) (length zchi2 - 1)) redshifts 0) 15.
Proof.
  unfold fine_grid. intros H Hi.
  destruct (py_index redshifts (Z.max 0 (Z.of_nat imin - 1))) as [rlo|e] eqn:Elo;
    [|discriminate].
  cbn [bind] in H.
  destruct (py_index redshifts _) as [rhi|e] eqn:Ehi in H; [|discriminate].
  cbn [bind] in H. inversion H; subst zz.
  replace (Z.max 0 (Z.of_nat imin - 1)) with (Z.of_nat (imin - 1)) in Elo by lia.
  replace (Z.min (Z.of_nat imin + 1) (Z.of_nat (length zchi2) - 1))
    with (Z.of_nat (Nat.min (imin + 1) (length zchi2 - 1))) in Ehi by lia.
  assert (Hnat : forall k v, py_index redshifts (Z.of_nat k) = Ok v ->
                             v = nth k redshifts 0).
  { intros k v E. destruct (Nat.lt_ge_cases k (length redshifts)) as [L|L].
    - rewrite (py_index_nat redshifts k 0 L) in E. now inversion E.
    - rewrite (py_index_nat_out redshifts k L) in E. discriminate. }
  now rewrite (Hnat _ _ Elo), (Hnat _ _ Ehi).
Qed.

(** X4.  Every row of the table is the refinement of a coarse minimum
    [imin] of [zchi2]: its fine grid is the 15-point [linspace] from
    [redshifts[max(0, imin-1)]] to [redshifts[min(imin+1, len-1)]], with 15
    chi-square samples beside it. *)
Theorem fitz_rows_fine_grid (zchi2 redshifts : list Q) (spectra : list Spectrum)
        (template : Template) (nminima : Z) (table : list Row.t) :
  fitz zchi2 redshifts spectra template nminima = Ok table ->
  Forall
    (fun row =>
       length (Row.zz row) = 15%nat /\ length (Row.zzchi2 row) = 15%nat /\
       exists imin,
         is_local_min zchi2 imin /\
         Row.zz row =
           linspace (nth (imin - 1) redshifts 0)
                    (nth (Nat.min (imin + 1) (length zchi2 - 1)) redshifts 0) 15)
    table.
Proof.
  intros H. destruct (fitz_inv _ _ _ _ _ _ H) as (accepted & A & T & L).
  assert (P : Permutation table accepted).
  { apply (take_permutation accepted table
             (argsort (map Row.chi2 accepted))); [|exact T].
    rewrite <- (length_map Row.chi2 accepted). apply argsort_perm. }
  destruct (fitz_accepted_inv _ _ _ _ _ _ A)
    as (Hlen & dwave & weights & flux & wflux & minima & _ & _ & Emin & Hloop).
  assert (Hx : zchi2 <> []).
  { intros ->. rewrite find_minima_empty in Emin. discriminate. }
  apply Forall_forall. intros row Hrow.
  apply (Permutation_in _ P) in Hrow.
  destruct (fitz_loop_rows _ _ _ _ _ _ _ _ _ _ _ Hloop row Hrow)
    as [[]|(imin & Hi & Er)].
  apply (find_minima_In zchi2 minima imin Hx Emin) in Hi.
  apply refine_inv in Er. destruct Er as (Eg & Ec & _).
  pose proof (fine_grid_inv _ _ _ _ Eg (proj1 Hi)) as Ezz.
  assert (L15 : length (Row.zz row) = 15%nat)
    by (rewrite Ezz; apply length_linspace).
  split; [exact L15|]. split; [congruence|].
  exists imin. split; [exact Hi|exact Ezz].
Qed.

(** X5.  The redshift of every row lies between the first and the last
    sample of its own fine grid, or it is the first fine sample, with its
    chi-square, and [BAD_MINFIT] is set: no extrapolated redshift is
    returned. *)
Theorem fitz_rows_inside_fine_grid (zchi2 redshifts : list Q)
        (spectra : list Spectrum) (template : Template) (nminima : Z)
        (table : list Row.t) :
  fitz zchi2 redshifts spectra template nminima = Ok table ->
  Forall
    (fun row =>
       (nth 0 (Row.zz row) 0 <= Row.z row /\ Row.z row <= last (Row.zz row) 0) \/
       (Row.z row = nth 0 (Row.zz row) 0 /\
        Row.chi2 row = nth 0 (Row.zzchi2 row) 0 /\
        flag_set (Row.zwarn row) BAD_MINFIT))
    table.
Proof.
  intros H. destruct (fitz_inv _ _ _ _ _ _ H) as (accepted & A & T & L).
  assert (P : Permutation table accepted).
  { apply (take_permutation accepted table
             (argsort (map Row.chi2 accepted))); [|exact T].
    rewrite <- (length_map Row.chi2 accepted). apply argsort_perm. }
  destruct (fitz_accepted_inv _ _ _ _ _ _ A)
    as (_ & dwave & weights & flux & wflux & minima & _ & _ & _ & Hloop).
  apply Forall_forall. intros row Hrow.
  apply (Permutation_in _ P) in Hrow.
  destruct (fitz_loop_rows _ _ _ _ _ _ _ _ _ _ _ Hloop row Hrow)
    as [[]|(imin & _ & Er)].
  apply refine_inv in Er. apply Er.
Qed.

End RowShape.

(** Two dips: each row on the fine grid of its own coarse minimum. *)
Lemma fitz_rows_fine_grid_witness :
  exists table,
    @fitz list_shm exact_numpy zw_bits (curve_zscan two_dips)
          (map two_dips [0; 1; 2; 3; 4; 5; 6]) [0; 1; 2; 3; 4; 5; 6]
          one_exposure tt 3 = Ok table /\
    Forall
      (fun row =>
         length (Row.zz row) = 15%nat /\ length (Row.zzchi2 row) = 15%nat /\
         exists imin,
           is_local_min (map two_dips [0; 1; 2; 3; 4; 5; 6]) imin /\
           Row.zz row =
             linspace (nth (imin - 1) [0; 1; 2; 3; 4; 5; 6] 0)
                      (nth (Nat.min (imin + 1)
                              (length (map two_dips [0; 1; 2; 3; 4; 5; 6]) - 1))
                           [0; 1; 2; 3; 4; 5; 6] 0) 15)
      table.
Proof.
  destruct (@fitz list_shm exact_numpy zw_bits (curve_zscan two_dips)
              (map two_dips [0; 1; 2; 3; 4; 5; 6]) [0; 1; 2; 3; 4; 5; 6]
              one_exposure tt 3) as [table|e] eqn:E;
    [|vm_compute in E; discriminate].
  exists table. split; [reflexivity|].
  exact (fitz_rows_fine_grid _ _ _ _ _ _ E).
Defined.

(** The falling fine curve: the row is the flagged first fine sample. *)
Lemma fitz_rows_inside_fine_grid_witness :
  exists table,
    @fitz list_shm exact_numpy zw_bits (curve_zscan steep)
          [1; 2; 3; 4; 5] [0; 1; 2; 3; 4] one_exposure tt 3 = Ok table /\
    Forall
      (fun row =>
         (nth 0 (Row.zz row) 0 <= Row.z row /\ Row.z row <= last (Row.zz row) 0) \/
         (Row.z row = nth 0 (Row.zz row) 0 /\
          Row.chi2 row = nth 0 (Row.zzchi2 row) 0 /\
          flag_set (Row.zwarn row) 1024))
      table.
Proof.
  destruct (@fitz list_shm exact_numpy zw_bits (curve_zscan steep)
              [1; 2; 3; 4; 5] [0; 1; 2; 3; 4] one_exposure tt 3)
    as [table|e] eqn:E; [|vm_compute in E; discriminate].
  exists table. split; [reflexivity|].
  exact (fitz_rows_inside_fine_grid _ _ _ _ _ _ E).
Defined.

(** ** [fitz]: distinct redshifts, and the inputs it refuses *)

(** Equal redshifts other than -1 are 0 km/s apart, which is below the
    threshold. *)
Lemma get_dv_same (z zref : Q) :
  z == zref -> ~ 1 + zref == 0 ->
  np_abs_lt (get_dv z zref) max_velo_diff = true.
Proof.
  intros E Hnz. rewrite (get_dv_finite _ _ Hnz). cbn [np_abs_lt].
  apply Qltb_true.
  assert (Z : speed_of_light_km * (z - zref) / (1 + zref) == 0).
  { rewrite E. unfold Qdiv. ring. }
  rewrite Z. reflexivity.
Qed.

Lemma separated_distinct (rows : list Row.t) :
  Forall (fun r => ~ 1 + Row.z r == 0) rows ->
  velocity_separated rows ->
  NoDup rows /\
  forall a b, In a rows -> In b rows -> Row.z a == Row.z b -> a = b.
Proof.
  unfold velocity_separated.
  assert (Hfar : forall a b : Row.t,
             ~ 1 + Row.z a == 0 ->
             np_abs_lt (get_dv (Row.z b) (Row.z a)) max_velo_diff = false ->
             ~ Row.z b == Row.z a).
  { intros a b Hnz H E. rewrite (get_dv_same _ _ E Hnz) in H. discriminate. }
  intros Hall. induction 1 as [|a l Ha Hl IH].
  - split; [constructor|]. intros a b [].
  - inversion Hall as [|? ? Hnz Hrest]; subst.
    destruct (IH Hrest) as [Hnd Hinj]. rewrite Forall_forall in Ha. split.
    + constructor; [|exact Hnd]. intros Hin.
      apply (Hfar a a Hnz (Ha a Hin)). reflexivity.
    + intros x y [<-|Hx] [<-|Hy] E; auto.
      * exfalso. apply (Hfar _ _ Hnz (Ha y Hy)). now symmetry.
      * exfalso. apply (Hfar _ _ Hnz (Ha x Hx)). exact E.
Qed.

(** X6.  When no row of the table has the redshift -1, no row occurs twice
    in it and no two rows hold the same redshift.  (At -1 the velocity to
    the row is an infinity or nan and the code keeps every candidate.) *)
Theorem fitz_distinct_redshifts {SM : MpSharedMem} {NP : Numpy}
        {ZW : ZWarningMask} {ZS : ZScan}
        (zchi2 redshifts : list Q) (spectra : list Spectrum)
        (template : Template) (nminima : Z) (table : list Row.t) :
  fitz zchi2 redshifts spectra template nminima = Ok table ->
  Forall (fun r => ~ 1 + Row.z r == 0) table ->
  NoDup table /\
  forall a b, In a table -> In b table -> Row.z a == Row.z b -> a = b.
Proof.
  intros H Hnz. destruct (fitz_inv _ _ _ _ _ _ H) as (accepted & A & T & L).
  assert (P : Permutation table accepted).
  { apply (take_permutation accepted table
             (argsort (map Row.chi2 accepted))); [|exact T].
    rewrite <- (length_map Row.chi2 accepted). apply argsort_perm. }
  destruct (fitz_accepted_inv _ _ _ _ _ _ A)
    as (_ & dwave & weights & flux & wflux & minima & _ & _ & _ & Hloop).
  apply fitz_loop_separated in Hloop; [|constructor].
  assert (Hacc : Forall (fun r => ~ 1 + Row.z r == 0) accepted).
  { rewrite Forall_forall in Hnz. apply Forall_forall. intros r Hr.
    apply Hnz. now apply (Permutation_in _ (Permutation_sym P)). }
  destruct (separated_distinct accepted Hacc Hloop) as [Hnd Hinj]. split.
  - exact (Permutation_NoDup (Permutation_sym P) Hnd).
  - intros a b Ha Hb. apply Hinj; now apply (Permutation_in _ P).
Qed.

(** X7.  Arrays of different lengths are refused by the first assertion;
    two empty arrays get past it and fail with [IndexError] inside
    [find_minima], whatever [nminima] is. *)
Theorem fitz_refuses_grids {SM : MpSharedMem} {NP : Numpy}
        {ZW : ZWarningMask} {ZS : ZScan}
        (zchi2 redshifts : list Q) (spectra : list Spectrum)
        (template : Template) (nminima : Z) :
  (length zchi2 <> length redshifts ->
   fitz zchi2 redshifts spectra template nminima = Raise AssertionError) /\
  (zchi2 = [] -> redshifts = [] ->
   (exists dwave, build_dwave spectra = Ok dwave) ->
   (exists d, spectral_data spectra = Ok d) ->
   fitz zchi2 redshifts spectra template nminima = Raise IndexError).
Proof.
  split.
  - intros H. unfold fitz, fitz_accepted.
    apply Nat.eqb_neq in H. now rewrite H.
  - intros -> -> (dwave & Hd) ([[w f] wf] & Hs).
    unfold fitz, fitz_accepted. cbn [length Nat.eqb assert bind].
    rewrite Hd. cbn [bind]. rewrite Hs. reflexivity.
Qed.

(** X8.  With [nminima = 0] and non-empty arrays of equal length, the loop
    stops before the first minimum and the final assertion fails. *)
Theorem fitz_zero_nminima {SM : MpSharedMem} {NP : Numpy}
        {ZW : ZWarningMask} {ZS : ZScan}
        (zchi2 redshifts : list Q) (spectra : list Spectrum)
        (template : Template) :
  zchi2 <> [] ->
  length zchi2 = length redshifts ->
  (exists dwave, build_dwave spectra = Ok dwave) ->
  (exists d, spectral_data spectra = Ok d) ->
  fitz zchi2 redshifts spectra template 0 = Raise AssertionError.
Proof.
  intros Hx Hl (dwave & Hd) ([[w f] wf] & Hs).
  destruct (find_minima_nonempty zchi2 Hx) as (m & rest & Em & _).
  unfold fitz, fitz_accepted. rewrite Hl, Nat.eqb_refl. cbn [assert bind].
  rewrite Hd. cbn [bind]. rewrite Hs. cbn [bind]. rewrite Em. reflexivity.
Qed.

Lemma fitz_zero_nminima_witness :
  @fitz list_shm exact_numpy zw_bits (curve_zscan steep)
        [1; 2; 3; 4; 5] [0; 1; 2; 3; 4] one_exposure tt 0 = Raise AssertionError.
Proof.
  apply (@fitz_zero_nminima list_shm exact_numpy zw_bits (curve_zscan steep)).
  - discriminate.
  - reflexivity.
  - eexists. reflexivity.
  - eexists. reflexivity.
Defined.

(** X9.  A grid of one redshift cannot be refined: when the collaborators
    succeed and [nminima <> 0], the edge test reads [redshifts[1]] and
    [fitz] fails with [IndexError]. *)
Theorem fitz_one_point_grid {SM : MpSharedMem} {NP : Numpy}
        {ZW : ZWarningMask} {ZS : ZScan}
        (x0 r0 : Q) (spectra : list Spectrum) (template : Template)
        (nminima : Z) (dwave : dict (list Q)) (weights flux wflux : list Q) :
  nminima <> 0%Z ->
  build_dwave spectra = Ok dwave ->
  spectral_data spectra = Ok (weights, flux, wflux) ->
  (forall zbin zw, exists r,
      fit_at spectra template dwave weights flux zbin zw = Ok r) ->
  (forall x y, length x = length y ->
               (exists r, polyfit2 x y = Ok r) \/ polyfit2 x y = Raise LinAlgError) ->
  fitz [x0] [r0] spectra template nminima = Raise IndexError.
Proof.
  intros Hn Hd Hs Hfit Hpoly.
  assert (Er : refine [x0] [r0] spectra template dwave weights flux 0
               = Raise IndexError).
  { unfold refine.
    change (fine_grid [x0] [r0] 0) with (Ok (linspace r0 r0 15)). cbn [bind].
    destruct (mapM_total
                (fun z => fit_at spectra template dwave weights flux z z)
                (linspace r0 r0 15)) as (scan & Escan).
    { apply Forall_forall. intros z _. apply Hfit. }
    rewrite Escan. cbn [bind].
    pose proof (mapM_length _ _ _ Escan) as Lscan.
    unfold local_fit.
    match goal with
    | |- context [minfit ?a ?b] =>
        destruct (minfit_returns Hpoly a b)
          as ([[[zmin sigma] chi2min] zwarn] & Efit)
    end.
    { apply py_slice_same_length. now rewrite length_map. }
    rewrite Efit. cbn [bind].
    destruct (Hfit zmin (last (linspace r0 r0 15) 0)) as (r & Efin).
    rewrite Efin. unfold finish_row. cbn [final_coeff bind].
    reflexivity. }
  unfold fitz, fitz_accepted. cbn [length Nat.eqb assert bind].
  rewrite Hd. cbn [bind]. rewrite Hs. cbn [bind].
  change (find_minima [x0]) with (@Ok (list nat) [0%nat]). cbn [bind fitz_loop length].
  change (Z.of_nat 0) with 0%Z.
  destruct (Z.eqb_spec 0 nminima) as [E|_]; [congruence|].
  change (py_index [r0] 0) with (Ok r0). cbn [bind].
  rewrite too_close_nil, Er. reflexivity.
Qed.

Lemma fitz_one_point_grid_witness :
  @fitz list_shm exact_numpy zw_bits (curve_zscan steep)
        [1] [0] one_exposure tt 3 = Raise IndexError.
Proof.
  apply (@fitz_one_point_grid list_shm exact_numpy zw_bits (curve_zscan steep)
           1 0 one_exposure tt 3 [(11%Z, [1; 2; 3])] [1; 1; 0] [2; 4; 6]
           [1 * 2; 1 * 4; 0 * 6]).
  - discriminate.
  - reflexivity.
  - reflexivity.
  - intros zbin zw. apply curve_fit_at.
  - exact polyfit2_exact_benign.
Defined.

Lemma fitz_distinct_redshifts_witness :
  exists table,
    @fitz list_shm exact_numpy zw_bits (curve_zscan two_dips)
          (map two_dips [0; 1; 2; 3; 4; 5; 6]) [0; 1; 2; 3; 4; 5; 6]
          one_exposure tt 3 = Ok table /\
    length table = 2%nat /\
    Forall (fun r => ~ 1 + Row.z r == 0) table /\
    NoDup table /\
    forall a b, In a table -> In b table -> Row.z a == Row.z b -> a = b.
Proof.
  destruct (@fitz list_shm exact_numpy zw_bits (curve_zscan two_dips)
              (map two_dips [0; 1; 2; 3; 4; 5; 6]) [0; 1; 2; 3; 4; 5; 6]
              one_exposure tt 3) as [table|e] eqn:E;
    [|vm_compute in E; discriminate].
  assert (Hnz : Forall (fun r => ~ 1 + Row.z r == 0) table).
  { vm_compute in E. inversion E. repeat constructor; discriminate. }
  exists table. split; [reflexivity|].
  split; [vm_compute in E; inversion E; reflexivity|].
  split; [exact Hnz|].
  exact (fitz_distinct_redshifts _ _ _ _ _ _ E Hnz).
Defined.

Lemma fitz_refuses_grids_witness :
  @fitz list_shm exact_numpy zw_bits (curve_zscan steep)
        [1; 2] [0] one_exposure tt 3 = Raise AssertionError /\
  @fitz list_shm exact_numpy zw_bits (curve_zscan steep)
        [] [] one_exposure tt 3 = Raise IndexError.
Proof.
  split.
  - apply (@fitz_refuses_grids list_shm exact_numpy zw_bits (curve_zscan steep)
             [1; 2] [0] one_exposure tt 3). discriminate.
  - apply (@fitz_refuses_grids list_shm exact_numpy zw_bits (curve_zscan steep)
             [] [] one_exposure tt 3); try reflexivity; eexists; reflexivity.
Defined.

(** ** [minfit] and [get_dv]: more of what they return *)

Lemma Qabs_of_pos (a : Q) : 0 < a -> Qabs a = a.
Proof.
  destruct a as [n d]. unfold Qlt, Qabs. simpl. intros H.
  rewrite Z.abs_eq by lia. reflexivity.
Qed.

Lemma Qabs_of_nonpos (a : Q) : a <= 0 -> Qabs a = - a.
Proof.
  destruct a as [n d]. unfold Qle, Qabs, Qopp. simpl. intros H.
  rewrite Z.abs_neq by lia. reflexivity.
Qed.

(** X10.  When [polyfit] returns [(a, b, c)] with [a <> 0] for three points
    or more, [minfit] returns the vertex [x0 = -b / 2a],
    [y0 = c - b^2 / 4a] and [xerr = 1 / sqrt |a|]; the flag word is 0 or
    [BAD_MINFIT], and it is 0 exactly when [a > 0], the vertex lies
    strictly between the smallest and the largest [x], and [y0 > 0]. *)
Theorem minfit_flag_word {NP : Numpy} {ZW : ZWarningMask}
        (x y : list Q) (a b c : Q) :
  (3 <= length x)%nat ->
  polyfit2 x y = Ok (a, b, c) ->
  ~ a == 0 ->
  BAD_MINFIT <> 0%Z ->
  let x0 := - b / (2 * a) in
  let y0 := - (b ^ 2) / (4 * a) + c in
  exists w,
    minfit x y = Ok (x0, 1 / np_sqrt (Qabs a), y0, w) /\
    (w = 0%Z \/ w = BAD_MINFIT) /\
    (w = 0%Z <-> 0 < a /\ np_min x < x0 /\ x0 < np_max x /\ 0 < y0).
Proof.
  intros Hlen Hfit Ha Hbad x0 y0. unfold minfit.
  destruct (Nat.ltb_spec (length x) 3) as [L|_]; [lia|].
  rewrite Hfit. apply Qeq_bool_false in Ha. rewrite Ha.
  fold x0 y0. cbv zeta.
  assert (Hdiag : Z.lor BAD_MINFIT BAD_MINFIT = BAD_MINFIT) by apply Z.lor_diag.
  destruct (Qle_bool x0 (np_min x)) eqn:E1;
    destruct (Qle_bool (np_max x) x0) eqn:E2;
    destruct (Qle_bool y0 0) eqn:E3;
    destruct (Qltb 0 a) eqn:E4;
    cbn [orb Z.lor]; rewrite ?Hdiag;
    try apply Qle_bool_iff in E1; try apply Qle_bool_false in E1;
    try apply Qle_bool_iff in E2; try apply Qle_bool_false in E2;
    try apply Qle_bool_iff in E3; try apply Qle_bool_false in E3;
    try apply Qltb_true in E4; try apply Qltb_false in E4;
    try rewrite (Qabs_of_pos a E4); try rewrite (Qabs_of_nonpos a E4);
    eexists; (split; [reflexivity|]);
    (split; [auto|]);
    (split; [intros H; try congruence; repeat split; auto
            |intros (P1 & P2 & P3 & P4); try reflexivity; exfalso; lra]).
Qed.

(** A parabola that opens downwards: the vertex is returned, flagged. *)
Lemma minfit_flag_word_witness :
  exists w,
    @minfit exact_numpy zw_bits [1; 2; 3] [1; 2; 1]
      = Ok (- (4 # 1) / (2 * (-1 # 1)), 1 / Qsqrt (Qabs (-1 # 1)),
            - ((4 # 1) ^ 2) / (4 * (-1 # 1)) + (-2 # 1), w) /\
    (w = 0%Z \/ w = 1024%Z) /\
    (w = 0%Z <->
     0 < (-1 # 1) /\
     np_min [1; 2; 3] < - (4 # 1) / (2 * (-1 # 1)) /\
     - (4 # 1) / (2 * (-1 # 1)) < np_max [1; 2; 3] /\
     0 < - ((4 # 1) ^ 2) / (4 * (-1 # 1)) + (-2 # 1)).
Proof.
  apply (@minfit_flag_word exact_numpy zw_bits [1; 2; 3] [1; 2; 1]
           (-1 # 1) (4 # 1) (-2 # 1)).
  - simpl; lia.
  - reflexivity.
  - discriminate.
  - discriminate.
Defined.

(** X11.  The docstring's form of the fit.  When [polyfit] returns
    [(a, b, c)] with [a > 0] for three points or more and [sqrt a] squares
    to [a], the values that [minfit] returns satisfy
    [a t^2 + b t + c = y0 + ((t - x0) / xerr)^2] for every [t], so that
    [y0] is the least value of the fitted parabola. *)
Theorem minfit_vertex_form {NP : Numpy} {ZW : ZWarningMask}
        (x y : list Q) (a b c : Q) :
  (3 <= length x)%nat ->
  polyfit2 x y = Ok (a, b, c) ->
  0 < a ->
  np_sqrt a * np_sqrt a == a ->
  exists x0 xerr y0 w,
    minfit x y = Ok (x0, xerr, y0, w) /\
    forall t,
      a * t ^ 2 + b * t + c == y0 + ((t - x0) / xerr) ^ 2 /\
      y0 <= a * t ^ 2 + b * t + c.
Proof.
  intros Hlen Hfit Ha Hs. unfold minfit.
  destruct (Nat.ltb_spec (length x) 3) as [L|_]; [lia|].
  rewrite Hfit.
  assert (Hne : Qeq_bool a 0 = false) by (apply Qeq_bool_false; lra).
  assert (Hpos : Qltb 0 a = true) by (now apply Qltb_true).
  rewrite Hne, Hpos. cbv zeta.
  eexists _, _, _, _. split; [reflexivity|].
  assert (Hsq : ~ np_sqrt a == 0).
  { intros E. rewrite E in Hs. lra. }
  intros t.
  assert (Eform : a * t ^ 2 + b * t + c ==
                  - (b ^ 2) / (4 * a) + c
                  + ((t - - b / (2 * a)) / (1 / np_sqrt a)) ^ 2).
  { transitivity (- (b ^ 2) / (4 * a) + c
                  + (np_sqrt a * np_sqrt a) * (t - - b / (2 * a)) ^ 2).
    - rewrite Hs. field. lra.
    - field. split; [exact Hsq|lra]. }
  split; [exact Eform|].
  rewrite Eform.
  set (u := (t - - b / (2 * a)) / (1 / np_sqrt a)).
  change (u ^ 2) with (u * u). nra.
Qed.

(** The parabola [(t - 2)^2 + 1] through three of its points. *)
Lemma minfit_vertex_form_witness :
  exists x0 xerr y0 w,
    @minfit exact_numpy zw_bits [1; 2; 3] [2; 1; 2] = Ok (x0, xerr, y0, w) /\
    forall t,
      1 * t ^ 2 + (-4 # 1) * t + 5 == y0 + ((t - x0) / xerr) ^ 2 /\
      y0 <= 1 * t ^ 2 + (-4 # 1) * t + 5.
Proof.
  apply (@minfit_vertex_form exact_numpy zw_bits [1; 2; 3] [2; 1; 2]
           1 (-4 # 1) 5).
  - simpl; lia.
  - reflexivity.
  - reflexivity.
  - reflexivity.
Defined.

(** X12.  [minfit] raises exactly the exceptions other than [LinAlgError]
    that [polyfit] raises on three points or more. *)
Theorem minfit_raises {NP : Numpy} {ZW : ZWarningMask}
        (x y : list Q) (e : exn) :
  minfit x y = Raise e <->
  (3 <= length x)%nat /\ polyfit2 x y = Raise e /\ e <> LinAlgError.
Proof.
  unfold minfit. destruct (Nat.ltb_spec (length x) 3) as [L|L].
  - split; [discriminate|]. intros [H _]. lia.
  - destruct (polyfit2 x y) as [[[a b] c]|e'].
    + split; [|intros (_ & H & _); discriminate].
      destruct (Qeq_bool a 0); [discriminate|].
      cbv zeta. destruct (Qltb 0 a); discriminate.
    + destruct e'; split; intros H;
        try discriminate;
        try (inversion H; subst; repeat split; auto; discriminate);
        try (destruct H as (_ & H & Hne); inversion H; subst;
             try reflexivity; congruence).
Qed.

(** Arrays of different lengths: the exact polyfit refuses them, and
    [minfit] lets the [TypeError] through. *)
Lemma minfit_raises_witness :
  @minfit exact_numpy zw_bits [1; 2; 3] [1; 2] = Raise TypeError.
Proof.
  apply (@minfit_raises exact_numpy zw_bits [1; 2; 3] [1; 2] TypeError).
  split; [simpl; lia|]. split; [reflexivity|discriminate].
Defined.

Lemma Qabs_pos_of_nonzero (q : Q) : ~ q == 0 -> 0 < Qabs q.
Proof.
  intros H. apply Qabs_case; intros H0.
  - destruct (Qlt_le_dec 0 q) as [L|L]; [exact L|]. exfalso. apply H. lra.
  - destruct (Qlt_le_dec 0 (- q)) as [L|L]; [exact L|]. exfalso. apply H. lra.
Qed.

Lemma Qabs_get_dv (z zref : Q) :
  Qabs (speed_of_light_km * (z - zref) / (1 + zref)) * Qabs (1 + zref) ==
  speed_of_light_km * Qabs (z - zref) * (Qabs (1 + zref) * / Qabs (1 + zref)).
Proof.
  unfold Qdiv. rewrite !Qabs_Qmult, Qabs_Qinv.
  assert (Hc : Qabs speed_of_light_km == speed_of_light_km) by reflexivity.
  rewrite Hc. ring.
Qed.

(** X13.  The velocity test is a relative tolerance on the redshift: a
    candidate [z] is too close to the accepted rows exactly when
    [|z - zref| < (1000 / c) |1 + zref|] for the redshift [zref] of one of
    them ([1 + zref] being non-zero). *)
Theorem too_close_tolerance (z : Q) (results : list Row.t) :
  Forall (fun r => ~ 1 + Row.z r == 0) results ->
  (too_close z results = true <->
   exists r, In r results /\
             Qabs (z - Row.z r)
             < max_velo_diff / speed_of_light_km * Qabs (1 + Row.z r)).
Proof.
  intros Hnz. unfold too_close. rewrite existsb_exists.
  assert (Hone : forall zref, ~ 1 + zref == 0 ->
            (np_abs_lt (get_dv z zref) max_velo_diff = true <->
             Qabs (z - zref)
             < max_velo_diff / speed_of_light_km * Qabs (1 + zref))).
  { intros zref H. rewrite (get_dv_finite z zref H). cbn [np_abs_lt].
    rewrite Qltb_true.
    pose proof (Qabs_pos_of_nonzero _ H) as HE.
    pose proof (Qabs_get_dv z zref) as HQ.
    rewrite Qmult_inv_r in HQ by lra.
    pose proof (Qabs_nonneg (z - zref)) as HD.
    pose proof (Qabs_nonneg (speed_of_light_km * (z - zref) / (1 + zref))) as HV.
    remember (Qabs (speed_of_light_km * (z - zref) / (1 + zref))) as V eqn:EV.
    clear EV.
    unfold max_velo_diff, speed_of_light_km in *.
    set (D := Qabs (z - zref)) in *.
    set (E := Qabs (1 + zref)) in *.
    clearbody D E.
    assert (K : 1000 / (299792458 / 1000) == 1000000 # 299792458)
      by reflexivity.
    assert (C : 299792458 / 1000 == 299792458 # 1000) by reflexivity.
    rewrite K. rewrite C in HQ. split; intros L.
    - assert (VE : V * E < 1000 * E) by (now apply Qmult_lt_compat_r).
      lra.
    - assert (VE : V * E < 1000 * E) by lra.
      now apply (Qmult_lt_r _ _ E). }
  rewrite Forall_forall in Hnz. split.
  - intros (zref & Hin & Hlt). apply in_map_iff in Hin.
    destruct Hin as (r & <- & Hr). exists r. split; [exact Hr|].
    now apply Hone; [apply Hnz|].
  - intros (r & Hr & Hlt). exists (Row.z r). split; [now apply in_map|].
    now apply Hone; [apply Hnz|].
Qed.

(** A second candidate at 1.002 against an accepted row at 1: inside the
    tolerance of about 0.0067. *)
Lemma too_close_tolerance_witness :
  let row := {| Row.z := 1; Row.zerr := 0; Row.zwarn := 0; Row.chi2 := 0;
                Row.zz := []; Row.zzchi2 := []; Row.coeff := [] |} in
  too_close (1002 # 1000) [row] = true <->
  exists r, In r [row] /\
            Qabs ((1002 # 1000) - Row.z r)
            < max_velo_diff / speed_of_light_km * Qabs (1 + Row.z r).
Proof.
  apply too_close_tolerance. repeat constructor. discriminate.
Defined.

(** ** Dictionaries of wavelength grids: [fitz] and [DistTargets.wavegrids] *)

Lemma dict_get_set_same {V : Type} (d : dict V) (k : Z) (v : V) :
  dict_get (dict_set d k v) k = Ok v.
Proof.
  induction d as [|[k' v'] d IH]; simpl.
  - now rewrite Z.eqb_refl.
  - destruct (Z.eqb_spec k' k) as [E|E]; simpl.
    + now rewrite Z.eqb_refl.
    + destruct (Z.eqb_spec k' k); [contradiction|exact IH].
Qed.

Lemma dict_get_set_other {V : Type} (d : dict V) (k k' : Z) (v : V) :
  k' <> k -> dict_get (dict_set d k v) k' = dict_get d k'.
Proof.
  intros Hne. induction d as [|[k0 v0] d IH]; simpl.
  - destruct (Z.eqb_spec k k'); [congruence|reflexivity].
  - destruct (Z.eqb_spec k0 k) as [E|E]; simpl.
    + subst k0. destruct (Z.eqb_spec k k'); [congruence|reflexivity].
    + destruct (Z.eqb_spec k0 k'); [reflexivity|exact IH].
Qed.

Lemma dict_mem_false {V : Type} (d : dict V) (k : Z) :
  dict_mem d k = false <-> dict_get d k = Raise KeyError.
Proof.
  unfold dict_mem. induction d as [|[k' v'] d IH]; simpl; [tauto|].
  destruct (Z.eqb_spec k' k); simpl; [split; discriminate|exact IH].
Qed.

Lemma dict_mem_true {V : Type} (d : dict V) (k : Z) :
  dict_mem d k = true <-> exists v, dict_get d k = Ok v.
Proof.
  unfold dict_mem. induction d as [|[k' v'] d IH]; simpl.
  - split; [discriminate|]. intros [v H]. discriminate.
  - destruct (Z.eqb_spec k' k); simpl; [|exact IH].
    split; [intros _; now exists v'|reflexivity].
Qed.

Lemma dict_set_keys {V : Type} (d : dict V) (k : Z) (v : V) :
  map fst (dict_set d k v) =
  if dict_mem d k then map fst d else map fst d ++ [k].
Proof.
  unfold dict_mem. induction d as [|[k' v'] d IH]; simpl; [reflexivity|].
  destruct (Z.eqb_spec k' k) as [E|E]; simpl.
  - now subst.
  - rewrite IH. now destruct (existsb _ d).
Qed.

Lemma dict_mem_keys {V : Type} (d : dict V) (k : Z) :
  dict_mem d k = true <-> In k (map fst d).
Proof.
  unfold dict_mem. rewrite existsb_exists, in_map_iff. split.
  - intros (kv & Hin & E). apply Z.eqb_eq in E. now exists kv.
  - intros (kv & E & Hin). exists kv. split; [exact Hin|now apply Z.eqb_eq].
Qed.

Lemma dict_set_new_NoDup {V : Type} (d : dict V) (k : Z) (v : V) :
  dict_mem d k = false -> NoDup (map fst d) -> NoDup (map fst (dict_set d k v)).
Proof.
  intros Hm Hnd. rewrite dict_set_keys, Hm.
  apply NoDup_app; [exact Hnd|repeat constructor; intros []|].
  intros x Hx [<-|[]]. apply dict_mem_keys in Hx. congruence.
Qed.

Lemma foldM_app {A S : Type} (f : S -> A -> res S) (l1 l2 : list A) (s : S) :
  foldM f (l1 ++ l2) s = (s' <- foldM f l1 s ;; foldM f l2 s').
Proof.
  revert s. induction l1 as [|a l1 IH]; intros s; simpl; [reflexivity|].
  destruct (f s a); simpl; [apply IH|reflexivity].
Qed.

Section Grids.
Context {SM : MpSharedMem}.

(** The step shared by [fitz] and [wavegrids]: the grid of a spectrum is
    entered under its hash unless the hash is there already. *)
Lemma first_seen_fold (sp : list Spectrum) (d0 d : dict (list Q)) :
  foldM (fun (dwave : dict (list Q)) (s : Spectrum) =>
           if negb (dict_mem dwave (wavehash s))
           then w <- getattr (wave s) ;; Ok (dict_set dwave (wavehash s) w)
           else Ok dwave) sp d0 = Ok d ->
  NoDup (map fst d0) ->
  NoDup (map fst d) /\
  forall k,
    dict_get d k =
    if dict_mem d0 k then dict_get d0 k
    else match find (fun s => (wavehash s =? k)%Z) sp with
         | Some s0 => getattr (wave s0)
         | None => Raise KeyError
         end.
Proof.
  revert d0. induction sp as [|s sp IH]; intros d0 H Hnd.
  - inversion H; subst d. split; [exact Hnd|]. intros k. simpl.
    destruct (dict_mem d0 k) eqn:M; [reflexivity|]. now apply dict_mem_false.
  - cbn [foldM] in H. destruct (dict_mem d0 (wavehash s)) eqn:M; cbn [negb] in H.
    + cbn [bind] in H. destruct (IH d0 H Hnd) as [N L]. split; [exact N|].
      intros k. rewrite L. simpl.
      destruct (dict_mem d0 k) eqn:Mk; [reflexivity|].
      destruct (Z.eqb_spec (wavehash s) k); [congruence|reflexivity].
    + destruct (wave s) as [w|] eqn:W; [|discriminate]. cbn [getattr bind] in H.
      destruct (IH _ H (dict_set_new_NoDup d0 _ w M Hnd)) as [N L].
      split; [exact N|]. intros k. rewrite L. simpl.
      destruct (Z.eqb_spec (wavehash s) k) as [E|E].
      * subst k. rewrite M.
        assert (M' : dict_mem (dict_set d0 (wavehash s) w) (wavehash s) = true).
        { apply dict_mem_true. exists w. apply dict_get_set_same. }
        rewrite M', dict_get_set_same, W. reflexivity.
      * assert (Mk : dict_mem (dict_set d0 (wavehash s) w) k = dict_mem d0 k).
        { destruct (dict_mem d0 k) eqn:Mk.
          - apply dict_mem_true. apply dict_mem_true in Mk.
            destruct Mk as [v Hv]. exists v.
            rewrite dict_get_set_other by congruence. exact Hv.
          - apply dict_mem_false. apply dict_mem_false in Mk.
            rewrite dict_get_set_other by congruence. exact Mk. }
        rewrite Mk, dict_get_set_other by congruence. reflexivity.
Qed.

Lemma first_seen_fold_returns (sp : list Spectrum) (d0 : dict (list Q)) :
  Forall (fun s => wave s <> None) sp ->
  exists d,
    foldM (fun (dwave : dict (list Q)) (s : Spectrum) =>
             if negb (dict_mem dwave (wavehash s))
             then w <- getattr (wave s) ;; Ok (dict_set dwave (wavehash s) w)
             else Ok dwave) sp d0 = Ok d.
Proof.
  intros H. revert d0. induction H as [|s sp Hs _ IH]; intros d0.
  - now exists d0.
  - cbn [foldM]. destruct (dict_mem d0 (wavehash s)); cbn [negb bind].
    + apply IH.
    + destruct (wave s) as [w|]; [|congruence]. cbn [getattr bind]. apply IH.
Qed.

(** X14.  The dictionary of wavelength grids that [fitz] builds from
    unpacked spectra has one entry per distinct hash, and under the hash
    [k] it holds the grid of the first spectrum whose hash is [k]. *)
Theorem build_dwave_first_seen (spectra : list Spectrum) :
  Forall (fun s => wave s <> None) spectra ->
  exists dwave,
    build_dwave spectra = Ok dwave /\
    NoDup (map fst dwave) /\
    forall k,
      dict_get dwave k =
      match find (fun s => (wavehash s =? k)%Z) spectra with
      | Some s0 => getattr (wave s0)
      | None => Raise KeyError
      end.
Proof.
  intros H. unfold build_dwave.
  destruct (first_seen_fold_returns spectra [] H) as (d & E).
  exists d. split; [exact E|].
  destruct (first_seen_fold spectra [] d E (NoDup_nil _)) as [N L].
  split; [exact N|]. intros k. exact (L k).
Qed.

End Grids.

Lemma build_dwave_first_seen_witness :
  exists dwave,
    @build_dwave list_shm (spectra two_exposures) = Ok dwave /\
    NoDup (map fst dwave) /\
    forall k,
      dict_get dwave k =
      match find (fun s => (wavehash s =? k)%Z) (spectra two_exposures) with
      | Some s0 => getattr (wave s0)
      | None => Raise KeyError
      end.
Proof.
  apply (@build_dwave_first_seen list_shm).
  repeat constructor; discriminate.
Defined.

Section Registry.
Context {SM : MpSharedMem} {MP : MPI}.

Lemma local_dwave_flat (targets : list Target) :
  local_dwave targets = build_dwave (flat_map spectra targets).
Proof.
  unfold local_dwave, build_dwave. generalize (@nil (Z * list Q)).
  induction targets as [|t targets IH]; intros d0; [reflexivity|].
  cbn [foldM flat_map]. rewrite foldM_app.
  match goal with
  | |- (s' <- ?m ;; _) = _ => destruct m
  end; cbn [bind]; [apply IH|reflexivity].
Qed.

(** X15.  [wavegrids] computes once: after a call that returns, every
    later call returns the same dictionary and leaves the object as it is,
    whatever [local()] would now give. *)
Theorem wavegrids_cached (self self' : DistTargets) (local : res (list Target))
        (dwave : dict (list Q)) :
  DistTargets_wavegrids self local = Ok (dwave, self') ->
  _dwave self' = Some dwave /\
  _comm self' = _comm self /\ _targetids self' = _targetids self /\
  forall local', DistTargets_wavegrids self' local' = Ok (dwave, self').
Proof.
  unfold DistTargets_wavegrids. intros H.
  destruct (_dwave self) as [dw|] eqn:C.
  - inversion H; subst. repeat split; auto. intros local'. now rewrite C.
  - destruct local as [targets|e]; [|discriminate]. cbn [bind] in H.
    destruct (local_dwave targets) as [my|e]; [|discriminate].
    cbn [bind] in H. inversion H; subst. cbn. repeat split; auto.
Qed.

(** X16.  Without a communicator and with nothing cached, [wavegrids]
    gives the dictionary that [fitz] builds from the spectra of the local
    targets taken in order, and fails as it does. *)
Theorem wavegrids_single_process (self : DistTargets) (targets : list Target) :
  _comm self = None -> _dwave self = None ->
  DistTargets_wavegrids self (Ok targets) =
  (dwave <- build_dwave (flat_map spectra targets) ;;
   Ok (dwave, {| _comm := None; _targetids := _targetids self;
                 _dwave := Some dwave |})).
Proof.
  intros Hc Hd. unfold DistTargets_wavegrids. rewrite Hd, Hc. cbn [bind].
  now rewrite local_dwave_flat.
Qed.

Lemma setdefault_items_get (pdata d0 : dict (list Q)) (k : Z) :
  dict_get (fold_left (fun (dwave : dict (list Q)) (kv : Z * list Q) =>
                         dict_setdefault dwave (fst kv) (snd kv)) pdata d0) k =
  if dict_mem d0 k then dict_get d0 k else dict_get pdata k.
Proof.
  revert d0. induction pdata as [|[k' v'] pdata IH]; intros d0.
  - simpl. destruct (dict_mem d0 k) eqn:M; [reflexivity|]. now apply dict_mem_false.
  - cbn [fold_left fst snd]. rewrite IH. unfold dict_setdefault.
    destruct (dict_mem d0 k') eqn:M'; cbn [negb].
    + destruct (dict_mem d0 k) eqn:M; [reflexivity|]. simpl.
      destruct (Z.eqb_spec k' k); [congruence|reflexivity].
    + destruct (Z.eqb_spec k' k) as [E|E].
      * subst k'. rewrite M'.
        assert (M1 : dict_mem (dict_set d0 k v') k = true).
        { apply dict_mem_true. exists v'. apply dict_get_set_same. }
        rewrite M1, dict_get_set_same. simpl. now rewrite Z.eqb_refl.
      * assert (Mk : dict_mem (dict_set d0 k' v') k = dict_mem d0 k).
        { destruct (dict_mem d0 k) eqn:Mk.
          - apply dict_mem_true. apply dict_mem_true in Mk.
            destruct Mk as [v Hv]. exists v.
            rewrite dict_get_set_other by congruence. exact Hv.
          - apply dict_mem_false. apply dict_mem_false in Mk.
            rewrite dict_get_set_other by congruence. exact Mk. }
        rewrite Mk, dict_get_set_other by congruence. simpl.
        destruct (Z.eqb_spec k' k); [congruence|reflexivity].
Qed.

Lemma merge_get (temp : list (dict (list Q))) (d0 : dict (list Q)) (k : Z) :
  dict_get (fold_left (fun (dwave : dict (list Q)) (pdata : dict (list Q)) =>
                         fold_left (fun (dwave : dict (list Q)) (kv : Z * list Q) =>
                                      dict_setdefault dwave (fst kv) (snd kv))
                                   pdata dwave) temp d0) k =
  if dict_mem d0 k then dict_get d0 k
  else match find (fun pdata => dict_mem pdata k) temp with
       | Some pdata => dict_get pdata k
       | None => Raise KeyError
       end.
Proof.
  revert d0. induction temp as [|p temp IH]; intros d0.
  - simpl. destruct (dict_mem d0 k) eqn:M; [reflexivity|]. now apply dict_mem_false.
  - cbn [fold_left find]. rewrite IH.
    set (d1 := fold_left _ p d0).
    pose proof (setdefault_items_get p d0 k) as G. fold d1 in G.
    destruct (dict_mem d0 k) eqn:M0.
    + assert (M1 : dict_mem d1 k = true).
      { apply dict_mem_true. apply dict_mem_true in M0.
        destruct M0 as [v Hv]. exists v. now rewrite G. }
      now rewrite M1.
    + destruct (dict_mem p k) eqn:Mp.
      * assert (M1 : dict_mem d1 k = true).
        { apply dict_mem_true. apply dict_mem_true in Mp.
          destruct Mp as [v Hv]. exists v. now rewrite G. }
        now rewrite M1.
      * assert (M1 : dict_mem d1 k = false).
        { apply dict_mem_false. rewrite G. now apply dict_mem_false. }
        now rewrite M1.
Qed.

(** X17.  With a communicator and nothing cached, the dictionary that
    [wavegrids] returns holds, under every hash, the grid of the
    lowest-ranked process whose local dictionary has that hash, and
    nothing under a hash that no process has. *)
Theorem wavegrids_first_rank_wins (self self' : DistTargets) (comm : Comm)
        (targets : list Target) (dwave : dict (list Q)) :
  _comm self = Some comm -> _dwave self = None ->
  DistTargets_wavegrids self (Ok targets) = Ok (dwave, self') ->
  exists my_dwave,
    local_dwave targets = Ok my_dwave /\
    forall k,
      dict_get dwave k =
      match find (fun pdata => dict_mem pdata k) (allgather comm my_dwave) with
      | Some pdata => dict_get pdata k
      | None => Raise KeyError
      end.
Proof.
  intros Hc Hd. unfold DistTargets_wavegrids. rewrite Hd, Hc. cbn [bind].
  destruct (local_dwave targets) as [my|e]; [|discriminate].
  cbn [bind]. intros H. inversion H; subst. exists my.
  split; [reflexivity|]. intros k. unfold merge_dwave.
  rewrite merge_get. reflexivity.
Qed.

End Registry.

Lemma wavegrids_cached_witness :
  let self := fresh_registry None in
  exists dwave self',
    @DistTargets_wavegrids list_shm two_ranks self (Ok [two_exposures])
      = Ok (dwave, self') /\
    _dwave self' = Some dwave /\
    _comm self' = _comm self /\ _targetids self' = _targetids self /\
    forall local',
      @DistTargets_wavegrids list_shm two_ranks self' local' = Ok (dwave, self').
Proof.
  intros self. eexists _, _. split; [reflexivity|].
  apply (@wavegrids_cached list_shm two_ranks self _ (Ok [two_exposures])).
  reflexivity.
Defined.

Lemma wavegrids_single_process_witness :
  @DistTargets_wavegrids list_shm two_ranks (fresh_registry None)
     (Ok [two_exposures]) =
  (dwave <- @build_dwave list_shm (flat_map spectra [two_exposures]) ;;
   Ok (dwave, {| _comm := None; _targetids := [7%Z]; _dwave := Some dwave |})).
Proof.
  apply (@wavegrids_single_process list_shm two_ranks (fresh_registry None)
           [two_exposures]); reflexivity.
Defined.

Lemma wavegrids_first_rank_wins_witness :
  exists dwave my_dwave,
    @local_dwave list_shm [two_exposures] = Ok my_dwave /\
    dict_get dwave 11 = Ok [1; 2; 3] /\
    forall k,
      dict_get dwave k =
      match find (fun pdata => dict_mem pdata k)
                 (@allgather two_ranks _ the_comm my_dwave) with
      | Some pdata => dict_get pdata k
      | None => Raise KeyError
      end.
Proof.
  destruct (@wavegrids_first_rank_wins list_shm two_ranks
              (fresh_registry (Some the_comm))
              {| _comm := Some the_comm; _targetids := [7%Z];
                 _dwave := Some [(11%Z, [1; 2; 3])] |}
              the_comm [two_exposures] [(11%Z, [1; 2; 3])])
    as (my & Emy & L); try reflexivity.
  exists [(11%Z, [1; 2; 3])], my. split; [exact Emy|].
  split; [reflexivity|exact L].
Defined.

(** ** [DistTargetsCopy] *)

Lemma mapM_Forall2_inv {A B : Type} (f : A -> res B) (l : list A) (r : list B) :
  mapM f l = Ok r -> Forall2 (fun a b => f a = Ok b) l r.
Proof.
  revert r. induction l as [|a l IH]; intros r H; simpl in H.
  - inversion H. constructor.
  - destruct (f a) as [b|e] eqn:E; [|discriminate]. cbn [bind] in H.
    destruct (mapM f l) as [bs|e]; [|discriminate]. cbn [bind] in H.
    inversion H; subst. constructor; [exact E|now apply IH].
Qed.

Section Copy.
Context {SM : MpSharedMem} {MP : MPI} {UT : Utils}.

Lemma received_targets_inv (comm : Comm) (root : Z) (my_targets : list Z)
      (targets : list Target) (k : Z) (t : Target) :
  dict_get (received_targets comm root my_targets targets) k = Ok t ->
  id t = k /\ In k my_targets /\
  exists tg, In tg targets /\ t = bcast comm tg root.
Proof.
  unfold received_targets.
  assert (G : forall (d0 : dict Target),
             (forall k t, dict_get d0 k = Ok t ->
                id t = k /\ In k my_targets /\
                exists tg, In tg targets /\ t = bcast comm tg root) ->
             forall (l : list Target), incl l targets ->
             forall k t,
               dict_get (fold_left
                 (fun (tbuf : dict Target) (tg : Target) =>
                    let recv := bcast comm tg root in
                    if existsb (Z.eqb (id recv)) my_targets
                    then dict_set tbuf (id recv) recv else tbuf) l d0) k = Ok t ->
               id t = k /\ In k my_targets /\
               exists tg, In tg targets /\ t = bcast comm tg root).
  { intros d0 H0 l. revert d0 H0.
    induction l as [|tg l IH]; intros d0 H0 Hincl k' t' H; [now apply H0|].
    cbn [fold_left] in H. apply (IH _) in H; [exact H| |].
    - intros k1 t1. cbv zeta.
      destruct (existsb (Z.eqb (id (bcast comm tg root))) my_targets) eqn:M;
        [|apply H0].
      destruct (Z.eq_dec k1 (id (bcast comm tg root))) as [->|Hne].
      + rewrite dict_get_set_same. intros E. inversion E; subst t1.
        split; [reflexivity|]. split.
        * apply existsb_exists in M. destruct M as (x & Hx & Ex).
          apply Z.eqb_eq in Ex. now rewrite Ex.
        * exists tg. split; [apply Hincl; now left|reflexivity].
      + rewrite dict_get_set_other by exact Hne. apply H0.
    - intros x Hx. apply Hincl. now right. }
  apply (G [] ltac:(intros ? ? H; discriminate) targets (incl_refl _)).
Qed.

(** X18.  On a communicator, a constructed [DistTargetsCopy] has one local
    target per local id, in the same order and with that id; each is a
    target received from the root; and nothing is cached yet. *)
Theorem DistTargetsCopy_local_aligned (targets : list Target) (comm : Comm)
        (root : Z) (self : DistTargetsCopy) :
  DistTargetsCopy_init targets (Some comm) root = Ok self ->
  map id (local self) = local_target_ids self /\
  Forall (fun t => exists tg, In tg targets /\ t = bcast comm tg root)
         (local self) /\
  _dwave (base self) = None.
Proof.
  unfold DistTargetsCopy_init. intros H.
  destruct (distribute_targets targets (comm_size comm)) as [proc|e];
    [|discriminate].
  cbn [bind] in H.
  destruct (py_index proc (comm_rank comm)) as [my|e]; [|discriminate].
  cbn [bind] in H.
  destruct (mapM _ my) as [data|e] eqn:E; [|discriminate].
  cbn [bind] in H. inversion H; subst self. cbn. clear H.
  apply mapM_Forall2_inv in E. split; [|split; [|reflexivity]].
  - induction E as [|x t my' data' Hx _ IH]; [reflexivity|].
    simpl. apply received_targets_inv in Hx. destruct Hx as [-> _].
    now rewrite IH.
  - induction E as [|x t my' data' Hx _ IH]; constructor; [|exact IH].
    apply received_targets_inv in Hx. apply Hx.
Qed.

End Copy.

Lemma DistTargetsCopy_local_aligned_witness :
  exists self,
    @DistTargetsCopy_init list_shm two_ranks all_to_first
       [two_exposures] (Some the_comm) 0 = Ok self /\
    map id (local self) = local_target_ids self /\
    local_target_ids self = [7%Z] /\
    Forall (fun t => exists tg, In tg [two_exposures] /\
                                t = @bcast two_ranks _ the_comm tg 0)
           (local self) /\
    _dwave (base self) = None.
Proof.
  destruct (@DistTargetsCopy_init list_shm two_ranks all_to_first
              [two_exposures] (Some the_comm) 0) as [self|e] eqn:E;
    [|vm_compute in E; discriminate].
  exists self. split; [reflexivity|].
  destruct (DistTargetsCopy_local_aligned _ _ _ _ E) as (A & F & C).
  split; [exact A|]. split; [|split; assumption].
  vm_compute in E. inversion E. reflexivity.
Defined.

(** ** [Target]: coadds and packing together *)

Lemma mapM_raise_first {A B : Type} (f : A -> res B) (a : A) (l : list A) (e : exn) :
  f a = Raise e -> mapM f (a :: l) = Raise e.
Proof. intros H. simpl. now rewrite H. Qed.

Lemma mapM_outputs {A B : Type} (f : A -> res B) (l : list A) (r : list B) :
  mapM f l = Ok r -> Forall (fun b => exists a, In a l /\ f a = Ok b) r.
Proof.
  intros H. apply mapM_Forall2_inv in H.
  induction H as [|a b l r Hab _ IH]; constructor.
  - exists a. split; [now left|exact Hab].
  - eapply Forall_impl; [|exact IH]. intros b' (a' & Hin & E).
    exists a'. split; [now right|exact E].
Qed.

Section CoaddMore.
Context {SM : MpSharedMem} {PY : Python} {SP : ScipySparse}.

Lemma Spectrum_init_fresh (w f i : list Q) (r : dia_matrix) (rc : csr_matrix)
      (s : Spectrum) :
  Spectrum_init w f i r rc = Ok s ->
  _mpshared s = false /\ _mpshmem s = None /\
  wave s = Some w /\ flux s = Some f /\ ivar s = Some i /\
  nwave s = length w.
Proof.
  unfold Spectrum_init. intros H.
  destruct (py_index w 0); [|discriminate]. cbn [bind] in H.
  destruct (py_index w 1); [|discriminate]. cbn [bind] in H.
  destruct (py_index w (-2)); [|discriminate]. cbn [bind] in H.
  destruct (py_index w (-1)); [|discriminate]. cbn [bind] in H.
  inversion H; subst s. cbn. repeat split.
Qed.

Lemma coadd_key_fresh (sp : list Spectrum) (key : Z) (c : Spectrum) :
  coadd_key sp key = Ok c ->
  reachable c /\ _mpshared c = false /\ _mpshmem c = None.
Proof.
  unfold coadd_key. intros H.
  destruct (foldM (coadd_step key) sp (None, 0%nat)) as [st|e]; [|discriminate].
  cbn [bind] in H. destruct (fst st) as [a|]; [|discriminate].
  destruct (elementwise Qdiv _ _) as [flux0|e]; [|discriminate].
  cbn [bind] in H.
  destruct (mask_put flux0 _ _) as [flux1|e]; [|discriminate].
  cbn [bind] in H. split.
  - eapply reach_init. exact H.
  - apply Spectrum_init_fresh in H. split; apply H.
Qed.

(** X19.  Whenever [compute_coadd] returns, the target keeps its [id] and
    [meta], it has one spectrum per iterated key, and every one of them is
    a newly constructed [Spectrum]: unpacked, with no shared copy. *)
Theorem compute_coadd_fresh (t t' : Target) :
  compute_coadd t = Ok t' ->
  id t' = id t /\ meta t' = meta t /\
  length (spectra t') = length (set_iter (map wavehash (spectra t))) /\
  Forall (fun c => reachable c /\ _mpshared c = false /\ _mpshmem c = None)
         (spectra t').
Proof.
  unfold compute_coadd. intros H.
  destruct (mapM _ _) as [coadd|e] eqn:E; [|discriminate].
  cbn [bind] in H. inversion H; subst t'. cbn.
  split; [reflexivity|]. split; [reflexivity|].
  split; [exact (mapM_length _ _ _ E)|].
  apply mapM_outputs in E. eapply Forall_impl; [|exact E].
  intros c (k & _ & Ek). now apply coadd_key_fresh in Ek.
Qed.

(** X20.  A grid with a single exposure is coadded to that exposure: the
    same wavelengths, and at every pixel the same flux and inverse
    variance, also where the inverse variance is zero. *)
Theorem coadd_single_exposure (sp : list Spectrum) (key : Z) (n : nat)
        (s : Spectrum) :
  group sp key = [s] ->
  has_pixels n s ->
  exists c,
    coadd_key sp key = Ok c /\
    wave c = wave s /\
    length (flux_of c) = n /\ length (ivar_of c) = n /\
    forall j, (j < n)%nat ->
      nth j (flux_of c) 0 == nth j (flux_of s) 0 /\
      nth j (ivar_of c) 0 == nth j (ivar_of s) 0.
Proof.
  intros G Hs.
  destruct (coadd_key_spec key n sp) as (c & Ec & Hc).
  { rewrite G. discriminate. }
  { rewrite G. intros s' [<-|[]]. exact Hs. }
  exists c. split; [exact Ec|]. rewrite G in Hc.
  destruct Hc as (Hw & fl & ivs & Hf & Hi & Lf & Hlen & Hsum).
  cbn [hd] in Hw.
  destruct (has_pixels_fields n s Hs) as (Ws & _).
  split; [congruence|].
  assert (Fc : flux_of c = fl) by (unfold flux_of; now rewrite Hf).
  assert (Ic : ivar_of c = ivs) by (unfold ivar_of; now rewrite Hi).
  assert (Ln : length ivs = n).
  { rewrite <- (Hlen s (or_introl eq_refl)). apply Hs. }
  rewrite Fc, Ic. split; [congruence|]. split; [exact Ln|].
  intros j Hj. rewrite <- Ln in Hj. destruct (Hsum j Hj) as (E1 & E2 & E3).
  unfold pixel_sum, weighted_pixel_sum in *. cbn [map Qsum fold_right length] in *.
  assert (Eiv : nth j ivs 0 == nth j (ivar_of s) 0) by (rewrite E1; ring).
  split; [|exact Eiv].
  destruct (Qeq_dec (nth j (ivar_of s) 0) 0) as [Hz|NZ].
  - assert (C : nth j (ivar_of s) 0 + 0 == 0)
      by (rewrite Qplus_0_r; exact Hz).
    apply E2 in C. rewrite C. change (Qnat 1) with 1. field.
  - assert (C : ~ nth j (ivar_of s) 0 + 0 == 0)
      by (rewrite Qplus_0_r; exact NZ).
    apply E3 in C. rewrite C. field. exact NZ.
Qed.

(** X21.  Exposures of one grid whose inverse-variance arrays differ in
    length are refused: when the first key iterated has a first exposure
    of [n] pixels and a second one whose [ivar] has another length,
    [compute_coadd] fails with [AssertionError]. *)
Theorem compute_coadd_length_mismatch (t : Target) (k : Z) (keys : list Z)
        (n : nat) (s1 s2 : Spectrum) (rest : list Spectrum) (iv2 : list Q) :
  set_iter (map wavehash (spectra t)) = k :: keys ->
  group (spectra t) k = s1 :: s2 :: rest ->
  has_pixels n s1 ->
  ivar s2 = Some iv2 -> length iv2 <> n ->
  compute_coadd t = Raise AssertionError.
Proof.
  intros Hk G H1 Hi Hl. unfold compute_coadd. rewrite Hk.
  rewrite (mapM_raise_first _ k keys AssertionError); [reflexivity|].
  unfold coadd_key. rewrite foldM_group, G.
  assert (K1 : wavehash s1 = k).
  { assert (Hin : In s1 (group (spectra t) k)) by (rewrite G; now left).
    apply filter_In in Hin. now apply Z.eqb_eq. }
  assert (K2 : wavehash s2 = k).
  { assert (Hin : In s2 (group (spectra t) k)) by (rewrite G; right; now left).
    apply filter_In in Hin. now apply Z.eqb_eq. }
  destruct (coadd_step_first k n s1 0 H1 K1) as (a & E1 & _ & S1).
  cbn [foldM]. rewrite E1. cbn [bind].
  destruct S1 as (_ & _ & _ & Ln & _).
  unfold coadd_step at 1. rewrite K2, Z.eqb_refl. cbn [negb].
  rewrite Hi. cbn [getattr bind]. rewrite Ln.
  apply Nat.eqb_neq in Hl. rewrite Hl. reflexivity.
Qed.

Lemma sharedmem_pack_removes (s s' : Spectrum) :
  sharedmem_pack s = Ok s' -> _mpshared s = false ->
  wave s' = None /\ flux s' = None /\ ivar s' = None /\
  R s' = None /\ Rcsr s' = None.
Proof.
  unfold sharedmem_pack. intros H U. rewrite U in H. cbn [negb] in H.
  destruct (match _mpshmem s with None => _ | Some _ => _ end) as [s1|];
    [|discriminate].
  cbn [bind] in H.
  destruct (getattr (wave s1)); [|discriminate]. cbn [bind] in H.
  destruct (getattr (flux s1)); [|discriminate]. cbn [bind] in H.
  destruct (getattr (ivar s1)); [|discriminate]. cbn [bind] in H.
  destruct (getattr (R s1)); [|discriminate]. cbn [bind] in H.
  destruct (getattr (Rcsr s1)); [|discriminate]. cbn [bind] in H.
  inversion H. cbn. repeat split.
Qed.

(** A packed object has none of its five fields. *)
Lemma reachable_packed (s : Spectrum) :
  reachable s -> _mpshared s = true ->
  wave s = None /\ flux s = None /\ ivar s = None /\ R s = None /\ Rcsr s = None.
Proof.
  induction 1 as [w f i r rc s H|s s' Hr IH H|s s' Hr IH H]; intros P.
  - apply Spectrum_init_fresh in H. destruct H as (U & _). congruence.
  - destruct (_mpshared s) eqn:U.
    + unfold sharedmem_pack in H. rewrite U in H. inversion H; subst s'.
      now apply IH.
    + now apply (sharedmem_pack_removes s s').
  - apply sharedmem_unpack_unpacked in H. congruence.
Qed.

(** X22.  Coadding packed spectra is refused: after [sharedmem_pack] on a
    target with at least one spectrum, [compute_coadd] fails with
    [AttributeError] (a set being iterated over its own elements, and not
    empty when the list is not). *)
Theorem compute_coadd_after_pack (t t1 : Target) :
  (forall l k, In k (set_iter l) -> In k l) ->
  (forall l, l <> [] -> set_iter l <> []) ->
  spectra t <> [] ->
  Forall reachable (spectra t) ->
  Target_sharedmem_pack t = Ok t1 ->
  compute_coadd t1 = Raise AttributeError.
Proof.
  intros Hin Hne Hsp Hr Hp. unfold Target_sharedmem_pack in Hp.
  destruct (mapM sharedmem_pack (spectra t)) as [sp1|e] eqn:E; [|discriminate].
  cbn [bind] in Hp. inversion Hp; subst t1. clear Hp.
  unfold compute_coadd. cbn [spectra].
  assert (Hpacked : forall s1, In s1 sp1 -> wave s1 = None).
  { intros s1 Hs1. apply mapM_outputs in E. rewrite Forall_forall in E, Hr.
    destruct (E s1 Hs1) as (s & Hs & Es).
    apply (reachable_packed s1).
    - apply (reach_pack s s1); [now apply Hr|exact Es].
    - now apply (sharedmem_pack_packed s s1). }
  assert (Hsp1 : sp1 <> []).
  { apply mapM_length in E. destruct sp1; [|discriminate].
    destruct (spectra t); [congruence|discriminate]. }
  destruct (set_iter (map wavehash sp1)) as [|k keys] eqn:K.
  - exfalso. apply (Hne (map wavehash sp1)); [|exact K].
    destruct sp1; [congruence|discriminate].
  - rewrite (mapM_raise_first _ k keys AttributeError); [reflexivity|].
    assert (Hk : In k (map wavehash sp1)) by (apply Hin; rewrite K; now left).
    apply in_map_iff in Hk. destruct Hk as (s0 & Hk0 & Hs0).
    unfold coadd_key. rewrite foldM_group.
    destruct (group sp1 k) as [|g0 grest] eqn:G.
    + exfalso. assert (Hg : In s0 (group sp1 k)).
      { apply filter_In. split; [exact Hs0|now apply Z.eqb_eq]. }
      rewrite G in Hg. destruct Hg.
    + assert (Hg0 : In g0 (group sp1 k)) by (rewrite G; now left).
      apply filter_In in Hg0. destruct Hg0 as [Hg0 Kg0].
      cbn [foldM]. unfold coadd_step at 1. rewrite Kg0. cbn [negb].
      rewrite (Hpacked g0 Hg0). reflexivity.
Qed.

(** Reading a shared array gives back the array it was made from. *)
Hypothesis toarray_fromarray :
  forall (A : Type) (a : list A), toarray (fromarray a) = a.

Lemma pack_unpack_one (s : Spectrum) :
  reachable s -> _mpshared s = false ->
  exists s1 s2,
    sharedmem_pack s = Ok s1 /\ sharedmem_unpack s1 = Ok s2 /\
    _mpshared s1 = true /\ _mpshared s2 = false /\ same_arrays s s2.
Proof.
  intros Hr U. pose proof (reachable_consistent toarray_fromarray s Hr) as C.
  destruct (sharedmem_pack_unpacked toarray_fromarray s C U)
    as (m & E & Hw & Hf & Hi & HR & Hrc).
  eexists _, _. split; [exact E|].
  unfold sharedmem_unpack, same_arrays. cbn [_mpshared _mpshmem].
  split; [reflexivity|]. cbn. rewrite Hw, Hf, Hi, HR, Hrc. repeat split.
Qed.

(** X23.  On a target whose spectra were built by the constructor and the
    two methods and are unpacked, [Target.sharedmem_pack] packs every
    spectrum and [Target.sharedmem_unpack] then gives back, spectrum by
    spectrum, the five arrays; [id] and [meta] stay. *)
Theorem Target_pack_unpack (t : Target) :
  Forall (fun s => reachable s /\ _mpshared s = false) (spectra t) ->
  exists t1 t2,
    Target_sharedmem_pack t = Ok t1 /\
    Target_sharedmem_unpack t1 = Ok t2 /\
    id t2 = id t /\ meta t2 = meta t /\
    Forall (fun s1 => _mpshared s1 = true) (spectra t1) /\
    Forall2 (fun s s2 => same_arrays s s2 /\ _mpshared s2 = false)
            (spectra t) (spectra t2).
Proof.
  intros H. unfold Target_sharedmem_pack, Target_sharedmem_unpack.
  assert (G : exists sp1 sp2,
             mapM sharedmem_pack (spectra t) = Ok sp1 /\
             mapM sharedmem_unpack sp1 = Ok sp2 /\
             Forall (fun s1 => _mpshared s1 = true) sp1 /\
             Forall2 (fun s s2 => same_arrays s s2 /\ _mpshared s2 = false)
                     (spectra t) sp2).
  { revert H. generalize (spectra t). intros l H.
    induction H as [|s sp [Hr U] _ (sp1 & sp2 & E1 & E2 & F1 & F2)].
    - exists [], []. repeat split; constructor.
    - destruct (pack_unpack_one s Hr U) as (s1 & s2 & P & Un & P1 & U2 & Same).
      exists (s1 :: sp1), (s2 :: sp2). cbn [mapM].
      rewrite P, E1. cbn [bind]. rewrite Un. cbn [bind]. rewrite E2. cbn [bind].
      repeat split; constructor; auto. }
  destruct G as (sp1 & sp2 & E1 & E2 & F1 & F2).
  exists {| id := id t; spectra := sp1; meta := meta t |},
         {| id := id t; spectra := sp2; meta := meta t |}.
  rewrite E1. cbn [bind spectra id meta]. rewrite E2. cbn [bind].
  repeat split; assumption.
Qed.

End CoaddMore.

Lemma nodup_nonempty (l : list Z) : l <> [] -> nodup Z.eq_dec l <> [].
Proof.
  destruct l as [|a l]; [congruence|]. intros _ E.
  assert (H : In a (nodup Z.eq_dec (a :: l))) by (apply nodup_In; now left).
  rewrite E in H. destruct H.
Qed.

Lemma exposure_reachable (f i : list Q) :
  @reachable list_shm toy_python (exposure f i).
Proof.
  apply (reach_init [1; 2; 3] f i unit_R unit_Rcsr). apply exposure_init.
Qed.

(** The coadd of the two exposures is a new, unpacked spectrum. *)
Lemma compute_coadd_fresh_witness :
  @compute_coadd list_shm toy_python diag_only two_exposures
    = Ok coadded_two_exposures /\
  id coadded_two_exposures = id two_exposures /\
  meta coadded_two_exposures = meta two_exposures /\
  length (spectra coadded_two_exposures)
    = length (@set_iter toy_python (map wavehash (spectra two_exposures))) /\
  Forall (fun c => @reachable list_shm toy_python c /\
                   _mpshared c = false /\ _mpshmem c = None)
         (spectra coadded_two_exposures).
Proof.
  split; [vm_compute; reflexivity|].
  apply (@compute_coadd_fresh list_shm toy_python diag_only).
  vm_compute. reflexivity.
Defined.

(** One exposure, coadded. *)
Lemma coadd_single_exposure_witness :
  let s := exposure [2; 4; 6] [1; 1; 0] in
  exists c,
    @coadd_key list_shm toy_python diag_only one_exposure 11 = Ok c /\
    wave c = wave s /\
    length (flux_of c) = 3%nat /\ length (ivar_of c) = 3%nat /\
    forall j, (j < 3)%nat ->
      nth j (flux_of c) 0 == nth j (flux_of s) 0 /\
      nth j (ivar_of c) 0 == nth j (ivar_of s) 0.
Proof.
  apply (@coadd_single_exposure list_shm toy_python diag_only one_exposure 11 3).
  - reflexivity.
  - unfold has_pixels; cbn; repeat split; try discriminate; lia.
Defined.

(** Three pixels of flux, two of inverse variance. *)
Lemma compute_coadd_length_mismatch_witness :
  @compute_coadd list_shm toy_python diag_only mismatched_exposures
    = Raise AssertionError.
Proof.
  apply (@compute_coadd_length_mismatch list_shm toy_python diag_only
           mismatched_exposures 11 [] 3
           (exposure [2; 4; 6] [1; 1; 0]) (exposure [4; 8; 0] [1; 1]) []
           [1; 1]).
  - reflexivity.
  - reflexivity.
  - unfold has_pixels; cbn; repeat split; try discriminate; lia.
  - reflexivity.
  - cbn. lia.
Defined.

(** The two exposures, packed and then coadded. *)
Lemma compute_coadd_after_pack_witness :
  @compute_coadd list_shm toy_python diag_only packed_two_exposures
    = Raise AttributeError.
Proof.
  apply (@compute_coadd_after_pack list_shm toy_python diag_only two_exposures).
  - intros l k H. apply (nodup_In Z.eq_dec l k). exact H.
  - exact nodup_nonempty.
  - discriminate.
  - repeat constructor; apply exposure_reachable.
  - vm_compute. reflexivity.
Defined.

(** The two exposures, packed and unpacked together. *)
Lemma Target_pack_unpack_witness :
  exists t1 t2,
    @Target_sharedmem_pack list_shm two_exposures = Ok t1 /\
    Target_sharedmem_unpack t1 = Ok t2 /\
    id t2 = id two_exposures /\ meta t2 = meta two_exposures /\
    Forall (fun s1 => _mpshared s1 = true) (spectra t1) /\
    Forall2 (fun s s2 => same_arrays s s2 /\ _mpshared s2 = false)
            (spectra two_exposures) (spectra t2).
Proof.
  apply (@Target_pack_unpack list_shm toy_python).
  - reflexivity.
  - repeat constructor; apply exposure_reachable.
Defined.

(** ** The constructor of [Spectrum] *)

Section Constructor.
Context {SM : MpSharedMem} {PY : Python}.

(** X24.  The constructor fails exactly on a wavelength grid of fewer than
    two samples, with [IndexError] from the hash; the lengths of [flux]
    and [ivar] are not looked at. *)
Theorem Spectrum_init_raises (w f i : list Q) (r : dia_matrix) (rc : csr_matrix)
        (e : exn) :
  Spectrum_init w f i r rc = Raise e <-> (length w < 2)%nat /\ e = IndexError.
Proof.
  destruct (le_lt_dec 2 (length w)) as [H|H].
  - destruct (Spectrum_init_returns w f i r rc H) as (s & E & _).
    rewrite E. split; [discriminate|]. intros [L _]. lia.
  - destruct w as [|x [|y w]]; [| |simpl in H; lia].
    + split; [intros E; inversion E; split; [simpl; lia|reflexivity]|].
      intros [_ ->]. reflexivity.
    + split; [intros E; inversion E; split; [simpl; lia|reflexivity]|].
      intros [_ ->]. reflexivity.
Qed.

(** X25.  The hash of a grid reads its length, its first two and its last
    two samples only: two spectra whose grids agree on these have the same
    [wavehash], whatever the samples in between. *)
Theorem wavehash_ignores_interior (w w' f f' i i' : list Q)
        (r r' : dia_matrix) (rc rc' : csr_matrix) (s s' : Spectrum) :
  Spectrum_init w f i r rc = Ok s ->
  Spectrum_init w' f' i' r' rc' = Ok s' ->
  length w = length w' ->
  nth 0 w 0 = nth 0 w' 0 -> nth 1 w 0 = nth 1 w' 0 ->
  nth (length w - 2) w 0 = nth (length w' - 2) w' 0 ->
  last w 0 = last w' 0 ->
  wavehash s = wavehash s'.
Proof.
  intros E E' L H0 H1 H2 H3.
  assert (Hw : (2 <= length w)%nat).
  { destruct (le_lt_dec 2 (length w)) as [H|H]; [exact H|].
    assert (R : Spectrum_init w f i r rc = Raise IndexError)
      by (apply Spectrum_init_raises; split; [exact H|reflexivity]).
    rewrite R in E. discriminate. }
  assert (Hw' : (2 <= length w')%nat) by lia.
  assert (Hne : w <> []) by (destruct w; [simpl in Hw; lia|discriminate]).
  assert (Hne' : w' <> []) by (destruct w'; [simpl in Hw'; lia|discriminate]).
  unfold Spectrum_init in E, E'.
  rewrite (py_index_first w Hne), (py_index_second w Hw),
    (py_index_before_last w Hw), (py_index_last w Hne) in E.
  rewrite (py_index_first w' Hne'), (py_index_second w' Hw'),
    (py_index_before_last w' Hw'), (py_index_last w' Hne') in E'.
  cbn [bind] in E, E'. inversion E. inversion E'. cbn.
  now rewrite H0, H1, H2, H3, L.
Qed.

End Constructor.

Lemma Spectrum_init_raises_witness :
  @Spectrum_init list_shm toy_python [5] [1; 2] [1] unit_R unit_Rcsr
  = Raise IndexError.
Proof.
  apply (@Spectrum_init_raises list_shm toy_python). split; [simpl; lia|reflexivity].
Defined.

(** Two grids of five samples that differ in the middle one. *)
Lemma wavehash_ignores_interior_witness :
  exists s s',
    @Spectrum_init list_shm toy_python [1; 2; 3; 4; 5] [0] [0] unit_R unit_Rcsr
      = Ok s /\
    @Spectrum_init list_shm toy_python [1; 2; 9; 4; 5] [0] [0] unit_R unit_Rcsr
      = Ok s' /\
    wave s <> wave s' /\ wavehash s = wavehash s'.
Proof.
  eexists _, _. split; [reflexivity|]. split; [reflexivity|].
  split; [discriminate|].
  eapply (@wavehash_ignores_interior list_shm toy_python
            [1; 2; 3; 4; 5] [1; 2; 9; 4; 5] [0] [0] [0] [0]
            unit_R unit_R unit_Rcsr unit_Rcsr); reflexivity.
Defined.
